(** * hapi_server: an in-memory hierarchical store

    A shallow embedding of the Python 2 program [src/hapi_server.py] (classes [Node] and
    [Storage], the four request handlers and the body of the request
    loop) together with the properties of the store that its
    specification states.

    Object model.  [Storage] reaches every [Node] through its dictionary
    [_nodes], which is keyed by the node id, and ids are unique in it.  A
    reference to a [Node] object is therefore modelled by the node's id,
    the heap of [Node] objects is the dictionary [_nodes] itself, and
    [n.id()] on a reference [n] is [n].  The mutable fields of a [Node]
    are the fields of the record stored under its id; assigning to a
    field is [alter] on the heap.

    Loops and recursion over the tree take fuel; [Diverge] marks its
    exhaustion, and theorem [calls_end] shows that it is never met on a
    store the program can reach.  The interpreter's own limits (memory,
    recursion depth) are not modelled. *)

From stdpp Require Import gmap strings list fin_maps sorting.
From Stdlib Require Import ZArith Lia OrderedTypeEx.

Open Scope string_scope.
Open Scope list_scope.

(** ** Python values and control *)

(** The exceptions the modelled code can raise. *)
Inductive exn : Type :=
| ValueError          (* list.index / list.remove of an absent element *)
| KeyError            (* dict[k] with k absent *)
| UnboundLocalError   (* a local read before any assignment *)
| AttributeError      (* attribute access on None or on a non-dict *)
| TypeError.          (* a call of something that is no handler *)

(** How a call ends: it returns a value, raises, or (in the model only)
    exhausts the fuel given to one of its loops. *)
Inductive outcome (A : Type) : Type :=
| Return (a : A)
| Raise (e : exn)
| Diverge.
Arguments Return {A} a.
Arguments Raise {A} e.
Arguments Diverge {A}.

Definition obind {A B} (m : outcome A) (f : A -> outcome B) : outcome B :=
  match m with
  | Return a => f a
  | Raise e => Raise e
  | Diverge => Diverge
  end.

Notation "'do' x <- m ; f" := (obind m (fun x => f))
  (at level 10, x name, m at level 100, f at level 200).

(** Truth value of an optional string ([None] and [""] are falsy), of an
    optional list ([None] and [[]] are falsy) and of an optional integer
    ([None] and [0] are falsy). *)
Definition truthy_str (o : option string) : bool :=
  match o with Some s => negb (String.eqb s "") | None => false end.

Definition truthy_list {A} (o : option (list A)) : bool :=
  match o with Some (_ :: _) => true | _ => false end.

Definition truthy_int (o : option Z) : bool :=
  match o with Some z => negb (z =? 0)%Z | None => false end.

(** ** Python list operations *)

Section PyList.
Context {A : Type}.

(** [l.index(x)]: position of the first element equal to [x], where
    equality with [x] is the test [eqx]; [None] stands for ValueError. *)
Fixpoint index_where (eqx : A -> bool) (l : list A) : option nat :=
  match l with
  | [] => None
  | y :: l' => if eqx y then Some 0%nat else S <$> index_where eqx l'
  end.

(** [l.remove(x)]: drops the first element equal to [x]; [None] stands
    for ValueError. *)
Fixpoint remove_where (eqx : A -> bool) (l : list A) : option (list A) :=
  match l with
  | [] => None
  | y :: l' => if eqx y then Some l' else cons y <$> remove_where eqx l'
  end.

(** Normalisation of a slice or insertion index: a negative index
    counts from the end, and the result is clamped to [0..len]. *)
Definition clamp (len : nat) (i : Z) : nat :=
  Z.to_nat (if (i <? 0)%Z then Z.max 0 (i + Z.of_nat len) else Z.min i (Z.of_nat len)).

(** [l.insert(i, x)] *)
Definition py_insert (i : Z) (x : A) (l : list A) : list A :=
  let k := clamp (length l) i in take k l ++ x :: drop k l.

(** [l[a:b]] *)
Definition slice (l : list A) (a b : Z) : list A :=
  let lo := clamp (length l) a in
  let hi := clamp (length l) b in
  take (hi - lo) (drop lo l).

(** [l[a:b] = v] *)
Definition slice_assign (l : list A) (a b : Z) (v : list A) : list A :=
  let lo := clamp (length l) a in
  let hi := Nat.max lo (clamp (length l) b) in
  take lo l ++ v ++ drop hi l.

(** [l.sort()] with the elements' [__lt__]: a stable sort.  Any stable
    sort computes the same list; this one inserts from the right. *)
Fixpoint sort_insert (lt : A -> A -> bool) (x : A) (l : list A) : list A :=
  match l with
  | [] => [x]
  | y :: l' => if lt y x then y :: sort_insert lt x l' else x :: y :: l'
  end.

Definition py_sort (lt : A -> A -> bool) (l : list A) : list A :=
  foldr (sort_insert lt) [] l.
End PyList.

(** [list(OrderedDict.fromkeys(l))]: the distinct elements of [l], each at
    its first occurrence. *)
Fixpoint uniq (l : list string) : list string :=
  match l with
  | [] => []
  | x :: l' => x :: filter (fun y => y <> x) (uniq l')
  end.

Definition str_in (x : string) (l : list string) : bool :=
  existsb (String.eqb x) l.

(** ** class Node *)

Record Node : Type := mkNode {
  _name : string;
  _depth : nat;
  _children_by_id : gset string;   (* the keys; each maps to the child with that id *)
  children : list string;
  parent : option string
}.

(** [Node.__init__] *)
Definition Node_init (name : string) : Node :=
  {| _name := name; _depth := 0; _children_by_id := ∅; children := []; parent := None |}.

Global Instance Node_inhabited : Inhabited Node := populate (Node_init "").

Definition set__depth (d : nat) (n : Node) : Node :=
  {| _name := _name n; _depth := d; _children_by_id := _children_by_id n;
     children := children n; parent := parent n |}.

Definition set_parent (p : option string) (n : Node) : Node :=
  {| _name := _name n; _depth := _depth n; _children_by_id := _children_by_id n;
     children := children n; parent := p |}.

Definition set_children (ids : gset string) (l : list string) (n : Node) : Node :=
  {| _name := _name n; _depth := _depth n; _children_by_id := ids;
     children := l; parent := parent n |}.

Section NodeMethods.
(** The heap of [Node] objects.  [h !!! r] is the object the reference
    [r] points to; a reference that is not in the heap reads as a node
    without links, which a well-formed heap never holds (lemmas
    [wf_up_dom] and [wf_desc_dom]). *)
Implicit Types h : gmap string Node.
Implicit Types self node nid : string.

Definition name h self : string := _name (h !!! self).
Definition depth h self : nat := _depth (h !!! self).

(** [__eq__] and [__lt__] compare names only; strings are ordered
    character by character (for UTF-8 bytes, the order of the code
    points). *)
Definition Node_eq h (a b : string) : bool := String.eqb (name h a) (name h b).
Definition Node_lt h (a b : string) : bool := String.ltb (name h a) (name h b).

Definition is_leaf h self : bool :=
  match children (h !!! self) with [] => true | _ => false end.

(** [last_preorder_child]: the loop [while node and node.children]. *)
Fixpoint last_preorder_child (fuel : nat) h node : option string :=
  match fuel with
  | O => None
  | S fuel' =>
      match last (children (h !!! node)) with
      | None => Some node
      | Some c => last_preorder_child fuel' h c
      end
  end.

(** A bound on the number of iterations of every loop over a heap. *)
Definition fuel_of h : nat := S (size h).

(** [preorder_predecessor]; its [while pred.children] loop is the loop
    of [last_preorder_child]. *)
Definition preorder_predecessor h self : outcome (option string) :=
  match parent (h !!! self) with
  | None => Return None
  | Some p =>
      match index_where (Node_eq h self) (children (h !!! p)) with
      | None => Raise ValueError
      | Some O => Return (Some p)
      | Some (S i) =>
          match last_preorder_child (fuel_of h) h (children (h !!! p) !!! i) with
          | Some pred => Return (Some pred)
          | None => Diverge
          end
      end
  end.

(** [set_depth]: [None] when the fuel runs out. *)
Fixpoint set_depth (fuel : nat) h self (new_depth : nat) : option (gmap string Node) :=
  match fuel with
  | O => None
  | S fuel' =>
      let h1 := alter (set__depth new_depth) self h in
      foldl (fun acc child => h' ← acc; set_depth fuel' h' child (new_depth + 1))
            (Some h1) (children (h1 !!! self))
  end.

(** [add_child]; [node] is never null at its two call sites. *)
Definition add_child h self node : option (gmap string Node * bool) :=
  if existsb (Node_eq h node) (children (h !!! self)) then Some (h, false)
  else
    let h1 := alter (fun n => set_children ({[node]} ∪ _children_by_id n)
                                (py_sort (Node_lt h) (children n ++ [node])) n) self h in
    let h2 := alter (set_parent (Some self)) node h1 in
    h3 ← set_depth (fuel_of h) h2 node (depth h2 self + 1);
    Some (h3, true).

(** [remove_child]; the heap returned with [Raise] is the heap at the
    point where [children.remove] raised. *)
Definition remove_child h self nid (force : bool) : gmap string Node * outcome bool :=
  if decide (nid ∈ _children_by_id (h !!! self)) then
    if negb (is_leaf h nid) && negb force then (h, Return false)
    else
      let h1 := alter (fun n => set_children (_children_by_id n ∖ {[nid]}) (children n) n) self h in
      match remove_where (Node_eq h nid) (children (h !!! self)) with
      | None => (h1, Raise ValueError)
      | Some l => (alter (fun n => set_children (_children_by_id n) l n) self h1, Return true)
      end
  else (h, Return false).
End NodeMethods.

(** ** class Storage *)

Record Storage : Type := mkStorage {
  _nodes : gmap string Node;
  _root : option string;
  _preorder : list string
}.

(** [Storage.__init__] *)
Definition Storage_init : Storage :=
  {| _nodes := ∅; _root := None; _preorder := [] |}.

Definition with_nodes (h : gmap string Node) (s : Storage) : Storage :=
  {| _nodes := h; _root := _root s; _preorder := _preorder s |}.

Definition with_preorder (l : list string) (s : Storage) : Storage :=
  {| _nodes := _nodes s; _root := _root s; _preorder := l |}.

(** [self._preorder.index(x)] as a Python integer. *)
Definition index (x : string) (l : list string) : option Z :=
  Z.of_nat <$> index_where (String.eqb x) l.

(** [self._preorder.remove(x)] *)
Definition py_remove (x : string) (l : list string) : option (list string) :=
  remove_where (String.eqb x) l.

(** [Storage.add].  The node argument is [None] or a freshly built
    [Node(nid, name)] (the only kind its caller [add_node] passes); the
    fresh object enters the heap when the method starts to mutate it and
    the original state is returned on the paths that leave it unreferenced.
    The state in the result is the state at the point of return or raise. *)
Definition add (s : Storage) (node : option (string * string)) (parent : option string)
  : Storage * outcome bool :=
  match node with
  | None => (s, Return false)
  | Some (nid, nm) =>
      if decide (nid ∈ dom (_nodes s)) then (s, Return false)
      else if negb (truthy_str parent) then
        if decide (_nodes s = ∅) then
          let h := <[nid := Node_init nm]> (_nodes s) in
          match set_depth (fuel_of h) h nid 0 with
          | None => (s, Diverge)
          | Some h' =>
              ({| _nodes := h'; _root := Some nid; _preorder := _preorder s ++ [nid] |},
               Return true)
          end
        else (s, Return false)
      else
        let p := default "" parent in
        if decide (p ∈ dom (_nodes s)) then
          match add_child (<[nid := Node_init nm]> (_nodes s)) p nid with
          | None => (s, Diverge)
          | Some (_, false) => (s, Return false)
          | Some (h', true) =>
              let s1 := with_nodes h' s in
              match preorder_predecessor h' nid with
              | Return (Some pred) =>
                  match index pred (_preorder s) with
                  | Some i => (with_preorder (py_insert (i + 1) nid (_preorder s)) s1, Return true)
                  | None => (s1, Raise ValueError)
                  end
              | Return None => (s1, Raise AttributeError)
              | Raise e => (s1, Raise e)
              | Diverge => (s1, Diverge)
              end
          end
        else (s, Return false)
  end.

(** [Storage.delete] *)
Definition delete (s : Storage) (nid : string) : Storage * outcome bool :=
  match _nodes s !! nid with
  | None => (s, Return false)
  | Some n =>
      match parent n with
      | Some p =>
          match remove_child (_nodes s) p nid false with
          | (h1, Return true) =>
              let s1 := with_nodes (base.delete nid h1) s in
              match py_remove nid (_preorder s) with
              | Some l => (with_preorder l s1, Return true)
              | None => (s1, Raise ValueError)
              end
          | (h1, Return false) => (with_nodes h1 s, Return false)
          | (h1, Raise e) => (with_nodes h1 s, Raise e)
          | (h1, Diverge) => (with_nodes h1 s, Diverge)
          end
      | None =>
          if decide (size (_nodes s) = 1%nat)
          then ({| _nodes := ∅; _root := _root s; _preorder := [] |}, Return true)
          else (s, Return false)
      end
  end.

(** The ancestor walk of [move]: [while item: ...; item = item.parent].
    [Some true] when [nid] is met, [Some false] when the chain ends. *)
Fixpoint ancestor_walk (fuel : nat) (h : gmap string Node) (item : option string) (nid : string)
  : option bool :=
  match fuel with
  | O => None
  | S fuel' =>
      match item with
      | None => Some false
      | Some i => if String.eqb i nid then Some true
                  else ancestor_walk fuel' h (parent (h !!! i)) nid
      end
  end.

(** The in-place exchange of the adjacent spans [a:b] and [b:c]. *)
Definition swap_spans (l : list string) (a b c : Z) : list string :=
  let span1 := (b - a)%Z in
  let span2 := (c - b)%Z in
  if (span1 <? span2)%Z then
    let tmp := slice l a b in
    let l1 := slice_assign l a (a + span2) (slice l b c) in
    slice_assign l1 (c - span1) c tmp
  else
    let tmp := slice l b c in
    let l1 := slice_assign l (a + span2) c (slice l a b) in
    slice_assign l1 a (a + span2) tmp.

(** The second half of [move], after the re-parenting: the update of the
    cached pre-order list.  [h] is the heap after the re-parenting. *)
Definition resplice (h : gmap string Node) (l : list string) (nid : string)
  : outcome (list string) :=
  do pred <- preorder_predecessor h nid;
  match pred with
  | None => Raise AttributeError
  | Some pred =>
      match index pred l with
      | None => Raise ValueError
      | Some i =>
          let new_preorder_position := (i + 1)%Z in
          if is_leaf h nid then
            match py_remove nid l with
            | None => Raise ValueError
            | Some l1 => Return (py_insert new_preorder_position nid l1)
            end
          else
            match last_preorder_child (fuel_of h) h nid with
            | None => Diverge
            | Some node =>
                match index nid l, index node l with
                | Some range_start, Some e =>
                    let range_size := (e - range_start + 1)%Z in
                    if (new_preorder_position >? range_start + range_size)%Z then
                      Return (swap_spans l range_start (range_start + range_size)
                                         new_preorder_position)
                    else if (new_preorder_position <? range_start)%Z then
                      Return (swap_spans l new_preorder_position range_start
                                         (range_start + range_size))
                    else Raise UnboundLocalError
                | _, _ => Raise ValueError
                end
            end
      end
  end.

(** [Storage.move] *)
Definition move (s : Storage) (nid to : string) : Storage * outcome bool :=
  if decide (nid ∉ dom (_nodes s) ∨ to ∉ dom (_nodes s) ∨ nid = to) then (s, Return false)
  else
    match parent (_nodes s !!! nid) with
    | None => (s, Return false)
    | Some old_parent =>
        if String.eqb old_parent to then (s, Return false)
        else
          match ancestor_walk (fuel_of (_nodes s)) (_nodes s) (parent (_nodes s !!! to)) nid with
          | None => (s, Diverge)
          | Some true => (s, Return false)
          | Some false =>
              match add_child (_nodes s) to nid with
              | None => (s, Diverge)
              | Some (_, false) => (s, Return false)
              | Some (h1, true) =>
                  match remove_child h1 old_parent nid true with
                  | (h2, Return _) =>
                      let s2 := with_nodes h2 s in
                      match resplice h2 (_preorder s) nid with
                      | Return l => (with_preorder l s2, Return true)
                      | Raise e => (s2, Raise e)
                      | Diverge => (s2, Diverge)
                      end
                  | (h2, Raise e) => (with_nodes h2 s, Raise e)
                  | (h2, Diverge) => (with_nodes h2 s, Diverge)
                  end
              end
          end
    end.

(** [[self._nodes[nid] for nid in l if keep(self._nodes[nid])]]: the
    selected references, or KeyError at the first id missing from
    [_nodes]. *)
Fixpoint select (h : gmap string Node) (keep : Node -> bool) (l : list string)
  : outcome (list string) :=
  match l with
  | [] => Return []
  | nid :: l' =>
      match h !! nid with
      | None => Raise KeyError
      | Some n => do r <- select h keep l'; Return (if keep n then nid :: r else r)
      end
  end.

(** [dmin <= n.depth() <= dmax] *)
Definition depth_between (dmin dmax : Z) (n : Node) : bool :=
  (dmin <=? Z.of_nat (_depth n))%Z && (Z.of_nat (_depth n) <=? dmax)%Z.

(** The subtree of one root of a query, filtered by the depth window that
    is relative to that root: the body of [for root in roots].  The list
    [[self._root]] may hold [None]. *)
Definition query_subtree (s : Storage) (min_depth max_depth : Z) (root : option string)
  : outcome (list string) :=
  match root, _root s with
  | Some r, Some the_root =>
      let dmin := (min_depth + Z.of_nat (depth (_nodes s) r))%Z in
      let dmax := (max_depth + Z.of_nat (depth (_nodes s) r))%Z in
      if String.eqb r the_root then
        select (_nodes s) (depth_between dmin dmax) (_preorder s)
      else
        match index r (_preorder s) with
        | None => Raise ValueError
        | Some start =>
            match last_preorder_child (fuel_of (_nodes s)) (_nodes s) r with
            | None => Diverge
            | Some lc =>
                match index lc (_preorder s) with
                | None => Raise ValueError
                | Some e =>
                    select (_nodes s) (depth_between dmin dmax)
                           (slice (_preorder s) start (e + 1))
                end
            end
        end
  | _, _ => Raise AttributeError
  end.

(** [for root in roots: ... result += subtree] *)
Fixpoint query_roots (s : Storage) (min_depth max_depth : Z) (roots : list (option string))
    (result : list string) : outcome (list string) :=
  match roots with
  | [] => Return result
  | root :: rest =>
      do subtree <- query_subtree s min_depth max_depth root;
      query_roots s min_depth max_depth rest (result ++ subtree)
  end.

(** [Storage.query]; the nodes of the result are given by their ids. *)
Definition query (s : Storage) (ids names roots : option (list string))
    (min_depth max_depth : option Z) : outcome (list string) :=
  if decide (_nodes s = ∅) then Return []
  else if truthy_int min_depth && truthy_int max_depth
          && (default 0 max_depth <? default 0 min_depth)%Z then Return []
  else
    let min_depth := if truthy_int min_depth then default 0%Z min_depth else 0%Z in
    let max_depth := if truthy_int max_depth then default 0%Z max_depth
                     else Z.of_nat (length (_preorder s)) in
    let names' := if truthy_list names then uniq (default [] names) else [] in
    if truthy_list ids then
      let ids' := filter (fun nid => str_in nid (uniq (default [] ids)) = true) (_preorder s) in
      do result <- select (_nodes s) (fun _ => true) ids';
      if negb (truthy_list names) then Return result
      else Return (filter (fun i => str_in (name (_nodes s) i) names' = true) result)
    else if truthy_list names then
      select (_nodes s) (fun n => str_in (_name n) names') (_preorder s)
    else
      let roots' :=
        if truthy_list roots
        then Some <$> filter (fun nid => nid ∈ dom (_nodes s)) (uniq (default [] roots))
        else [_root s] in
      query_roots s min_depth max_depth roots' [].

(** ** The request handlers and the request loop *)

(** The parameter object of a request.  A field is [None] when the key is
    absent or null; the fields that are present have the types the
    protocol gives them. *)
Record body : Type := mkBody {
  b_id : option string;
  b_name : option string;
  b_parent_id : option string;
  b_new_parent_id : option string;
  b_ids : option (list string);
  b_names : option (list string);
  b_root_ids : option (list string);
  b_min_depth : option Z;
  b_max_depth : option Z
}.

(** One entry of the ["nodes"] list of a query response. *)
Record node_view : Type := mkView {
  v_id : string;
  v_name : string;
  v_parent_id : string
}.

(** What a handler returns, before [json.dumps] wraps it under ["ok"] or
    ["nodes"]. *)
Inductive response : Type :=
| Ok (b : bool)
| Nodes (l : list node_view).

Definition add_node (stg : Storage) (b : body) : Storage * outcome response :=
  if negb (truthy_str (b_id b)) || negb (truthy_str (b_name b)) then (stg, Return (Ok false))
  else
    let '(stg', r) := add stg (Some (default "" (b_id b), default "" (b_name b))) (b_parent_id b) in
    (stg', do ok <- r; Return (Ok ok)).

Definition delete_node (stg : Storage) (b : body) : Storage * outcome response :=
  if negb (truthy_str (b_id b)) then (stg, Return (Ok false))
  else
    let '(stg', r) := delete stg (default "" (b_id b)) in
    (stg', do ok <- r; Return (Ok ok)).

Definition move_node (stg : Storage) (b : body) : Storage * outcome response :=
  if negb (truthy_str (b_id b)) || negb (truthy_str (b_new_parent_id b))
  then (stg, Return (Ok false))
  else
    let '(stg', r) := move stg (default "" (b_id b)) (default "" (b_new_parent_id b)) in
    (stg', do ok <- r; Return (Ok ok)).

Definition view (h : gmap string Node) (n : string) : node_view :=
  {| v_id := n; v_name := name h n; v_parent_id := default "" (parent (h !!! n)) |}.

Definition query_handler (stg : Storage) (b : body) : Storage * outcome response :=
  (stg, do nodes <- query stg (b_ids b) (b_names b) (b_root_ids b) (b_min_depth b) (b_max_depth b);
        Return (Nodes (view (_nodes stg) <$> nodes))).

(** One line of input after [json.load]: the parse failed, or it gave a
    value that is not an object, or an object, listed as its keys with
    their values in [keys()] order. *)
Inductive line : Type :=
| Unparsable
| NotAnObject
| Object (req : list (string * body)).

(** The names bound at module level that are not request handlers:
    modules, classes, [main] and the module attributes.  Calling any of
    them with [(stg, body)], or serialising what it returns, raises
    TypeError. *)
Definition other_globals : list string :=
  ["sys"; "json"; "traceback"; "OrderedDict"; "StringIO"; "Node"; "Storage"; "main";
   "__name__"; "__doc__"; "__builtins__"; "__file__"; "__package__"].

(** [globals()[func](stg, req[func])] *)
Definition dispatch (func : string) (stg : Storage) (b : body) : Storage * outcome response :=
  if String.eqb func "add_node" then add_node stg b
  else if String.eqb func "delete_node" then delete_node stg b
  else if String.eqb func "move_node" then move_node stg b
  else if String.eqb func "query" then query_handler stg b
  else if str_in func other_globals then (stg, Raise TypeError)
  else (stg, Raise KeyError).

(** The body of the loop of [main] for one line that was read.
    [Return None] is [continue] (the line was reported and skipped),
    [Return (Some r)] is a response written to the output, and [Raise] is
    an exception that nothing catches, which ends the process. *)
Definition process_line (stg : Storage) (l : line) : Storage * outcome (option response) :=
  match l with
  | Unparsable => (stg, Return None)
  | NotAnObject => (stg, Raise AttributeError)
  | Object [] => (stg, Return None)
  | Object [(func, b)] =>
      let '(stg', r) := dispatch func stg b in (stg', do x <- r; Return (Some x))
  | Object (_ :: _ :: _) => (stg, Return None)
  end.

(** How the process ends. *)
Inductive exit : Type :=
| EndOfInput
| Uncaught (e : exn)
| Hang.

(** [main] on the lines of its input: the responses written and how the
    process ended. *)
Fixpoint main_loop (stg : Storage) (lines : list line) : list response * exit :=
  match lines with
  | [] => ([], EndOfInput)
  | l :: rest =>
      match process_line stg l with
      | (stg', Return out) =>
          let '(outs, e) := main_loop stg' rest in (option_list out ++ outs, e)
      | (_, Raise e) => ([], Uncaught e)
      | (_, Diverge) => ([], Hang)
      end
  end.

Definition main (lines : list line) : list response * exit := main_loop Storage_init lines.

(** * Invariants and the vocabulary of the specification *)

(** [child h p c]: [c] is in the [children] list of [p];
    [up h x p]: the [parent] field of [x] is [p];
    [desc h x y]: [y] is [x] or is reached from [x] through [children]. *)
Definition child (h : gmap string Node) (p c : string) : Prop := c ∈ children (h !!! p).
Definition up (h : gmap string Node) (x p : string) : Prop := parent (h !!! x) = Some p.
Definition desc (h : gmap string Node) : string -> string -> Prop := rtc (child h).

(** Two heaps with the same nodes and the same links, names included;
    only the cached depths may differ. *)
Definition same_links (h h' : gmap string Node) : Prop :=
  dom h' = dom h ∧
  ∀ y, parent (h' !!! y) = parent (h !!! y) ∧ children (h' !!! y) = children (h !!! y)
       ∧ _children_by_id (h' !!! y) = _children_by_id (h !!! y)
       ∧ _name (h' !!! y) = _name (h !!! y).

(** The link invariant, stated on the four fields read through the heap:
    the [parent] field and the [children] lists agree, sibling names are
    distinct, and [_children_by_id] holds the ids of [children]. *)
Record links (par : string -> option string) (ch : string -> list string)
    (ids : string -> gset string) (nm : string -> string) : Prop := mkLinks {
  links_up : ∀ x p, par x = Some p -> x ∈ ch p;
  links_child : ∀ p c, c ∈ ch p -> par c = Some p;
  links_names : ∀ p, NoDup (nm <$> ch p);
  links_by_id : ∀ p c, c ∈ ids p <-> c ∈ ch p
}.

(** The link invariant of a heap. *)
Definition wf_shape (h : gmap string Node) : Prop :=
  links (fun x => parent (h !!! x)) (fun x => children (h !!! x))
        (fun x => _children_by_id (h !!! x)) (name h).

(** The cached depth of a node is one more than its parent's, and 0
    without a parent. *)
Definition wf_depth (h : gmap string Node) : Prop :=
  ∀ x, depth h x = match parent (h !!! x) with Some p => S (depth h p) | None => 0 end.

(** A well-formed heap: a forest with consistent links and depths. *)
Definition wf_heap (h : gmap string Node) : Prop := wf_shape h ∧ wf_depth h.

(** No node is its own proper ancestor. *)
Definition acyclic (h : gmap string Node) : Prop := ∀ x, ¬ tc (up h) x x.

(** What a successful [add_child h self node] leaves in [h']. *)
Definition attached (h : gmap string Node) (self node : string) (h' : gmap string Node) : Prop :=
  dom h' = dom h
  ∧ (name h node ∉ name h <$> children (h !!! self))
  ∧ (∀ x, parent (h' !!! x) = if decide (x = node) then Some self else parent (h !!! x))
  ∧ (∀ x, children (h' !!! x) =
          if decide (x = self) then py_sort (Node_lt h) (children (h !!! self) ++ [node])
          else children (h !!! x))
  ∧ (∀ x, _children_by_id (h' !!! x) =
          if decide (x = self) then {[node]} ∪ _children_by_id (h !!! self)
          else _children_by_id (h !!! x))
  ∧ (∀ x, _name (h' !!! x) = _name (h !!! x))
  ∧ (∀ y, desc h node y -> depth h' y + depth h node = S (depth h self) + depth h y)
  ∧ (∀ y, depth h' y = depth h y ∨ desc h node y).

(** What a successful [remove_child h self nid force] leaves in [h']. *)
Definition detached (h : gmap string Node) (self nid : string) (h' : gmap string Node) : Prop :=
  dom h' = dom h
  ∧ (∃ l', children (h !!! self) ≡ₚ nid :: l'
           ∧ ∀ x, children (h' !!! x) = if decide (x = self) then l' else children (h !!! x))
  ∧ (∀ x, _children_by_id (h' !!! x) =
          if decide (x = self) then _children_by_id (h !!! self) ∖ {[nid]}
          else _children_by_id (h !!! x))
  ∧ (∀ x, parent (h' !!! x) = parent (h !!! x))
  ∧ (∀ x, _name (h' !!! x) = _name (h !!! x))
  ∧ (∀ x, depth h' x = depth h x).

(** A well-formed store: its heap is well formed, its only node without
    a parent is the one [_root] names, and the pre-order list of a store
    without nodes is empty. *)
Record wf (s : Storage) : Prop := mkWf {
  wf_nodes : wf_heap (_nodes s);
  (* a node without a parent is the root *)
  wf_single : ∀ x, x ∈ dom (_nodes s) -> parent (_nodes s !!! x) = None -> _root s = Some x;
  (* a store that is not empty has its root *)
  wf_root : _nodes s ≠ ∅ ->
            ∃ r, _root s = Some r ∧ r ∈ dom (_nodes s) ∧ parent (_nodes s !!! r) = None;
  wf_empty : _nodes s = ∅ -> _preorder s = []
}.

(** The stores the request loop can hold: those reached from the empty
    store by calls of [add], [delete] and [move] that returned. *)
Inductive reachable : Storage -> Prop :=
| reach_init : reachable Storage_init
| reach_add s node parent s' b :
    reachable s -> add s node parent = (s', Return b) -> reachable s'
| reach_delete s nid s' b :
    reachable s -> delete s nid = (s', Return b) -> reachable s'
| reach_move s nid to s' b :
    reachable s -> move s nid to = (s', Return b) -> reachable s'.

(** What the re-parenting step of a [move] that passed its checks did. *)
Definition reparented (s : Storage) (nid to : string) (h2 : gmap string Node) : Prop :=
  ∃ h1 op,
    nid ∈ dom (_nodes s) ∧ to ∈ dom (_nodes s) ∧ nid ≠ to
    ∧ parent (_nodes s !!! nid) = Some op ∧ op ≠ to
    ∧ ¬ desc (_nodes s) nid to
    ∧ attached (_nodes s) to nid h1 ∧ detached h1 op nid h2 ∧ wf_heap h2.

(** The store after its last node was deleted. *)
Definition cleared (s : Storage) : Storage :=
  {| _nodes := ∅; _root := _root s; _preorder := [] |}.

(** The store after [add] of a new node. *)
Definition add_to (s : Storage) (nid nm : string) (parent : option string) : Storage :=
  fst (add s (Some (nid, nm)) parent).

(** A single node. *)
Definition store_root : Storage := add_to Storage_init "1" "root" None.

(** A root with the leaves [a], [b] and [c]. *)
Definition store_leaves : Storage :=
  add_to (add_to (add_to store_root "a" "a" (Some "1")) "b" "b" (Some "1")) "c" "c" (Some "1").

(** A root with the leaf [a] and the node [b], which has the child [c]. *)
Definition store_chain : Storage :=
  add_to (add_to (add_to store_root "a" "a" (Some "1")) "b" "b" (Some "1")) "c" "c" (Some "b").

(** The depth bounds on which [query] returns at once: both are given,
    neither is 0, and the maximum is below the minimum. *)
Definition inverted (min_depth max_depth : option Z) : bool :=
  truthy_int min_depth && truthy_int max_depth
  && (default 0 max_depth <? default 0 min_depth)%Z.

(** The ids of the cached list that are among [ids], in the order of the
    list; when names are given, those of them whose node has one of the
    names. *)
Definition ids_result (s : Storage) (ids names : option (list string)) : list string :=
  let r := filter (fun nid => str_in nid (uniq (default [] ids)) = true) (_preorder s) in
  if truthy_list names
  then filter (fun i => str_in (name (_nodes s) i) (uniq (default [] names)) = true) r
  else r.

(** A single-rooted tree: climbing the [parent] fields never comes back
    to where it started, every parent is a node of the store, and at most
    one node has no parent. *)
Definition single_rooted_tree (s : Storage) : Prop :=
  acyclic (_nodes s)
  ∧ (∀ x p, up (_nodes s) x p -> p ∈ dom (_nodes s))
  ∧ (∀ x y, x ∈ dom (_nodes s) -> y ∈ dom (_nodes s) ->
            parent (_nodes s !!! x) = None -> parent (_nodes s !!! y) = None -> x = y).

(** The pre-order listing of a subtree by a full recursive walk: a node,
    then the listings of its children in the order of [children]. *)
Fixpoint preorder_walk (fuel : nat) (h : gmap string Node) (x : string) : list string :=
  match fuel with
  | O => []
  | S fuel' => x :: flat_map (preorder_walk fuel' h) (children (h !!! x))
  end.

(** The pre-order listing of the tree of a store. *)
Definition tree_preorder (s : Storage) : list string :=
  if decide (_nodes s = ∅) then []
  else match _root s with
       | Some r => preorder_walk (fuel_of (_nodes s)) (_nodes s) r
       | None => []
       end.

(** Request lines. *)
Definition no_params : body :=
  {| b_id := None; b_name := None; b_parent_id := None; b_new_parent_id := None;
     b_ids := None; b_names := None; b_root_ids := None;
     b_min_depth := None; b_max_depth := None |}.

Definition add_request (nid nm : string) (par : option string) : line :=
  Object [("add_node", {| b_id := Some nid; b_name := Some nm; b_parent_id := par;
                          b_new_parent_id := None; b_ids := None; b_names := None;
                          b_root_ids := None; b_min_depth := None; b_max_depth := None |})].

Definition move_request (nid to : string) : line :=
  Object [("move_node", {| b_id := Some nid; b_name := None; b_parent_id := None;
                           b_new_parent_id := Some to; b_ids := None; b_names := None;
                           b_root_ids := None; b_min_depth := None; b_max_depth := None |})].

(** The children of every node are in strictly ascending order of name. *)
Definition sorted_children (h : gmap string Node) : Prop :=
  ∀ p, StronglySorted (fun a b => Node_lt h a b = true) (children (h !!! p)).

(** The root [1] with the children [2], named [b], and [3], named [a],
    added in this order. *)
Definition store_ba : Storage :=
  add_to (add_to store_root "2" "b" (Some "1")) "3" "a" (Some "1").

(** The depth window of a query over the whole tree: the bounds given,
    or 0 and the length of the cached list. *)
Definition window_min (min_depth : option Z) : Z :=
  if truthy_int min_depth then default 0%Z min_depth else 0%Z.

Definition window_max (s : Storage) (max_depth : option Z) : Z :=
  if truthy_int max_depth then default 0%Z max_depth else Z.of_nat (length (_preorder s)).

(** The store [store_chain] with one more leaf [d] under the root. *)
Definition store_wide : Storage := add_to store_chain "d" "d" (Some "1").

(** The root [1] with the leaves [a] and [c] and the node [b], which has
    the child [b1], after [move a b]: [a] is the first child of [b]. *)
Definition store_moved : Storage :=
  fst (move (add_to store_leaves "b1" "b1" (Some "b")) "a" "b").

Definition roots_request (roots : list string) : line :=
  Object [("query", {| b_id := None; b_name := None; b_parent_id := None;
                       b_new_parent_id := None; b_ids := None; b_names := None;
                       b_root_ids := Some roots; b_min_depth := None; b_max_depth := None |})].

(** The lines the loop reports and skips: those that do not parse and
    the objects that do not have exactly one key. *)
Definition skipped (l : line) : bool :=
  match l with
  | Unparsable => true
  | NotAnObject => false
  | Object [] => true
  | Object [_] => false
  | Object (_ :: _ :: _) => true
  end.

(** The store the loop holds after the lines [lines], when it got
    through all of them; [None] when one of them ended the process. *)
Fixpoint store_after (stg : Storage) (lines : list line) : option Storage :=
  match lines with
  | [] => Some stg
  | l :: rest =>
      match process_line stg l with
      | (stg', Return _) => store_after stg' rest
      | (_, Raise _) => None
      | (_, Diverge) => None
      end
  end.

(** * Properties *)

Close Scope string_scope.

(** ** The list operations *)

Section PyListFacts.
Context {A : Type}.
Implicit Types l : list A.

Lemma sort_insert_perm (lt : A -> A -> bool) x l : sort_insert lt x l ≡ₚ x :: l.
Proof.
  induction l as [|y l IH]; simpl; [done|].
  destruct (lt y x); [|done].
  rewrite IH. apply Permutation_swap.
Qed.

Lemma py_sort_perm (lt : A -> A -> bool) l : py_sort lt l ≡ₚ l.
Proof.
  induction l as [|x l IH]; simpl; [done|].
  unfold py_sort in *. simpl. rewrite sort_insert_perm. by rewrite IH.
Qed.

Lemma remove_where_split (eqx : A -> bool) l l' :
  remove_where eqx l = Some l' ->
  ∃ l1 y l2, l = l1 ++ y :: l2 ∧ l' = l1 ++ l2 ∧ eqx y = true
             ∧ Forall (fun z => eqx z = false) l1.
Proof.
  revert l'. induction l as [|z l IH]; intros l' H; simpl in H; [done|].
  destruct (eqx z) eqn:Hz.
  - inversion H; subst. exists [], z, l'. by repeat split.
  - destruct (remove_where eqx l) as [r|] eqn:Hr; simpl in H; [|done].
    inversion H; subst.
    destruct (IH r eq_refl) as (l1 & y & l2 & -> & -> & Hy & Hl1).
    exists (z :: l1), y, l2. repeat split; auto.
Qed.

Lemma remove_where_is_Some (eqx : A -> bool) l y :
  y ∈ l -> eqx y = true -> is_Some (remove_where eqx l).
Proof.
  induction l as [|z l IH]; intros Hin Hy; [by apply elem_of_nil in Hin|].
  simpl. destruct (eqx z) eqn:Hz; [eauto|].
  apply elem_of_cons in Hin as [->|Hin]; [congruence|].
  destruct (IH Hin Hy) as [r ->]. simpl. eauto.
Qed.

Lemma index_where_is_Some (eqx : A -> bool) l y :
  y ∈ l -> eqx y = true -> is_Some (index_where eqx l).
Proof.
  induction l as [|z l IH]; intros Hin Hy; [by apply elem_of_nil in Hin|].
  simpl. destruct (eqx z) eqn:Hz; [eauto|].
  apply elem_of_cons in Hin as [->|Hin]; [congruence|].
  destruct (IH Hin Hy) as [r ->]. simpl. eauto.
Qed.

Lemma index_where_lt (eqx : A -> bool) l i :
  index_where eqx l = Some i -> (i < length l)%nat.
Proof.
  revert i. induction l as [|z l IH]; intros i H; simpl in H; [done|].
  destruct (eqx z).
  - inversion H. simpl. lia.
  - destruct (index_where eqx l) as [j|]; simpl in H; [|done].
    inversion H. specialize (IH j eq_refl). simpl. lia.
Qed.

(** An option-valued left fold that succeeds at every step succeeds,
    and an invariant indexed by the processed prefix holds at its end. *)
Lemma foldl_option_inv {B} (F : B -> A -> option B) (I : list A -> B -> Prop) l2 :
  ∀ l1 b,
    I l1 b ->
    (∀ l1' a b0, a ∈ l2 -> I l1' b0 -> ∃ b', F b0 a = Some b' ∧ I (l1' ++ [a]) b') ->
    ∃ b', foldl (fun acc a => x ← acc; F x a) (Some b) l2 = Some b' ∧ I (l1 ++ l2) b'.
Proof.
  induction l2 as [|a l2 IH]; intros l1 b Hb Hstep; simpl.
  - exists b. by rewrite app_nil_r.
  - destruct (Hstep l1 a b) as (b' & Hb' & HI); [left|done|].
    rewrite Hb'.
    destruct (IH (l1 ++ [a]) b' HI) as (b'' & ? & ?).
    { intros ? ? ? Hin. apply Hstep. by right. }
    exists b''. by rewrite <- app_assoc in *.
Qed.

Lemma foldl_option_None {B} (F : B -> A -> option B) l :
  foldl (fun acc a => x ← acc; F x a) None l = None.
Proof. induction l; simpl; auto. Qed.

(** The converse direction: a fold that succeeded kept an invariant
    that every successful step keeps. *)
Lemma foldl_option_Some {B} (F : B -> A -> option B) (I : B -> Prop) l :
  ∀ b b',
    I b ->
    (∀ a b0 b1, a ∈ l -> I b0 -> F b0 a = Some b1 -> I b1) ->
    foldl (fun acc a => x ← acc; F x a) (Some b) l = Some b' -> I b'.
Proof.
  induction l as [|a l IH]; intros b b' Hb Hstep H; simpl in H.
  - by inversion H; subst.
  - destruct (F b a) as [b1|] eqn:HF; simpl in H.
    + eapply (IH b1 b'); eauto.
      * eapply Hstep; eauto. left.
      * intros ? ? ? Hin. apply Hstep. by right.
    + by rewrite foldl_option_None in H.
Qed.
End PyListFacts.

(** ** Reading fields through the heap *)

Section HeapFacts.
Implicit Types h : gmap string Node.

Lemma total_lookup_Some h x n : h !! x = Some n -> h !!! x = n.
Proof. apply lookup_total_correct. Qed.

Lemma total_lookup_None h x : h !! x = None -> h !!! x = Node_init ""%string.
Proof. intros H. by rewrite lookup_total_alt, H. Qed.

Lemma total_alter_eq (f : Node -> Node) h x :
  x ∈ dom h -> alter f x h !!! x = f (h !!! x).
Proof.
  intros [n Hn]%elem_of_dom.
  rewrite lookup_total_alter_eq, Hn. simpl. by rewrite (total_lookup_Some _ _ _ Hn).
Qed.

Lemma total_alter_ne (f : Node -> Node) h x y : x ≠ y -> alter f x h !!! y = h !!! y.
Proof. apply lookup_total_alter_ne. Qed.

(** A field that [f] does not touch reads the same after [alter f]. *)
Lemma total_alter_field {X} (g : Node -> X) (f : Node -> Node) h x y :
  (∀ n, g (f n) = g n) -> g (alter f x h !!! y) = g (h !!! y).
Proof.
  intros Hg. destruct (decide (x = y)) as [->|Hne]; [|by rewrite total_alter_ne].
  rewrite !lookup_total_alt, lookup_alter_eq. destruct (h !! y); simpl; auto.
Qed.

Lemma parent_Some_dom h x p : parent (h !!! x) = Some p -> x ∈ dom h.
Proof.
  intros H. apply elem_of_dom. destruct (h !! x) eqn:E; [eauto|].
  by rewrite (total_lookup_None _ _ E) in H.
Qed.

Lemma children_elem_dom h p c : c ∈ children (h !!! p) -> p ∈ dom h.
Proof.
  intros H. apply elem_of_dom. destruct (h !! p) eqn:E; [eauto|].
  rewrite (total_lookup_None _ _ E) in H. by apply elem_of_nil in H.
Qed.
End HeapFacts.

(** ** The tree relations *)

Lemma same_links_refl h : same_links h h.
Proof. split; [done|]. by intros y. Qed.

Lemma same_links_trans h1 h2 h3 : same_links h1 h2 -> same_links h2 h3 -> same_links h1 h3.
Proof.
  intros [D1 F1] [D2 F2]. split; [congruence|].
  intros y. destruct (F1 y) as (?&?&?&?), (F2 y) as (?&?&?&?). repeat split; congruence.
Qed.

Lemma same_links_alter_depth h d x : same_links h (alter (set__depth d) x h).
Proof.
  split; [apply dom_alter_L|].
  intros y. repeat split; by apply total_alter_field.
Qed.

Lemma same_links_child h h' p c : same_links h h' -> child h' p c <-> child h p c.
Proof. intros [_ F]. unfold child. destruct (F p) as (_ & -> & _). done. Qed.

Lemma depth_alter_eq h d x : x ∈ dom h -> depth (alter (set__depth d) x h) x = d.
Proof. intros Hx. unfold depth. by rewrite total_alter_eq. Qed.

Lemma depth_alter_ne h d x y : x ≠ y -> depth (alter (set__depth d) x h) y = depth h y.
Proof. intros Hne. unfold depth. by rewrite total_alter_ne. Qed.

(** ** [set_depth] *)

(** [set_depth] changes no link. *)
Lemma set_depth_links fuel : ∀ h x d h', set_depth fuel h x d = Some h' -> same_links h h'.
Proof.
  induction fuel as [|fuel IH]; intros h x d h' H; simpl in H; [done|].
  eapply (foldl_option_Some _ (same_links h)); [| |exact H].
  - apply same_links_alter_depth.
  - intros c b0 b1 _ Hb0 Hstep. eapply same_links_trans; [exact Hb0|]. eapply IH, Hstep.
Qed.

(** [set_depth] on a subtree whose nodes are ranked by [rk] (each child
    one above its parent): with fuel above the height of the subtree it
    returns, every node of the subtree gets the new depth of the subtree's
    root plus its rank distance to it, and no other depth changes. *)
Lemma set_depth_spec (h0 : gmap string Node) (rk : string -> nat) (x0 : string) :
  (∀ p c, desc h0 x0 p -> child h0 p c -> rk c = S (rk p)) ->
  (∀ y, desc h0 x0 y -> y ∈ dom h0) ->
  ∀ fuel h x d,
    same_links h0 h -> desc h0 x0 x ->
    (∀ y, desc h0 x y -> rk y < rk x + fuel) ->
    ∃ h', set_depth fuel h x d = Some h' ∧ same_links h0 h'
          ∧ (∀ y, desc h0 x y -> depth h' y + rk x = d + rk y)
          ∧ (∀ y, depth h' y = depth h y ∨ desc h0 x y).
Proof.
  intros Hrk Hdom. induction fuel as [|fuel IH]; intros h x d Hl Hx Hfuel.
  { specialize (Hfuel x (rtc_refl _ _)). lia. }
  simpl. set (h1 := alter (set__depth d) x h).
  assert (Hl1 : same_links h0 h1).
  { eapply same_links_trans; [exact Hl|apply same_links_alter_depth]. }
  assert (Hch : children (h1 !!! x) = children (h0 !!! x)) by (destruct Hl1 as [_ F]; apply F).
  rewrite Hch.
  set (I := fun (l1 : list string) (hc : gmap string Node) =>
              same_links h0 hc
              ∧ (∀ y, (y = x ∨ ∃ c, c ∈ l1 ∧ desc h0 c y) -> depth hc y + rk x = d + rk y)
              ∧ (∀ y, depth hc y = depth h y ∨ y = x ∨ ∃ c, c ∈ l1 ∧ desc h0 c y)).
  destruct (foldl_option_inv (fun hc c => set_depth fuel hc c (d + 1)) I
              (children (h0 !!! x)) [] h1) as (h' & Hh' & HI').
  - refine (conj Hl1 (conj _ _)).
    + intros y [->|(c & Hc & _)]; [|by apply elem_of_nil in Hc].
      unfold h1. rewrite depth_alter_eq; [lia|].
      destruct Hl as [-> _]. by apply Hdom.
    + intros y. destruct (decide (x = y)) as [->|Hne]; [auto|].
      left. unfold h1. by rewrite depth_alter_ne.
  - intros l1 c hc Hc (Hlc & Hform & Hchg).
    assert (Hxc : child h0 x c) by exact Hc.
    assert (Hrc : rk c = S (rk x)) by (by apply Hrk).
    destruct (IH hc c (d + 1)) as (h2 & Hh2 & Hl2 & Hform2 & Hchg2); [done| | |].
    { eapply rtc_r; eauto. }
    { intros y Hy. assert (rk y < rk x + S fuel); [|lia].
      apply Hfuel. eapply rtc_l; eauto. }
    exists h2. split; [done|]. split; [done|]. split.
    + intros y Hy.
      destruct (Hchg2 y) as [Heq|Hd]; [|specialize (Hform2 y Hd); lia].
      destruct Hy as [->|(c' & Hc' & Hd)].
      * rewrite Heq. apply Hform. by left.
      * apply elem_of_app in Hc' as [Hc'|Hc'].
        -- rewrite Heq. apply Hform. right. eauto.
        -- apply list_elem_of_singleton in Hc'. subst c'. specialize (Hform2 y Hd). lia.
    + intros y. destruct (Hchg2 y) as [Heq|Hd].
      * rewrite Heq. destruct (Hchg y) as [?|[?|(c' & ? & ?)]]; auto.
        right; right. exists c'. split; [apply elem_of_app; auto|done].
      * right; right. exists c. split; [apply elem_of_app; right; by apply list_elem_of_singleton|done].
  - exists h'. split; [exact Hh'|]. simpl in HI'. destruct HI' as (Hl' & Hform & Hchg).
    split; [done|]. split.
    + intros y Hy. apply Hform.
      apply rtc_inv in Hy as [->|(c & Hc & Hd)]; [by left|]. right. eauto.
    + intros y. destruct (Hchg y) as [?|[->|(c & Hc & Hd)]]; auto.
      * right. apply rtc_refl.
      * right. eapply rtc_l; eauto.
Qed.

(** On a leaf the recursion has nothing to visit. *)
Lemma set_depth_leaf fuel h x d :
  children (h !!! x) = [] -> set_depth (S fuel) h x d = Some (alter (set__depth d) x h).
Proof.
  intros H. simpl.
  replace (children (alter (set__depth d) x h !!! x)) with (@nil string); [done|].
  rewrite <- H. symmetry. by apply total_alter_field.
Qed.

(** ** The shape of the tree *)

Section Links.
Variables (par par' : string -> option string) (ch ch' : string -> list string).
Variables (ids ids' : string -> gset string) (nm : string -> string).
Hypothesis L : links par ch ids nm.

Lemma links_NoDup p : NoDup (ch p).
Proof. eapply NoDup_fmap_1, (links_names _ _ _ _ L). Qed.

(** Taking [nid] out of the list of its parent. *)
Lemma removed_elem op nid c : ch op ≡ₚ nid :: ch' op -> c ∈ ch' op <-> c ∈ ch op ∧ c ≠ nid.
Proof.
  intros Hp. pose proof (links_NoDup op) as Hnd. rewrite Hp in Hnd.
  apply NoDup_cons in Hnd as [Hnot _]. split.
  - intros Hc. split; [rewrite Hp; by right|]. by intros ->.
  - intros [Hc Hne]. rewrite Hp in Hc. apply elem_of_cons in Hc as [?|?]; done.
Qed.

(** Re-parenting [nid] under [to]: [nid] joins the children of [to]
    and leaves those of its old parent, when it had one. *)
Lemma links_reparent nid to :
  nid ≠ to -> par nid ≠ Some to -> nm nid ∉ (nm <$> ch to) ->
  (∀ x, par' x = if decide (x = nid) then Some to else par x) ->
  ch' to ≡ₚ ch to ++ [nid] ->
  (∀ op, par nid = Some op -> ch op ≡ₚ nid :: ch' op) ->
  (∀ x, x ≠ to -> par nid ≠ Some x -> ch' x = ch x) ->
  ids' to = {[nid]} ∪ ids to ->
  (∀ op, par nid = Some op -> ids' op = ids op ∖ {[nid]}) ->
  (∀ x, x ≠ to -> par nid ≠ Some x -> ids' x = ids x) ->
  links par' ch' ids' nm.
Proof.
  intros Hne Hold Hfresh Hpar Hto Hop Hch Hito Hiop Hids.
  assert (M1 : ∀ c, c ∈ ch' to <-> c ∈ ch to ∨ c = nid).
  { intros c. rewrite Hto, elem_of_app, list_elem_of_singleton. done. }
  assert (Hnot : nid ∉ ch to).
  { intros Hin. apply Hold. by apply (links_child _ _ _ _ L). }
  split.
  - intros x p. rewrite Hpar. destruct (decide (x = nid)) as [->|Hx].
    + intros [= <-]. apply M1. by right.
    + intros Hp. pose proof (links_up _ _ _ _ L _ _ Hp) as Hin.
      destruct (decide (p = to)) as [->|Hpt]; [apply M1; by left|].
      destruct (decide (par nid = Some p)) as [Ho|Ho].
      * by apply (removed_elem p nid x (Hop p Ho)).
      * by rewrite Hch.
  - intros p c Hc. rewrite Hpar. destruct (decide (p = to)) as [->|Hpt].
    + apply M1 in Hc as [Hc| ->].
      * destruct (decide (c = nid)) as [->|_]; [done|]. by apply (links_child _ _ _ _ L).
      * by rewrite decide_True.
    + destruct (decide (par nid = Some p)) as [Ho|Ho].
      * apply (removed_elem p nid c (Hop p Ho)) in Hc as [Hc Hcn].
        rewrite decide_False by done. by apply (links_child _ _ _ _ L).
      * rewrite Hch in Hc by done.
        destruct (decide (c = nid)) as [->|_]; [|by apply (links_child _ _ _ _ L)].
        destruct Ho. by apply (links_child _ _ _ _ L).
  - intros p. destruct (decide (p = to)) as [->|Hpt].
    + rewrite Hto, fmap_app. simpl. apply NoDup_app. split; [apply (links_names _ _ _ _ L)|].
      split; [|apply NoDup_singleton].
      intros y Hy Hy'. apply list_elem_of_singleton in Hy'. by subst y.
    + destruct (decide (par nid = Some p)) as [Ho|Ho].
      * pose proof (links_names _ _ _ _ L p) as Hnd. rewrite (Hop p Ho) in Hnd.
        simpl in Hnd. by apply NoDup_cons in Hnd as [_ ?].
      * rewrite Hch by done. apply (links_names _ _ _ _ L).
  - intros p c. destruct (decide (p = to)) as [->|Hpt].
    + rewrite Hito, M1, elem_of_union, elem_of_singleton, (links_by_id _ _ _ _ L). tauto.
    + destruct (decide (par nid = Some p)) as [Ho|Ho].
      * rewrite (Hiop p Ho), (removed_elem p nid c (Hop p Ho)), elem_of_difference,
          elem_of_singleton, (links_by_id _ _ _ _ L). tauto.
      * rewrite Hids, Hch by done. apply (links_by_id _ _ _ _ L).
Qed.

(** Dropping the leaf [nid], whose parent is [op]. *)
Lemma links_drop_leaf (nm' : string -> string) nid op :
  par nid = Some op -> ch nid = [] ->
  (∀ x, par' x = if decide (x = nid) then None else par x) ->
  ch' nid = [] -> ch op ≡ₚ nid :: ch' op ->
  (∀ x, x ≠ nid -> x ≠ op -> ch' x = ch x) ->
  ids' nid = ∅ -> ids' op = ids op ∖ {[nid]} ->
  (∀ x, x ≠ nid -> x ≠ op -> ids' x = ids x) ->
  (∀ x, x ≠ nid -> nm' x = nm x) ->
  links par' ch' ids' nm'.
Proof.
  intros Hpn Hleaf Hpar Hcn Hop Hch Hin Hiop Hids Hnm.
  assert (Hne : op ≠ nid).
  { intros ->. pose proof (links_up _ _ _ _ L _ _ Hpn) as Hc. rewrite Hleaf in Hc.
    by apply elem_of_nil in Hc. }
  assert (Hnot : ∀ p, nid ∉ ch' p).
  { intros p Hc. destruct (decide (p = nid)) as [->|Hp].
    { rewrite Hcn in Hc. by apply elem_of_nil in Hc. }
    destruct (decide (p = op)) as [->|Hpo].
    - by apply (removed_elem op nid nid Hop) in Hc as [_ ?].
    - rewrite Hch in Hc by done. apply Hpo.
      pose proof (links_child _ _ _ _ L _ _ Hc). congruence. }
  assert (Hsub : ∀ p c, c ∈ ch' p -> c ∈ ch p ∧ c ≠ nid).
  { intros p c Hc. split; [|intros ->; by apply (Hnot p)].
    destruct (decide (p = nid)) as [->|Hp].
    { rewrite Hcn in Hc. by apply elem_of_nil in Hc. }
    destruct (decide (p = op)) as [->|Hpo].
    - by apply (removed_elem op nid c Hop) in Hc as [? _].
    - by rewrite Hch in Hc. }
  split.
  - intros x p. rewrite Hpar. destruct (decide (x = nid)) as [->|Hx]; [done|].
    intros Hp. pose proof (links_up _ _ _ _ L _ _ Hp) as Hc.
    destruct (decide (p = nid)) as [->|Hpn'].
    { rewrite Hleaf in Hc. by apply elem_of_nil in Hc. }
    destruct (decide (p = op)) as [->|Hpo].
    + by apply (removed_elem op nid x Hop).
    + by rewrite Hch.
  - intros p c Hc. apply Hsub in Hc as [Hc Hcn']. rewrite Hpar, decide_False by done.
    by apply (links_child _ _ _ _ L).
  - intros p.
    assert (Heq : nm' <$> ch' p = nm <$> ch' p).
    { apply list_fmap_ext. intros i x Hx. apply Hnm. intros ->.
      apply (Hnot p). eapply list_elem_of_lookup_2, Hx. }
    rewrite Heq. destruct (decide (p = nid)) as [->|Hp].
    { rewrite Hcn. apply NoDup_nil_2. }
    destruct (decide (p = op)) as [->|Hpo].
    + pose proof (links_names _ _ _ _ L op) as Hnd. rewrite Hop in Hnd.
      simpl in Hnd. by apply NoDup_cons in Hnd as [_ ?].
    + rewrite Hch by done. apply (links_names _ _ _ _ L).
  - intros p c. destruct (decide (p = nid)) as [->|Hp].
    { rewrite Hin, Hcn. split; intros H; [by apply elem_of_empty in H|by apply elem_of_nil in H]. }
    destruct (decide (p = op)) as [->|Hpo].
    + rewrite Hiop, (removed_elem op nid c Hop), elem_of_difference, elem_of_singleton,
        (links_by_id _ _ _ _ L). tauto.
    + rewrite Hids, Hch by done. apply (links_by_id _ _ _ _ L).
Qed.
End Links.

(** ** Well-formed heaps *)

Section WfHeap.
Variable h : gmap string Node.
Hypothesis W : wf_heap h.

Lemma wf_up_child x p : up h x p -> child h p x.
Proof. destruct W as [S _]. apply (links_up _ _ _ _ S). Qed.

Lemma wf_child_up p c : child h p c -> up h c p.
Proof. destruct W as [S _]. apply (links_child _ _ _ _ S). Qed.

Lemma wf_up_dom x p : up h x p -> x ∈ dom h ∧ p ∈ dom h.
Proof.
  intros H. split; [by eapply parent_Some_dom|].
  eapply children_elem_dom, wf_up_child, H.
Qed.

Lemma wf_up_depth x p : up h x p -> depth h x = S (depth h p).
Proof. intros H. destruct W as [_ D]. rewrite (D x). unfold up in H. by rewrite H. Qed.

Lemma wf_desc_dom x y : x ∈ dom h -> desc h x y -> y ∈ dom h.
Proof.
  intros Hx Hd. induction Hd as [|x c y Hc _ IH]; [done|].
  apply IH. by apply wf_child_up, wf_up_dom in Hc as [? _].
Qed.

Lemma wf_desc_depth x y : desc h x y -> depth h x ≤ depth h y.
Proof.
  intros Hd. induction Hd as [|x c y Hc _ IH]; [done|].
  apply wf_child_up, wf_up_depth in Hc. lia.
Qed.

(** Descendants are found again by climbing the [parent] fields. *)
Lemma wf_desc_up x y : desc h x y -> rtc (up h) y x.
Proof.
  intros Hd. induction Hd as [|x c y Hc _ IH]; [apply rtc_refl|].
  eapply rtc_r; [exact IH|]. by apply wf_child_up.
Qed.

Lemma wf_tc_up_depth x y : tc (up h) x y -> depth h y < depth h x.
Proof.
  intros Ht. induction Ht as [x y H|x p y H _ IH].
  - apply wf_up_depth in H. lia.
  - apply wf_up_depth in H. lia.
Qed.

Lemma wf_acyclic : acyclic h.
Proof. intros x Hx. apply wf_tc_up_depth in Hx. lia. Qed.

(** A node at depth [d] has [d] distinct ancestors in the heap. *)
Lemma depth_chain d : ∀ x, x ∈ dom h -> depth h x = d ->
  ∃ l : list string, NoDup l ∧ length l = S d ∧ ∀ y, y ∈ l -> y ∈ dom h ∧ depth h y ≤ d.
Proof.
  induction d as [|d IH]; intros x Hx Hd.
  - exists [x]. split; [apply NoDup_singleton|]. split; [done|].
    intros y ->%list_elem_of_singleton. split; [done|lia].
  - destruct (parent (h !!! x)) as [p|] eqn:Hp.
    + assert (Hup : up h x p) by exact Hp.
      pose proof (wf_up_depth _ _ Hup) as Hdp.
      destruct (wf_up_dom _ _ Hup) as [_ Hpd].
      destruct (IH p Hpd) as (l & Hnd & Hlen & Hl); [lia|].
      exists (x :: l). split; [|split].
      * apply NoDup_cons. split; [|done]. intros Hin. apply Hl in Hin as [_ ?]. lia.
      * simpl. lia.
      * intros y [->|Hy]%elem_of_cons; [split; [done|lia]|].
        apply Hl in Hy as [? ?]. split; [done|lia].
    + destruct W as [_ D]. specialize (D x). rewrite Hp in D. lia.
Qed.

Lemma depth_lt_size x : x ∈ dom h -> depth h x < size h.
Proof.
  intros Hx. destruct (depth_chain (depth h x) x Hx eq_refl) as (l & Hnd & Hlen & Hl).
  assert (Hsub : l ⊆+ elements (dom h)).
  { apply NoDup_submseteq; [done|]. intros y Hy. apply elem_of_elements. by apply Hl. }
  apply submseteq_length in Hsub.
  assert (length (elements (dom h)) = size h) by apply size_dom.
  lia.
Qed.

(** The ancestor walk ends within the fuel. *)
Lemma ancestor_walk_total nid : ∀ fuel item,
  1 ≤ fuel -> (∀ i, item = Some i -> depth h i + 2 ≤ fuel) ->
  is_Some (ancestor_walk fuel h item nid).
Proof.
  induction fuel as [|fuel IH]; intros item Hf Hi; [lia|].
  simpl. destruct item as [i|]; [|eauto].
  destruct (String.eqb i nid); [eauto|].
  specialize (Hi i eq_refl). apply IH; [lia|].
  intros p Hp. apply wf_up_depth in Hp. lia.
Qed.

(** When the walk ends without meeting [nid], [nid] is not on the chain. *)
Lemma ancestor_walk_false nid : ∀ fuel i,
  ancestor_walk fuel h (Some i) nid = Some false -> ¬ rtc (up h) i nid.
Proof.
  induction fuel as [|fuel IH]; intros i H Hr; simpl in H; [done|].
  destruct (String.eqb_spec i nid) as [Heq|Hne]; [done|].
  apply rtc_inv in Hr as [Heq|(p & Hp & Hr)]; [done|].
  unfold up in Hp. rewrite Hp in H.
  destruct fuel as [|fuel']; [done|]. eapply IH; eauto.
Qed.

Lemma ancestor_walk_true nid : ∀ fuel i,
  ancestor_walk fuel h (Some i) nid = Some true -> rtc (up h) i nid.
Proof.
  induction fuel as [|fuel IH]; intros i H; simpl in H; [done|].
  destruct (String.eqb_spec i nid) as [Heq|Hne]; [rewrite Heq; apply rtc_refl|].
  destruct (parent (h !!! i)) as [p|] eqn:Hp.
  - eapply rtc_l; [exact Hp|]. apply IH. exact H.
  - destruct fuel; simpl in H; done.
Qed.

(** [last_preorder_child] ends within the fuel. *)
Lemma last_preorder_child_total : ∀ fuel x,
  x ∈ dom h -> size h < fuel + depth h x -> is_Some (last_preorder_child fuel h x).
Proof.
  induction fuel as [|fuel IH]; intros x Hx Hf.
  { pose proof (depth_lt_size x Hx). lia. }
  simpl. destruct (last (children (h !!! x))) as [c|] eqn:Hc; [|eauto].
  assert (Hch : child h x c).
  { unfold child. apply last_Some in Hc as [l' ->]. apply elem_of_app. right. left. }
  apply wf_child_up in Hch. pose proof (wf_up_depth _ _ Hch).
  apply IH; [by apply wf_up_dom in Hch as [? _]|lia].
Qed.
End WfHeap.

(** ** [add_child] and [remove_child] *)

Lemma existsb_Node_eq h node l :
  existsb (Node_eq h node) l = false -> name h node ∉ (name h <$> l).
Proof.
  induction l as [|c l IH]; simpl; intros H Hin; [by apply elem_of_nil in Hin|].
  apply orb_false_iff in H as [Hc Hl].
  apply elem_of_cons in Hin as [Heq|Hin]; [|by apply IH].
  unfold Node_eq in Hc. rewrite Heq, String.eqb_refl in Hc. done.
Qed.

Lemma add_child_spec h self node :
  wf_heap h -> self ∈ dom h -> node ∈ dom h -> node ≠ self -> ¬ desc h node self ->
  (add_child h self node = Some (h, false))
  ∨ (∃ h', add_child h self node = Some (h', true) ∧ attached h self node h').
Proof.
  intros W Hself Hnode Hne Hnd. unfold add_child.
  destruct (existsb (Node_eq h node) (children (h !!! self))) eqn:Hex; [by left|right].
  set (A := fun n => set_children ({[node]} ∪ _children_by_id n)
                       (py_sort (Node_lt h) (children n ++ [node])) n).
  set (h1 := alter A self h).
  set (h2 := alter (set_parent (Some self)) node h1).
  assert (Hpar : ∀ x, parent (h2 !!! x) = if decide (x = node) then Some self else parent (h !!! x)).
  { intros x. unfold h2. destruct (decide (x = node)) as [->|Hx].
    - rewrite total_alter_eq; [done|]. unfold h1. by rewrite dom_alter_L.
    - rewrite total_alter_ne by done. unfold h1. by apply total_alter_field. }
  assert (Hch : ∀ x, children (h2 !!! x) =
                     if decide (x = self) then py_sort (Node_lt h) (children (h !!! self) ++ [node])
                     else children (h !!! x)).
  { intros x. unfold h2. rewrite (total_alter_field children) by done. unfold h1.
    destruct (decide (x = self)) as [->|Hx].
    - by rewrite total_alter_eq.
    - by rewrite total_alter_ne. }
  assert (Hids : ∀ x, _children_by_id (h2 !!! x) =
                     if decide (x = self) then {[node]} ∪ _children_by_id (h !!! self)
                     else _children_by_id (h !!! x)).
  { intros x. unfold h2. rewrite (total_alter_field _children_by_id) by done. unfold h1.
    destruct (decide (x = self)) as [->|Hx].
    - by rewrite total_alter_eq.
    - by rewrite total_alter_ne. }
  assert (Hnm : ∀ x, _name (h2 !!! x) = _name (h !!! x)).
  { intros x. unfold h2, h1. by rewrite !(total_alter_field _name). }
  assert (Hdp : ∀ x, depth h2 x = depth h x).
  { intros x. unfold depth, h2, h1. by rewrite !(total_alter_field _depth). }
  assert (Hdom : dom h2 = dom h) by (unfold h2, h1; by rewrite !dom_alter_L).
  assert (Hd12 : ∀ y, desc h2 node y -> desc h node y).
  { intros y Hy. unfold desc in Hy. revert y Hy.
    apply (rtc_ind_r (fun y => desc h node y)); [apply rtc_refl|]. intros p c Hp Hc IH.
    eapply rtc_r; [exact IH|]. unfold child in *. rewrite Hch in Hc.
    destruct (decide (p = self)) as [->|_]; [done|exact Hc]. }
  assert (Hd21 : ∀ y, desc h node y -> desc h2 node y).
  { intros y Hy. unfold desc in Hy. revert y Hy.
    apply (rtc_ind_r (fun y => desc h2 node y)); [apply rtc_refl|]. intros p c Hp Hc IH.
    eapply rtc_r; [exact IH|]. unfold child in *. rewrite Hch.
    destruct (decide (p = self)) as [->|_]; [done|exact Hc]. }
  destruct (set_depth_spec h2 (depth h) node) with (fuel := fuel_of h) (h := h2) (x := node)
    (d := depth h2 self + 1) as (h3 & Hh3 & Hl3 & Hform & Hchg).
  - intros p c Hp Hc. apply Hd12 in Hp.
    assert (child h p c).
    { unfold child in *. rewrite Hch in Hc.
      destruct (decide (p = self)) as [->|_]; [done|exact Hc]. }
    by apply (wf_up_depth h W), (wf_child_up h W).
  - intros y Hy. rewrite Hdom. eapply (wf_desc_dom h W); eauto.
  - apply same_links_refl.
  - apply rtc_refl.
  - intros y Hy. apply Hd12 in Hy.
    pose proof (depth_lt_size h W y (wf_desc_dom h W _ _ Hnode Hy)).
    unfold fuel_of. lia.
  - exists h3. rewrite Hh3. simpl. split; [done|].
    destruct Hl3 as [Hdom3 F3].
    split; [congruence|]. split; [by apply existsb_Node_eq|].
    split; [intros x; destruct (F3 x) as (-> & _); apply Hpar|].
    split; [intros x; destruct (F3 x) as (_ & -> & _); apply Hch|].
    split; [intros x; destruct (F3 x) as (_ & _ & -> & _); apply Hids|].
    split; [intros x; destruct (F3 x) as (_ & _ & _ & ->); apply Hnm|].
    split.
    + intros y Hy. specialize (Hform y (Hd21 y Hy)). rewrite Hdp in Hform. lia.
    + intros y. destruct (Hchg y) as [Heq|Hd]; [left; by rewrite Heq, Hdp|right; by apply Hd12].
Qed.

Lemma remove_child_spec h self nid force :
  self ∈ dom h ->
  nid ∈ _children_by_id (h !!! self) -> nid ∈ children (h !!! self) ->
  NoDup (name h <$> children (h !!! self)) ->
  is_leaf h nid = true ∨ force = true ->
  ∃ h', remove_child h self nid force = (h', Return true) ∧ detached h self nid h'.
Proof.
  intros Hself Hid Hin Hnd Hok. unfold remove_child.
  rewrite decide_True by done.
  assert (negb (is_leaf h nid) && negb force = false) as ->.
  { destruct Hok as [->| ->]; [done|]. by rewrite andb_false_r. }
  destruct (remove_where_is_Some (Node_eq h nid) (children (h !!! self)) nid Hin) as [l Hl].
  { unfold Node_eq. apply String.eqb_refl. }
  rewrite Hl. eexists. split; [done|].
  apply remove_where_split in Hl as (l1 & y & l2 & Hsplit & -> & Hy & _).
  assert (y = nid) as ->.
  { unfold Node_eq in Hy. apply String.eqb_eq in Hy.
    assert (Hyin : y ∈ children (h !!! self)).
    { rewrite Hsplit. apply elem_of_app. right. left. }
    apply list_elem_of_lookup in Hyin as [i Hi]. apply list_elem_of_lookup in Hin as [j Hj].
    assert (i = j); [|congruence].
    eapply NoDup_lookup; [exact Hnd| |]; rewrite list_lookup_fmap.
    - by rewrite Hi.
    - rewrite Hj. simpl. by rewrite Hy. }
  split; [by rewrite !dom_alter_L|]. split; [|split; [|split; [|split]]].
  - exists (l1 ++ l2). split.
    { rewrite Hsplit. by rewrite Permutation_middle. }
    intros x. destruct (decide (x = self)) as [->|Hx].
    + rewrite total_alter_eq; [done|]. by rewrite dom_alter_L.
    + by rewrite !total_alter_ne.
  - intros x. rewrite (total_alter_field _children_by_id) by done.
    destruct (decide (x = self)) as [->|Hx].
    + by rewrite total_alter_eq.
    + by rewrite total_alter_ne.
  - intros x. by rewrite !(total_alter_field parent).
  - intros x. by rewrite !(total_alter_field _name).
  - intros x. unfold depth. by rewrite !(total_alter_field _depth).
Qed.

(** ** Well-formedness is kept by the three changes of the tree *)

Lemma links_ext par ch ids nm par' ch' ids' nm' :
  links par ch ids nm ->
  (∀ x, par' x = par x) -> (∀ x, ch' x = ch x) -> (∀ x, ids' x = ids x) ->
  (∀ p c, c ∈ ch p -> nm' c = nm c) ->
  links par' ch' ids' nm'.
Proof.
  intros L Hp Hc Hi Hn. split.
  - intros x p. rewrite Hp, Hc. apply (links_up _ _ _ _ L).
  - intros p c. rewrite Hp, Hc. apply (links_child _ _ _ _ L).
  - intros p. rewrite Hc.
    replace (nm' <$> ch p) with (nm <$> ch p); [apply (links_names _ _ _ _ L)|].
    apply list_fmap_ext. intros i x Hx. symmetry. eapply Hn, list_elem_of_lookup_2, Hx.
  - intros p c. rewrite Hi, Hc. apply (links_by_id _ _ _ _ L).
Qed.

Lemma wf_heap_ext h h' :
  wf_heap h ->
  (∀ x, parent (h' !!! x) = parent (h !!! x)) ->
  (∀ x, children (h' !!! x) = children (h !!! x)) ->
  (∀ x, _children_by_id (h' !!! x) = _children_by_id (h !!! x)) ->
  (∀ p c, child h p c -> name h' c = name h c) ->
  (∀ x, depth h' x = depth h x) ->
  wf_heap h'.
Proof.
  intros [S D] Hp Hc Hi Hn Hd. split.
  - eapply links_ext; eauto.
  - intros x. rewrite Hd, Hp, (D x). destruct (parent (h !!! x)); [by rewrite Hd|done].
Qed.

(** A fresh, unlinked node does not disturb the heap. *)
Lemma wf_heap_insert_fresh h nid nm :
  wf_heap h -> nid ∉ dom h -> wf_heap (<[nid := Node_init nm]> h).
Proof.
  intros W Hfresh.
  assert (Hnone : h !!! nid = Node_init ""%string).
  { apply total_lookup_None. by apply not_elem_of_dom. }
  assert (Hf : ∀ {X} (g : Node -> X) x, g (Node_init nm) = g (Node_init ""%string) ->
               g (<[nid := Node_init nm]> h !!! x) = g (h !!! x)).
  { intros X g x Hg. rewrite lookup_total_insert. destruct (decide (nid = x)) as [<-|]; [|done].
    by rewrite Hnone. }
  eapply wf_heap_ext; [exact W|..].
  - intros x. by apply Hf.
  - intros x. by apply Hf.
  - intros x. by apply Hf.
  - intros p c Hc. unfold name. rewrite lookup_total_insert_ne; [done|].
    intros <-. apply Hfresh. by apply (wf_child_up h W), (wf_up_dom h W) in Hc as [? _].
  - intros x. unfold depth. by apply Hf.
Qed.

(** Re-parenting [nid] under [to]: attach, then detach from the old
    parent when there is one. *)
Lemma reparent_wf h nid to h1 h2 :
  wf_heap h -> nid ≠ to -> parent (h !!! nid) ≠ Some to -> ¬ desc h nid to ->
  attached h to nid h1 ->
  match parent (h !!! nid) with Some op => detached h1 op nid h2 | None => h2 = h1 end ->
  wf_heap h2.
Proof.
  intros W Hne Hold Hnd (Hdom1 & Hfresh & Hp1 & Hc1 & Hi1 & Hn1 & Hform & Hchg) H2.
  assert (H2' : (∀ x, parent (h2 !!! x) = parent (h1 !!! x))
                ∧ (∀ x, _name (h2 !!! x) = _name (h1 !!! x))
                ∧ (∀ x, depth h2 x = depth h1 x)
                ∧ (∀ op, parent (h !!! nid) = Some op ->
                     (∃ l', children (h1 !!! op) ≡ₚ nid :: l' ∧ children (h2 !!! op) = l')
                     ∧ _children_by_id (h2 !!! op) = _children_by_id (h1 !!! op) ∖ {[nid]})
                ∧ (∀ x, parent (h !!! nid) ≠ Some x ->
                     children (h2 !!! x) = children (h1 !!! x)
                     ∧ _children_by_id (h2 !!! x) = _children_by_id (h1 !!! x))).
  { destruct (parent (h !!! nid)) as [op|] eqn:Hop.
    - destruct H2 as (_ & (l' & Hl' & Hc2) & Hi2 & Hp2 & Hn2 & Hd2).
      refine (conj Hp2 (conj Hn2 (conj Hd2 (conj _ _)))).
      + intros ? [= <-]. split.
        * exists l'. split; [done|]. by rewrite Hc2, decide_True.
        * by rewrite Hi2, decide_True.
      + intros x Hx. split.
        * rewrite Hc2, decide_False; [done|congruence].
        * rewrite Hi2, decide_False; [done|congruence].
    - subst h2. refine (conj _ (conj _ (conj _ (conj _ _)))); done. }
  destruct H2' as (Hp2 & Hn2 & Hd2 & Hop2 & Hoth2).
  destruct W as [Sh D]. pose proof (conj Sh D : wf_heap h) as W.
  split.
  - eapply links_ext with (nm := name h);
      [eapply (links_reparent _ (fun x => parent (h2 !!! x)) _ (fun x => children (h2 !!! x))
                 _ (fun x => _children_by_id (h2 !!! x)) _ Sh nid to)
      |done|done|done|]; try done.
    + intros x. by rewrite Hp2, Hp1.
    + destruct (Hoth2 to Hold) as [-> _]. rewrite Hc1, decide_True by done. apply py_sort_perm.
    + intros op Hop. destruct (Hop2 op Hop) as [(l' & Hl' & ->) _].
      rewrite Hc1, decide_False in Hl' by congruence. done.
    + intros x Hx Hox. destruct (Hoth2 x Hox) as [-> _]. by rewrite Hc1, decide_False.
    + destruct (Hoth2 to Hold) as [_ ->]. by rewrite Hi1, decide_True.
    + intros op Hop. destruct (Hop2 op Hop) as [_ ->]. rewrite Hi1, decide_False by congruence. done.
    + intros x Hx Hox. destruct (Hoth2 x Hox) as [_ ->]. by rewrite Hi1, decide_False.
    + intros p c _. unfold name. by rewrite Hn2, Hn1.
  - intros x. rewrite !Hd2, Hp2, Hp1.
    destruct (decide (x = nid)) as [->|Hx].
    + rewrite Hd2. specialize (Hform nid (rtc_refl _ _)).
      destruct (Hchg to) as [->|?]; [lia|done].
    + pose proof (D x) as Dx. destruct (parent (h !!! x)) as [q|] eqn:Hq.
      * rewrite Hd2.
        assert (Hqx : child h q x) by (by apply (wf_up_child h W)).
        assert (Hboth : desc h nid q -> depth h1 x = S (depth h1 q)).
        { intros Hdq. pose proof (Hform q Hdq).
          assert (Hdx : desc h nid x) by (eapply rtc_r; eauto).
          pose proof (Hform x Hdx). lia. }
        destruct (Hchg x) as [Hex|Hdx].
        -- destruct (Hchg q) as [Heq|Hdq]; [lia|by apply Hboth].
        -- apply Hboth. apply rtc_inv_r in Hdx as [->|(p & Hdp & Hpx)]; [done|].
           apply (wf_child_up h W) in Hpx. unfold up in Hpx.
           assert (p = q) by congruence. by subst p.
      * destruct (Hchg x) as [Hex|Hdx]; [lia|].
        apply rtc_inv_r in Hdx as [->|(p & Hdp & Hpx)]; [done|].
        apply (wf_child_up h W) in Hpx. unfold up in Hpx. congruence.
Qed.

(** Dropping a leaf. *)
Lemma drop_leaf_wf h nid op h1 :
  wf_heap h -> up h nid op -> children (h !!! nid) = [] -> detached h op nid h1 ->
  wf_heap (base.delete nid h1).
Proof.
  intros W Hup Hleaf (_ & (l' & Hl' & Hc1) & Hi1 & Hp1 & Hn1 & Hd1).
  assert (Hf : ∀ {X} (g : Node -> X) x,
               g (base.delete nid h1 !!! x)
               = if decide (x = nid) then g (Node_init ""%string) else g (h1 !!! x)).
  { intros X g x. destruct (decide (x = nid)) as [->|Hx].
    - by rewrite lookup_total_delete_eq.
    - by rewrite lookup_total_delete_ne. }
  assert (Hne : op ≠ nid).
  { intros ->. apply (wf_up_child h W) in Hup. unfold child in Hup. rewrite Hleaf in Hup.
    by apply elem_of_nil in Hup. }
  destruct W as [Sh D]. pose proof (conj Sh D : wf_heap h) as W.
  split.
  - eapply (links_drop_leaf _ (fun x => parent (base.delete nid h1 !!! x))
              _ (fun x => children (base.delete nid h1 !!! x))
              _ (fun x => _children_by_id (base.delete nid h1 !!! x))
              _ Sh (name (base.delete nid h1)) nid op); try done.
    + intros x. rewrite (Hf _ parent). destruct (decide (x = nid)); [done|apply Hp1].
    + rewrite (Hf _ children). by rewrite decide_True.
    + rewrite (Hf _ children), decide_False, Hc1, decide_True by done. done.
    + intros x Hx Hxo. by rewrite (Hf _ children), decide_False, Hc1, decide_False.
    + rewrite (Hf _ _children_by_id). by rewrite decide_True.
    + by rewrite (Hf _ _children_by_id), decide_False, Hi1, decide_True.
    + intros x Hx Hxo. by rewrite (Hf _ _children_by_id), decide_False, Hi1, decide_False.
    + intros x Hx. unfold name. by rewrite (Hf _ _name), decide_False, Hn1.
  - intros x. unfold depth. rewrite (Hf _ _depth), (Hf _ parent).
    destruct (decide (x = nid)) as [->|Hx]; [done|].
    fold (depth h1 x). rewrite Hd1, Hp1, (D x).
    destruct (parent (h !!! x)) as [q|] eqn:Hq; [|done].
    rewrite (Hf _ _depth), decide_False.
    + fold (depth h1 q). by rewrite Hd1.
    + intros ->. apply (wf_up_child h W) in Hq. unfold child in Hq. rewrite Hleaf in Hq.
      by apply elem_of_nil in Hq.
Qed.

(** ** Well-formed stores *)

Lemma with_nodes_same s : with_nodes (_nodes s) s = s.
Proof. by destruct s. Qed.

Lemma wf_heap_empty : wf_heap ∅.
Proof.
  assert (H : ∀ x, (∅ : gmap string Node) !!! x = Node_init ""%string).
  { intros x. apply total_lookup_None, lookup_empty. }
  split.
  - split.
    + intros x p. by rewrite H.
    + intros p c. rewrite H. simpl. by intros ?%elem_of_nil.
    + intros p. rewrite H. apply NoDup_nil_2.
    + intros p c. rewrite H. simpl. split; [by intros ?%elem_of_empty|by intros ?%elem_of_nil].
  - intros x. unfold depth. by rewrite H.
Qed.

Lemma wf_init : wf Storage_init.
Proof.
  split; simpl; [apply wf_heap_empty| | |done].
  - intros x Hx. rewrite dom_empty_L in Hx. by apply elem_of_empty in Hx.
  - done.
Qed.

Lemma dom_nonempty (h : gmap string Node) x : x ∈ dom h -> h ≠ ∅.
Proof. intros Hx ->. rewrite dom_empty_L in Hx. by apply elem_of_empty in Hx. Qed.

(** A store whose heap was replaced by a well-formed one with the same
    parentless nodes, and whose root reference was kept, is well formed. *)
Lemma wf_with_nodes s h' l :
  wf s -> wf_heap h' -> _nodes s ≠ ∅ -> h' ≠ ∅ ->
  (∀ x, x ∈ dom h' -> parent (h' !!! x) = None ->
        x ∈ dom (_nodes s) ∧ parent (_nodes s !!! x) = None) ->
  (∀ x, x ∈ dom (_nodes s) -> parent (_nodes s !!! x) = None ->
        x ∈ dom h' ∧ parent (h' !!! x) = None) ->
  wf (with_preorder l (with_nodes h' s)).
Proof.
  intros W Wh Hne Hne' Hp1 Hp2. split; simpl.
  - done.
  - intros x Hx Hp. destruct (Hp1 x Hx Hp). apply (wf_single _ W); auto.
  - intros _. destruct (wf_root _ W Hne) as (r & Hr & Hrd & Hrp).
    exists r. destruct (Hp2 r Hrd Hrp). auto.
  - done.
Qed.

Lemma with_preorder_same s : with_preorder (_preorder s) s = s.
Proof. by destruct s. Qed.

(** ** The paths of [move] *)

(** The ancestor walk of [move] decides whether [to] lies below [nid]. *)
Lemma ancestor_walk_desc h nid to :
  wf_heap h -> to ∈ dom h -> nid ≠ to ->
  ∃ b, ancestor_walk (fuel_of h) h (parent (h !!! to)) nid = Some b
       ∧ (b = true <-> desc h nid to).
Proof.
  intros W Hto Hne.
  destruct (ancestor_walk_total h W nid (fuel_of h) (parent (h !!! to))) as [b Hb].
  { unfold fuel_of. lia. }
  { intros i Hi. destruct (wf_up_dom h W to i Hi) as [_ Hid].
    pose proof (depth_lt_size h W i Hid). unfold fuel_of. lia. }
  exists b. split; [done|]. destruct (parent (h !!! to)) as [p|] eqn:Hp.
  - destruct b.
    + split; [intros _|done]. apply (ancestor_walk_true h) in Hb.
      assert (Hup : ∀ x y, rtc (up h) x y -> desc h y x).
      { intros x y Hr. induction Hr as [|x q y Hq _ IH]; [apply rtc_refl|].
        eapply rtc_r; [exact IH|]. by apply (wf_up_child h W). }
      eapply rtc_r; [apply Hup, Hb|]. by apply (wf_up_child h W).
    + split; [done|]. intros Hd. apply (ancestor_walk_false h) in Hb. destruct Hb.
      apply (wf_desc_up h W) in Hd. apply rtc_inv in Hd as [->|(q & Hq & Hr)]; [done|].
      unfold up in Hq. assert (q = p) by congruence. by subst q.
  - unfold fuel_of in Hb. simpl in Hb. injection Hb as <-. split; [done|].
    intros Hd. apply (wf_desc_up h W) in Hd. apply rtc_inv in Hd as [->|(q & Hq & _)]; [done|].
    unfold up in Hq. congruence.
Qed.

(** [move] either returns False on the unchanged store, or re-parents
    and goes on to update the pre-order list. *)
Lemma move_cases s nid to :
  wf s ->
  move s nid to = (s, Return false)
  ∨ ∃ h2, reparented s nid to h2
          ∧ move s nid to =
              match resplice h2 (_preorder s) nid with
              | Return l => (with_preorder l (with_nodes h2 s), Return true)
              | Raise e => (with_nodes h2 s, Raise e)
              | Diverge => (with_nodes h2 s, Diverge)
              end.
Proof.
  intros W. pose proof (wf_nodes _ W) as Wh. unfold move.
  destruct (decide (nid ∉ dom (_nodes s) ∨ to ∉ dom (_nodes s) ∨ nid = to)) as [|Hn]; [by left|].
  assert (Hnid : nid ∈ dom (_nodes s)).
  { destruct (decide (nid ∈ dom (_nodes s))); [done|]. destruct Hn. by left. }
  assert (Hto : to ∈ dom (_nodes s)).
  { destruct (decide (to ∈ dom (_nodes s))); [done|]. destruct Hn. right. by left. }
  assert (Hne : nid ≠ to) by (intros ->; apply Hn; right; by right).
  destruct (parent (_nodes s !!! nid)) as [op|] eqn:Hop; [|by left].
  destruct (String.eqb_spec op to) as [|Hopto]; [by left|].
  destruct (ancestor_walk_desc _ nid to Wh Hto Hne) as (b & -> & Hb).
  destruct b; [by left|].
  assert (Hnd : ¬ desc (_nodes s) nid to) by (intros Hd; by apply Hb in Hd).
  destruct (add_child_spec _ to nid Wh Hto Hnid Hne Hnd) as [->|(h1 & -> & Hatt)]; [by left|].
  right.
  pose proof Hatt as (Hdom1 & _ & Hp1 & Hc1 & Hi1 & Hn1 & _).
  assert (Hupc : child (_nodes s) op nid) by (by apply (wf_up_child _ Wh)).
  destruct (remove_child_spec h1 op nid true) as (h2 & Hrm & Hdet).
  - rewrite Hdom1. eapply children_elem_dom, Hupc.
  - rewrite Hi1, decide_False by done. by apply (links_by_id _ _ _ _ (proj1 Wh)).
  - by rewrite Hc1, decide_False.
  - rewrite Hc1, decide_False by done.
    replace (name h1 <$> children (_nodes s !!! op))
      with (name (_nodes s) <$> children (_nodes s !!! op)).
    + apply (links_names _ _ _ _ (proj1 Wh)).
    + apply list_fmap_ext. intros i x _. unfold name. by rewrite Hn1.
  - by right.
  - rewrite Hrm. exists h2. split; [|done].
    exists h1, op. repeat (split; [done|]).
    eapply (reparent_wf _ nid to h1 h2 Wh); eauto.
    + rewrite Hop. congruence.
    + by rewrite Hop.
Qed.

Lemma reparented_wf s nid to h2 l :
  wf s -> reparented s nid to h2 -> wf (with_preorder l (with_nodes h2 s)).
Proof.
  intros W (h1 & op & Hnid & Hto & Hne & Hop & Hopto & Hnd & Hatt & Hdet & Wh2).
  destruct Hatt as (Hdom1 & _ & Hp1 & _). destruct Hdet as (Hdom2 & _ & _ & Hp2 & _).
  assert (Hdom : dom h2 = dom (_nodes s)) by congruence.
  assert (Hp : ∀ x, parent (h2 !!! x) = if decide (x = nid) then Some to
                                        else parent (_nodes s !!! x)).
  { intros x. by rewrite Hp2, Hp1. }
  apply wf_with_nodes; auto.
  - by apply (dom_nonempty _ nid).
  - apply (dom_nonempty _ nid). by rewrite Hdom.
  - intros x Hx Hpx. rewrite Hp in Hpx. destruct (decide (x = nid)); [done|].
    split; [by rewrite <- Hdom|done].
  - intros x Hx Hpx. split; [by rewrite Hdom|]. rewrite Hp.
    destruct (decide (x = nid)) as [->|]; [congruence|done].
Qed.

(** [move] keeps the store well formed, however it ends. *)
Lemma move_wf s nid to s' r : wf s -> move s nid to = (s', r) -> wf s'.
Proof.
  intros W H. destruct (move_cases s nid to W) as [Hm|(h2 & Hrep & Hm)]; rewrite Hm in H.
  - by injection H as <- _.
  - destruct (resplice h2 (_preorder s) nid); injection H as <- _.
    + by eapply reparented_wf.
    + rewrite <- (with_preorder_same (with_nodes h2 s)). by eapply reparented_wf.
    + rewrite <- (with_preorder_same (with_nodes h2 s)). by eapply reparented_wf.
Qed.

(** ** The paths of [add] *)

Lemma add_cases s nid nm parent :
  wf s ->
  add s (Some (nid, nm)) parent = (s, Return false)
  ∨ (truthy_str parent = false ∧ _nodes s = ∅
     ∧ add s (Some (nid, nm)) parent
       = ({| _nodes := {[nid := Node_init nm]}; _root := Some nid; _preorder := [nid] |},
          Return true))
  ∨ (∃ p h', parent = Some p ∧ truthy_str parent = true
       ∧ (nid ∉ dom (_nodes s)) ∧ p ∈ dom (_nodes s)
       ∧ attached (<[nid := Node_init nm]> (_nodes s)) p nid h' ∧ wf_heap h'
       ∧ add s (Some (nid, nm)) parent
         = match preorder_predecessor h' nid with
           | Return (Some pred) =>
               match index pred (_preorder s) with
               | Some i => (with_preorder (py_insert (i + 1) nid (_preorder s))
                                          (with_nodes h' s), Return true)
               | None => (with_nodes h' s, Raise ValueError)
               end
           | Return None => (with_nodes h' s, Raise AttributeError)
           | Raise e => (with_nodes h' s, Raise e)
           | Diverge => (with_nodes h' s, Diverge)
           end).
Proof.
  intros W. pose proof (wf_nodes _ W) as Wh. unfold add.
  destruct (decide (nid ∈ dom (_nodes s))) as [|Hfresh]; [by left|].
  destruct (truthy_str parent) eqn:Htr; cbn [negb].
  - destruct parent as [p|]; [|done]. cbn [default from_option id].
    destruct (decide (p ∈ dom (_nodes s))) as [Hp|]; [|by left].
    set (h0 := <[nid := Node_init nm]> (_nodes s)).
    assert (W0 : wf_heap h0) by (by apply wf_heap_insert_fresh).
    assert (Hnp : nid ≠ p) by (by intros ->).
    assert (Hn0 : h0 !!! nid = Node_init nm) by apply lookup_total_insert_eq.
    assert (Hnd : ¬ desc h0 nid p).
    { intros Hd. apply rtc_inv in Hd as [?|(c & Hc & _)]; [done|].
      unfold child in Hc. rewrite Hn0 in Hc. by apply elem_of_nil in Hc. }
    destruct (add_child_spec h0 p nid W0) as [->|(h' & -> & Hatt)]; auto.
    { unfold h0. rewrite dom_insert_L. apply elem_of_union. by right. }
    { unfold h0. rewrite dom_insert_L. apply elem_of_union. left. by apply elem_of_singleton. }
    right; right. exists p, h'. repeat (split; [done|]). split; [|done].
    eapply (reparent_wf h0 nid p h' h' W0); eauto.
    + by rewrite Hn0.
    + by rewrite Hn0.
  - destruct (decide (_nodes s = ∅)) as [He|]; [|by left].
    right; left. split; [done|]. split; [done|].
    rewrite He. unfold fuel_of. rewrite set_depth_leaf.
    + rewrite (wf_empty _ W He), alter_insert_eq, insert_empty. done.
    + by rewrite lookup_total_insert_eq.
Qed.

(** [add] keeps the store well formed, however it ends. *)
Lemma add_wf s node parent s' r : wf s -> add s node parent = (s', r) -> wf s'.
Proof.
  intros W H. destruct node as [[nid nm]|]; [|by injection H as <- _].
  destruct (add_cases s nid nm parent W)
    as [Ha|[(_ & _ & Ha)|(p & h' & _ & _ & Hfresh & Hp & Hatt & Wh' & Ha)]];
    rewrite Ha in H.
  - by injection H as <- _.
  - injection H as <- _. split; simpl.
    + rewrite <- insert_empty. apply wf_heap_insert_fresh; [apply wf_heap_empty|].
      rewrite dom_empty_L. apply not_elem_of_empty.
    + intros x Hx _. rewrite dom_singleton_L in Hx. apply elem_of_singleton in Hx. by subst.
    + intros _. exists nid. split; [done|]. split.
      * rewrite dom_singleton_L. by apply elem_of_singleton.
      * by rewrite lookup_total_singleton_eq.
    + intros He. apply (f_equal dom) in He. rewrite dom_singleton_L, dom_empty_L in He.
      assert (nid ∈ (∅ : gset string)) as ?%elem_of_empty; [|done].
      rewrite <- He. by apply elem_of_singleton.
  - destruct Hatt as (Hdom & _ & Hpar & _).
    assert (Hw : ∀ l, wf (with_preorder l (with_nodes h' s))).
    { intros l. apply wf_with_nodes; auto.
      - by apply (dom_nonempty _ p).
      - apply (dom_nonempty _ p). rewrite Hdom, dom_insert_L. apply elem_of_union. by right.
      - intros x Hx Hpx. rewrite Hpar in Hpx. destruct (decide (x = nid)) as [|Hne]; [done|].
        rewrite lookup_total_insert_ne in Hpx by done. split; [|done].
        rewrite Hdom, dom_insert_L in Hx. apply elem_of_union in Hx as [Hx|Hx]; [|done].
        by apply elem_of_singleton in Hx.
      - intros x Hx Hpx. assert (Hne : x ≠ nid) by (by intros ->).
        split; [rewrite Hdom, dom_insert_L; apply elem_of_union; by right|].
        rewrite Hpar, decide_False by done. by rewrite lookup_total_insert_ne. }
    pose proof (Hw (_preorder (with_nodes h' s))) as Hw0. rewrite with_preorder_same in Hw0.
    destruct (preorder_predecessor h' nid) as [[pred|]| |].
    + destruct (index pred (_preorder s)); injection H as <- _; auto.
    + by injection H as <- _.
    + by injection H as <- _.
    + by injection H as <- _.
Qed.

(** ** The paths of [delete] *)

Lemma delete_cases s nid :
  wf s ->
  delete s nid = (s, Return false)
  ∨ (nid ∈ dom (_nodes s) ∧ parent (_nodes s !!! nid) = None ∧ size (_nodes s) = 1
     ∧ delete s nid = (cleared s, Return true))
  ∨ (∃ op h1, up (_nodes s) nid op ∧ children (_nodes s !!! nid) = []
       ∧ detached (_nodes s) op nid h1
       ∧ delete s nid
         = match py_remove nid (_preorder s) with
           | Some l => (with_preorder l (with_nodes (base.delete nid h1) s), Return true)
           | None => (with_nodes (base.delete nid h1) s, Raise ValueError)
           end).
Proof.
  intros W. pose proof (wf_nodes _ W) as Wh. unfold delete.
  destruct (_nodes s !! nid) as [n|] eqn:Hn; [|by left].
  pose proof (total_lookup_Some _ _ _ Hn) as Hn'.
  destruct (parent n) as [op|] eqn:Hop.
  - assert (Hup : up (_nodes s) nid op) by (unfold up; by rewrite Hn').
    pose proof (wf_up_child _ Wh _ _ Hup) as Hch.
    assert (Hid : nid ∈ _children_by_id (_nodes s !!! op)).
    { by apply (links_by_id _ _ _ _ (proj1 Wh)). }
    destruct (is_leaf (_nodes s) nid) eqn:Hleaf.
    + destruct (remove_child_spec (_nodes s) op nid false) as (h1 & -> & Hdet); auto.
      { eapply children_elem_dom, Hch. }
      { apply (links_names _ _ _ _ (proj1 Wh)). }
      right; right. exists op, h1. repeat (split; [done|]). split; [|done].
      unfold is_leaf in Hleaf. by destruct (children (_nodes s !!! nid)).
    + left. unfold remove_child. rewrite decide_True, Hleaf by done. simpl.
      by rewrite with_nodes_same.
  - destruct (decide (size (_nodes s) = 1)) as [Hsz|]; [|by left].
    right; left. split; [by eapply elem_of_dom_2|]. by rewrite Hn'.
Qed.

(** [delete] keeps the store well formed, however it ends. *)
Lemma delete_wf s nid s' r : wf s -> delete s nid = (s', r) -> wf s'.
Proof.
  intros W H. pose proof (wf_nodes _ W) as Wh.
  destruct (delete_cases s nid W)
    as [Hd|[(_ & _ & _ & Hd)|(op & h1 & Hup & Hleaf & Hdet & Hd)]]; rewrite Hd in H.
  - by injection H as <- _.
  - injection H as <- _. split; simpl; [apply wf_heap_empty| |done|done].
    intros x Hx. rewrite dom_empty_L in Hx. by apply elem_of_empty in Hx.
  - pose proof (drop_leaf_wf _ _ _ _ Wh Hup Hleaf Hdet) as Wh'.
    destruct Hdet as (Hdom & _ & _ & Hpar & _).
    destruct (wf_up_dom _ Wh _ _ Hup) as [Hnid Hop].
    assert (Hne : op ≠ nid).
    { intros ->. pose proof (wf_up_depth _ Wh _ _ Hup). lia. }
    assert (Hw : ∀ l, wf (with_preorder l (with_nodes (base.delete nid h1) s))).
    { intros l. apply wf_with_nodes; auto.
      - by apply (dom_nonempty _ nid).
      - apply (dom_nonempty _ op). rewrite dom_delete_L, Hdom.
        apply elem_of_difference. split; [done|]. by intros ?%elem_of_singleton.
      - intros x Hx Hpx. rewrite dom_delete_L, Hdom in Hx.
        apply elem_of_difference in Hx as [Hx Hxn].
        rewrite lookup_total_delete_ne in Hpx; [|by intros ->; apply Hxn, elem_of_singleton].
        by rewrite Hpar in Hpx.
      - intros x Hx Hpx. assert (Hxn : x ≠ nid) by (intros ->; unfold up in Hup; congruence).
        split.
        + rewrite dom_delete_L, Hdom. apply elem_of_difference. split; [done|].
          by intros ?%elem_of_singleton.
        + rewrite lookup_total_delete_ne by done. by rewrite Hpar. }
    pose proof (Hw (_preorder (with_nodes (base.delete nid h1) s))) as Hw0.
    rewrite with_preorder_same in Hw0.
    destruct (py_remove nid (_preorder s)); injection H as <- _; auto.
Qed.

(** Every store the request loop can hold is well formed. *)
Lemma reachable_wf s : reachable s -> wf s.
Proof.
  induction 1 as [|s node parent s' b _ IH H|s nid s' b _ IH H|s nid to s' b _ IH H].
  - apply wf_init.
  - eapply add_wf; eauto.
  - eapply delete_wf; eauto.
  - eapply move_wf; eauto.
Qed.

(** * The store's specification, claim by claim *)

Open Scope string_scope.
Open Scope list_scope.

(** ** Sample stores *)

Lemma reachable_add_to s nid nm parent :
  reachable s -> (∃ b, snd (add s (Some (nid, nm)) parent) = Return b) ->
  reachable (add_to s nid nm parent).
Proof.
  intros Hs [b Hb]. unfold add_to. destruct (add s (Some (nid, nm)) parent) as [s' r] eqn:E.
  simpl in Hb. simpl. subst r. exact (reach_add _ _ _ _ _ Hs E).
Qed.

Lemma store_root_reachable : reachable store_root.
Proof. apply reachable_add_to; [apply reach_init|]. exists true. by vm_compute. Qed.

Lemma store_leaves_reachable : reachable store_leaves.
Proof.
  repeat (apply reachable_add_to; [|exists true; by vm_compute]).
  apply reach_init.
Qed.

Lemma store_chain_reachable : reachable store_chain.
Proof.
  repeat (apply reachable_add_to; [|exists true; by vm_compute]).
  apply reach_init.
Qed.

(** ** Queries *)

(** C9. On a store without nodes [query] returns the empty list, whatever
    its five arguments are. *)
Theorem query_empty_store s ids names roots min_depth max_depth :
  _nodes s = ∅ -> query s ids names roots min_depth max_depth = Return [].
Proof. intros He. unfold query. by rewrite decide_True. Qed.

(** An instance of [query_empty_store]. *)
Lemma query_empty_store_witness :
  _nodes Storage_init = ∅
  ∧ query Storage_init (Some ["1"]) (Some ["root"]) (Some ["1"; "x"]) (Some 1%Z) (Some 2%Z)
    = Return [].
Proof. split; [reflexivity|]. apply query_empty_store. reflexivity. Defined.

Lemma query_roots_acc s mn mx roots : ∀ acc,
  query_roots s mn mx roots acc
  = do r <- query_roots s mn mx roots []; Return (acc ++ r).
Proof.
  induction roots as [|root roots IH]; intros acc; simpl; [by rewrite app_nil_r|].
  destruct (query_subtree s mn mx root) as [sub| |]; simpl; [|done|done].
  rewrite (IH (acc ++ sub)), (IH sub).
  destruct (query_roots s mn mx roots []); simpl; [|done|done].
  by rewrite app_assoc.
Qed.

(** C5, as the code has it.  With no ids and no names, a list of roots
    that is not empty and names only unknown ids leaves no root at all,
    and the query returns the empty list (it does not fall back to the
    root of the store). *)
Theorem query_unknown_roots s ids names l min_depth max_depth :
  truthy_list ids = false -> truthy_list names = false ->
  l ≠ [] -> (∀ x, x ∈ l -> x ∉ dom (_nodes s)) ->
  query s ids names (Some l) min_depth max_depth = Return [].
Proof.
  intros Hids Hnames Hl Hunk. unfold query.
  destruct (decide (_nodes s = ∅)); [done|].
  destruct (_ && _ && _); [done|].
  rewrite Hids, Hnames.
  assert (truthy_list (Some l) = true) as -> by (by destruct l).
  simpl.
  assert (Hnone : ∀ k : list string, (∀ x, x ∈ k -> x ∈ l) ->
            filter (fun nid => nid ∈ dom (_nodes s)) k = []).
  { induction k as [|x k IH]; intros Hk; [done|].
    rewrite filter_cons_False.
    - apply IH. intros y Hy. apply Hk. by right.
    - apply Hunk, Hk. left. }
  rewrite Hnone; [done|].
  clear Hnone Hunk Hl. induction l as [|x l IH]; [done|].
  intros y. simpl. intros [->|Hy]%elem_of_cons; [left|].
  apply list_elem_of_filter in Hy as [_ Hy]. right. by apply IH.
Qed.

(** An instance of [query_unknown_roots]: two unknown roots on a store
    of one node. *)
Lemma query_unknown_roots_witness :
  truthy_list (A:=string) None = false ∧ truthy_list (A:=string) None = false
  ∧ ["x"; "y"] ≠ [] ∧ (∀ x, x ∈ ["x"; "y"] -> x ∉ dom (_nodes store_root))
  ∧ query store_root None None (Some ["x"; "y"]) None None = Return [].
Proof.
  assert (H : ∀ x, x ∈ ["x"; "y"] -> x ∉ dom (_nodes store_root)).
  { intros x Hx Hd. apply elem_of_dom in Hd as [n Hn].
    apply elem_of_cons in Hx as [->|Hx]; [by vm_compute in Hn|].
    apply list_elem_of_singleton in Hx as ->. by vm_compute in Hn. }
  split; [reflexivity|]. split; [reflexivity|]. split; [discriminate|]. split; [exact H|].
  apply query_unknown_roots; [reflexivity|reflexivity|discriminate|exact H].
Defined.

(** C5, as the specification has it, fails: on the store with the single
    node [1] a query for the unknown root [x] returns nothing, while the
    query without roots returns [1]. *)
Lemma query_unknown_roots_no_fallback :
  query store_root None None (Some ["x"]) None None = Return []
  ∧ query store_root None None None None None = Return ["1"]
  ∧ query store_root None None (Some ["x"]) None None
    ≠ query store_root None None None None None.
Proof. vm_compute. repeat split; discriminate. Qed.

Lemma select_all h l :
  (∀ x, x ∈ l -> x ∈ dom h) -> select h (fun _ => true) l = Return l.
Proof.
  induction l as [|x l IH]; intros Hl; simpl; [done|].
  assert (Hx : x ∈ dom h) by (apply Hl; left).
  apply elem_of_dom in Hx as [n Hn]. rewrite Hn.
  rewrite IH; [done|]. intros y Hy. apply Hl. by right.
Qed.

(** What the [ids] branch computes.  On a store whose cached list holds
    ids of the index only, a query with ids that are not empty returns
    the ids of the cached list that are among [ids], in the order of the
    list, and of these the nodes with a name among [names] when names are
    given; [roots] has no effect, and the depth bounds have none either,
    unless they are inverted: then the query returns the empty list
    before it looks at the ids. *)
Lemma query_by_ids s ids names roots min_depth max_depth :
  truthy_list ids = true ->
  (∀ x, x ∈ _preorder s -> x ∈ dom (_nodes s)) ->
  query s ids names roots min_depth max_depth
  = if inverted min_depth max_depth then Return [] else Return (ids_result s ids names).
Proof.
  intros Hids Hpre. unfold query, inverted, ids_result.
  destruct (decide (_nodes s = ∅)) as [He|Hne].
  - assert (_preorder s = []) as ->.
    { destruct (_preorder s) as [|x l]; [done|].
      assert (Hx : x ∈ dom (_nodes s)) by (apply Hpre; left).
      rewrite He, dom_empty_L in Hx. by apply elem_of_empty in Hx. }
    rewrite !filter_nil. by repeat case_match.
  - destruct (_ && _ && _); [done|]. rewrite Hids.
    rewrite select_all.
    + cbn [obind]. by destruct (truthy_list names).
    + intros x Hx. apply list_elem_of_filter in Hx as [_ Hx]. by apply Hpre.
Qed.

(** An instance of [query_by_ids]. *)
Lemma query_by_ids_example :
  truthy_list (Some ["c"; "a"; "zz"; "c"]) = true
  ∧ (∀ x, x ∈ _preorder store_chain -> x ∈ dom (_nodes store_chain))
  ∧ query store_chain (Some ["c"; "a"; "zz"; "c"]) None (Some ["b"]) (Some 1%Z) (Some 1%Z)
    = Return ["a"; "c"].
Proof.
  assert (H : ∀ x, x ∈ _preorder store_chain -> x ∈ dom (_nodes store_chain)).
  { intros x Hx. apply elem_of_dom.
    assert (Hp : _preorder store_chain = ["1"; "a"; "b"; "c"]) by (vm_compute; reflexivity).
    rewrite Hp in Hx.
    repeat (apply elem_of_cons in Hx as [->|Hx]; [vm_compute; eauto|]).
    inversion Hx. }
  split; [reflexivity|]. split; [exact H|].
  rewrite (query_by_ids store_chain (Some ["c"; "a"; "zz"; "c"]) None (Some ["b"])
             (Some 1%Z) (Some 1%Z) eq_refl H).
  vm_compute. reflexivity.
Defined.

(** C4 fails on the code.  The test of the depth bounds comes before the
    [ids] branch, although the method documents the bounds as ignored
    when ids are given: with [min_depth = 2] and [max_depth = 1] a query
    for the id [1] returns nothing, while [1] is in the store and the
    same query without depth bounds returns it. *)
Theorem query_ids_inverted_depths :
  query store_root (Some ["1"]) None None (Some 2%Z) (Some 1%Z) = Return []
  ∧ query store_root (Some ["1"]) None None None None = Return ["1"]
  ∧ ids_result store_root (Some ["1"]) None = ["1"]
  ∧ query store_root (Some ["1"]) None None (Some 2%Z) (Some 1%Z)
    ≠ Return (ids_result store_root (Some ["1"]) None).
Proof. vm_compute. repeat split. discriminate. Qed.

Lemma uniq_elem l x : x ∈ uniq l -> x ∈ l.
Proof.
  revert x. induction l as [|y l IH]; intros x; simpl; [done|].
  intros [->|Hx]%elem_of_cons; [left|]. right.
  apply list_elem_of_filter in Hx as [_ Hx]. by apply IH.
Qed.

Lemma filter_all {A} (P : A -> Prop) `{∀ x, Decision (P x)} (l : list A) :
  (∀ x, x ∈ l -> P x) -> filter P l = l.
Proof.
  induction l as [|x l IH]; intros Hl; [done|].
  rewrite filter_cons_True by (apply Hl; left).
  rewrite IH; [done|]. intros y Hy. apply Hl. by right.
Qed.

(** In a query by roots the answers for the roots are concatenated in the
    order of the roots and nothing is removed across them: the answer for
    a root followed by other roots is the answer for that root followed
    by the answer for the others. *)
Theorem query_roots_concat s r l min_depth max_depth :
  l ≠ [] -> r ∉ l ->
  query s None None (Some (r :: l)) min_depth max_depth
  = do l1 <- query s None None (Some [r]) min_depth max_depth;
    do l2 <- query s None None (Some l) min_depth max_depth;
    Return (l1 ++ l2).
Proof.
  intros Hl Hr. unfold query.
  destruct (decide (_nodes s = ∅)); [done|].
  destruct (_ && _ && _); [done|].
  assert (truthy_list (Some l) = true) as -> by (by destruct l).
  cbn [truthy_list negb default from_option id].
  set (mn := if truthy_int min_depth then _ else _).
  set (mx := if truthy_int max_depth then _ else _).
  set (known := fun nid => nid ∈ dom (_nodes s)).
  assert (Hu : uniq (r :: l) = uniq [r] ++ uniq l).
  { simpl. f_equal. apply filter_all.
    intros x Hx ->. by apply Hr, uniq_elem. }
  rewrite Hu, filter_app, fmap_app.
  generalize (Some <$> filter known (uniq [r])) (Some <$> filter known (uniq l)).
  intros k1 k2. clear.
  assert (Happ : ∀ acc, query_roots s mn mx (k1 ++ k2) acc
                        = do a <- query_roots s mn mx k1 acc; query_roots s mn mx k2 a).
  { induction k1 as [|root k1 IH]; intros acc; simpl; [done|].
    destruct (query_subtree s mn mx root); simpl; auto. }
  rewrite Happ. destruct (query_roots s mn mx k1 []) as [l1| |]; simpl; [|done|done].
  by rewrite query_roots_acc.
Qed.

(** An instance of [query_roots_concat]: the root and its child [b]; the
    nodes [b] and [c] are listed twice. *)
Lemma query_roots_concat_witness :
  ["b"] ≠ [] ∧ ("1" ∉ ["b"])
  ∧ query store_chain None None (Some ["1"; "b"]) None None
    = Return (["1"; "a"; "b"; "c"] ++ ["b"; "c"]).
Proof.
  assert (Hn : "1" ∉ ["b"]).
  { intros H. apply list_elem_of_singleton in H. discriminate. }
  split; [discriminate|]. split; [exact Hn|].
  rewrite (query_roots_concat store_chain "1" ["b"] None None); [|discriminate|exact Hn].
  vm_compute. reflexivity.
Defined.

(** C10 fails on the code.  In the reachable store with the root [1], its
    children [b] and [c], and the children [a] and [b1] of [b], reached by
    [move a b], the node [a] lies in the subtree of [b] and in its own.
    The query with the roots [b] and [a] lists [a] once, not once for each
    of the two subtrees: the answers are concatenated without
    de-duplication, but the answer for [b] is cut out of the cached list,
    which holds [a] after [b1], outside the span from [b] to the last
    node of its subtree: the leaf branch of [move] put [a] one place too
    far. *)
Theorem query_roots_misses_moved_leaf :
  reachable store_moved
  ∧ parent (_nodes store_moved !!! "a") = Some "b"
  ∧ preorder_walk (fuel_of (_nodes store_moved)) (_nodes store_moved) "b" = ["b"; "a"; "b1"]
  ∧ preorder_walk (fuel_of (_nodes store_moved)) (_nodes store_moved) "a" = ["a"]
  ∧ _preorder store_moved = ["1"; "b"; "b1"; "a"; "c"]
  ∧ query store_moved None None (Some ["b"]) None None = Return ["b"; "b1"]
  ∧ query store_moved None None (Some ["a"]) None None = Return ["a"]
  ∧ query store_moved None None (Some ["b"; "a"]) None None = Return ["b"; "b1"; "a"]
  ∧ main [add_request "1" "root" None; add_request "a" "a" (Some "1");
          add_request "b" "b" (Some "1"); add_request "c" "c" (Some "1");
          add_request "b1" "b1" (Some "b"); move_request "a" "b";
          roots_request ["b"; "a"]]
    = ([Ok true; Ok true; Ok true; Ok true; Ok true; Ok true;
        Nodes [{| v_id := "b"; v_name := "b"; v_parent_id := "1" |};
               {| v_id := "b1"; v_name := "b1"; v_parent_id := "b" |};
               {| v_id := "a"; v_name := "a"; v_parent_id := "b" |}]],
       EndOfInput).
Proof.
  split.
  { assert (Hr : reachable (add_to store_leaves "b1" "b1" (Some "b"))).
    { apply reachable_add_to; [apply store_leaves_reachable|].
      exists true. vm_compute. reflexivity. }
    unfold store_moved.
    destruct (move (add_to store_leaves "b1" "b1" (Some "b")) "a" "b") as [s' r] eqn:E.
    assert (Hs : snd (move (add_to store_leaves "b1" "b1" (Some "b")) "a" "b") = Return true)
      by (vm_compute; reflexivity).
    rewrite E in Hs. cbn [fst snd] in *. subst r.
    exact (reach_move _ _ _ _ _ Hr E). }
  vm_compute. repeat split.
Qed.

(** ** The shape of the tree *)

Lemma wf_single_rooted_tree s : wf s -> single_rooted_tree s.
Proof.
  intros W. pose proof (wf_nodes _ W) as Wh. split; [by apply wf_acyclic|]. split.
  - intros x p Hup. by apply (wf_up_dom _ Wh) in Hup as [_ ?].
  - intros x y Hx Hy Hpx Hpy.
    pose proof (wf_single _ W x Hx Hpx). pose proof (wf_single _ W y Hy Hpy). congruence.
Qed.

Lemma wf_tc_child_depth h x y : wf_heap h -> tc (child h) x y -> depth h x < depth h y.
Proof.
  intros W Ht. induction Ht as [x y H|x c y H _ IH].
  - apply (wf_child_up h W), (wf_up_depth h W) in H. lia.
  - apply (wf_child_up h W), (wf_up_depth h W) in H. lia.
Qed.

(** C3. In every reachable store, [move nid to] returns False and leaves
    the store as it is when [to] is [nid] itself, the current parent of
    [nid], or a descendant of [nid]; and however a move ends, the store is
    still a single-rooted tree without a cycle. *)
Theorem move_keeps_tree s nid to :
  reachable s ->
  ((to = nid ∨ up (_nodes s) nid to ∨ tc (child (_nodes s)) nid to) ->
   move s nid to = (s, Return false))
  ∧ (∀ s' r, move s nid to = (s', r) -> single_rooted_tree s').
Proof.
  intros Hr. pose proof (reachable_wf s Hr) as W. pose proof (wf_nodes _ W) as Wh. split.
  - intros Hcase.
    destruct (move_cases s nid to W)
      as [Hm|(h2 & (h1 & op & _ & _ & Hne & Hop & Hopto & Hnd & _) & _)]; [done|].
    exfalso. destruct Hcase as [->|[Hup|Htc]].
    + done.
    + unfold up in Hup. congruence.
    + apply Hnd. by apply tc_rtc.
  - intros s' r Hm. apply wf_single_rooted_tree. eapply move_wf; eauto.
Qed.

(** An instance of [move_keeps_tree]: [b] cannot move under its child
    [c], and the store after [move b a] is a tree. *)
Lemma move_keeps_tree_witness :
  reachable store_chain
  ∧ move store_chain "b" "c" = (store_chain, Return false)
  ∧ single_rooted_tree (fst (move store_chain "b" "a")).
Proof.
  assert (Hr : reachable store_chain).
  { unfold store_chain.
    repeat (apply reachable_add_to; [|exists true; vm_compute; reflexivity]).
    apply reach_init. }
  split; [exact Hr|].
  destruct (move_keeps_tree store_chain "b" "c" Hr) as [Hrej _].
  destruct (move_keeps_tree store_chain "b" "a" Hr) as [_ Htree].
  split.
  - apply Hrej. right; right. apply tc_once. unfold child. vm_compute.
    apply list_elem_of_here.
  - apply (Htree _ (snd (move store_chain "b" "a"))). by destruct (move _ _ _).
Defined.

(** ** Adding the root *)

(** C7. In every reachable store, [add] without a parent succeeds exactly
    when the store is empty; the node then is the root, at depth 0, and
    its id is the whole pre-order list.  A null node is refused, in a
    store that has a node the call returns False and changes nothing, and
    no reachable store has two nodes without a parent. *)
Theorem add_root_iff_empty s nid nm par :
  reachable s -> truthy_str par = false ->
  ((∃ s', add s (Some (nid, nm)) par = (s', Return true)) <-> _nodes s = ∅)
  ∧ (∀ s', add s (Some (nid, nm)) par = (s', Return true) ->
           _root s' = Some nid ∧ dom (_nodes s') = {[nid]}
           ∧ parent (_nodes s' !!! nid) = None ∧ depth (_nodes s') nid = 0
           ∧ _preorder s' = [nid])
  ∧ (_nodes s ≠ ∅ -> add s (Some (nid, nm)) par = (s, Return false))
  ∧ add s None par = (s, Return false)
  ∧ (∀ x y, x ∈ dom (_nodes s) -> y ∈ dom (_nodes s) ->
            parent (_nodes s !!! x) = None -> parent (_nodes s !!! y) = None -> x = y).
Proof.
  intros Hr Hpar. pose proof (reachable_wf s Hr) as W.
  assert (Hcases :
    (_nodes s ≠ ∅ ∧ add s (Some (nid, nm)) par = (s, Return false))
    ∨ (_nodes s = ∅
       ∧ add s (Some (nid, nm)) par
         = ({| _nodes := {[nid := Node_init nm]}; _root := Some nid; _preorder := [nid] |},
            Return true))).
  { destruct (add_cases s nid nm par W) as [Ha|[(_ & He & Ha)|(p & h' & _ & Ht & _)]].
    - left. split; [|done]. intros He. unfold add in Ha.
      rewrite He, dom_empty_L, decide_False, Hpar in Ha by apply not_elem_of_empty.
      cbn [negb] in Ha. rewrite decide_True in Ha by done.
      unfold fuel_of in Ha. rewrite set_depth_leaf in Ha; [done|].
      by rewrite lookup_total_insert_eq.
    - by right.
    - congruence. }
  split; [|split; [|split; [|split]]].
  - split.
    + intros [s' Hs']. destruct Hcases as [[_ Ha]|[He _]]; [congruence|done].
    + intros He. destruct Hcases as [[Hne _]|[_ Ha]]; [done|eauto].
  - intros s' Hs'. destruct Hcases as [[_ Ha]|[_ Ha]]; [congruence|].
    rewrite Ha in Hs'. injection Hs' as <-. simpl.
    split; [done|]. split; [apply dom_singleton_L|].
    unfold depth. rewrite lookup_total_singleton_eq. done.
  - intros Hne. destruct Hcases as [[_ Ha]|[He _]]; done.
  - done.
  - apply (wf_single_rooted_tree s W).
Qed.

(** An instance of [add_root_iff_empty]: the first node becomes the
    root, a second node without a parent is refused. *)
Lemma add_root_iff_empty_witness :
  reachable Storage_init ∧ truthy_str None = false
  ∧ (_root store_root = Some "1" ∧ dom (_nodes store_root) = {["1"]}
     ∧ parent (_nodes store_root !!! "1") = None ∧ depth (_nodes store_root) "1" = 0
     ∧ _preorder store_root = ["1"])
  ∧ add store_root (Some ("2", "other")) None = (store_root, Return false).
Proof.
  split; [apply reach_init|]. split; [reflexivity|].
  assert (Hadd : add Storage_init (Some ("1", "root")) None = (store_root, Return true)).
  { vm_compute. reflexivity. }
  assert (Hr : reachable store_root).
  { exact (reach_add _ _ _ _ _ reach_init Hadd). }
  destruct (add_root_iff_empty Storage_init "1" "root" None reach_init eq_refl)
    as (_ & Hsucc & _).
  destruct (add_root_iff_empty store_root "2" "other" None Hr eq_refl)
    as (_ & _ & Hfail & _).
  split.
  - apply Hsucc, Hadd.
  - apply Hfail. intros He. apply (f_equal size) in He. vm_compute in He. discriminate.
Defined.

(** ** Deleting the root *)

Lemma only_node_size (h : gmap string Node) nid :
  nid ∈ dom h -> size h = 1 <-> dom h = {[nid]}.
Proof.
  intros Hin. rewrite <- (size_dom (D:=gset string) h). split.
  - intros Hsz. apply size_1_elem_of in Hsz as [x Hx]. apply leibniz_equiv in Hx.
    rewrite Hx in Hin. apply elem_of_singleton in Hin. by subst.
  - intros ->. apply size_singleton.
Qed.

(** C6, as the code has it.  [delete] on the node without a parent
    succeeds exactly when it is the only node of the store; the index and
    the pre-order list are then empty, and the root reference is left as
    it was. *)
Theorem delete_root_clears_index s nid n :
  _nodes s !! nid = Some n -> parent n = None ->
  ((∃ s', delete s nid = (s', Return true)) <-> dom (_nodes s) = {[nid]})
  ∧ (∀ s', delete s nid = (s', Return true) ->
           _nodes s' = ∅ ∧ _preorder s' = [] ∧ _root s' = _root s)
  ∧ (dom (_nodes s) ≠ {[nid]} -> delete s nid = (s, Return false)).
Proof.
  intros Hn Hp. pose proof (elem_of_dom_2 _ _ _ Hn) as Hin.
  unfold delete. rewrite Hn, Hp.
  destruct (decide (size (_nodes s) = 1)) as [Hsz|Hsz].
  - pose proof (proj1 (only_node_size _ nid Hin) Hsz) as Hd.
    split; [split; [done|eauto]|]. split; [|done].
    intros s' [= <-]. done.
  - assert (Hd : dom (_nodes s) ≠ {[nid]}).
    { intros Hd. by apply Hsz, (only_node_size _ nid Hin). }
    split; [split; [by intros [s' ?]|done]|]. split; [|done].
    by intros s' ?.
Qed.

(** An instance of [delete_root_clears_index]. *)
Lemma delete_root_clears_index_witness :
  _nodes store_root !! "1" = Some (Node_init "root") ∧ parent (Node_init "root") = None
  ∧ _nodes (fst (delete store_root "1")) = ∅
  ∧ _preorder (fst (delete store_root "1")) = []
  ∧ _root (fst (delete store_root "1")) = _root store_root.
Proof.
  assert (Hn : _nodes store_root !! "1" = Some (Node_init "root")) by (vm_compute; reflexivity).
  split; [exact Hn|]. split; [reflexivity|].
  destruct (delete_root_clears_index store_root "1" _ Hn eq_refl) as (_ & Hclear & _).
  apply Hclear. vm_compute. reflexivity.
Defined.

(** C6, as the specification has it, fails: after the only node was
    deleted the root reference still names it. *)
Lemma delete_root_keeps_reference :
  snd (delete store_root "1") = Return true
  ∧ _nodes (fst (delete store_root "1")) = ∅
  ∧ _root (fst (delete store_root "1")) = Some "1"
  ∧ _root (fst (delete store_root "1")) ≠ None.
Proof. vm_compute. repeat split. discriminate. Qed.

(** ** The cached pre-order list *)

(** C1 fails on the code.  In the reachable store with the root [1] and
    its leaves [a], [b], [c], whose cached list is the pre-order listing,
    [move a b] succeeds and makes [a] the only child of [b]; the tree then
    lists as [1, b, a, c], but the cached list is [1, b, c, a]: the leaf
    was inserted at the index its predecessor had before the leaf itself
    was removed from the list, one place too far. *)
Theorem leaf_move_forward_misplaces_leaf :
  reachable store_leaves
  ∧ _preorder store_leaves = tree_preorder store_leaves
  ∧ snd (move store_leaves "a" "b") = Return true
  ∧ preorder_predecessor (_nodes (fst (move store_leaves "a" "b"))) "a" = Return (Some "b")
  ∧ tree_preorder (fst (move store_leaves "a" "b")) = ["1"; "b"; "a"; "c"]
  ∧ _preorder (fst (move store_leaves "a" "b")) = ["1"; "b"; "c"; "a"]
  ∧ _preorder (fst (move store_leaves "a" "b")) ≠ tree_preorder (fst (move store_leaves "a" "b")).
Proof. split; [apply store_leaves_reachable|]. vm_compute. repeat split. discriminate. Qed.

(** ** Failing operations *)

(** An operation that returns False has left the store as it was. *)
Lemma false_leaves_store s :
  reachable s ->
  (∀ node par s', add s node par = (s', Return false) -> s' = s)
  ∧ (∀ nid s', delete s nid = (s', Return false) -> s' = s)
  ∧ (∀ nid to s', move s nid to = (s', Return false) -> s' = s).
Proof.
  intros Hr. pose proof (reachable_wf s Hr) as W. split; [|split].
  - intros node par s' H. destruct node as [[nid nm]|]; [|by injection H as <-].
    destruct (add_cases s nid nm par W) as [Ha|[(_ & _ & Ha)|(p & h' & _ & _ & _ & _ & _ & _ & Ha)]];
      rewrite Ha in H.
    + by injection H as <-.
    + done.
    + destruct (preorder_predecessor h' nid) as [[pred|]| |]; try done.
      by destruct (index pred (_preorder s)).
  - intros nid s' H.
    destruct (delete_cases s nid W) as [Hd|[(_ & _ & _ & Hd)|(op & h1 & _ & _ & _ & Hd)]];
      rewrite Hd in H.
    + by injection H as <-.
    + done.
    + by destruct (py_remove nid (_preorder s)).
  - intros nid to s' H.
    destruct (move_cases s nid to W) as [Hm|(h2 & _ & Hm)]; rewrite Hm in H.
    + by injection H as <-.
    + by destruct (resplice h2 (_preorder s) nid).
Qed.

(** C2 fails on the code.  In the reachable store with the root [1], its
    leaf [a] and its other child [b] with the child [c], [move b a] ends
    in UnboundLocalError: the new position of [b] is the index it already
    has, which neither branch of the block exchange covers.  The
    exception comes after the re-parenting: [b] has left the children of
    [1] and is the child of [a], at depth 2, while the pre-order list is
    untouched. *)
Theorem move_raises_after_reparenting :
  reachable store_chain
  ∧ snd (move store_chain "b" "a") = Raise UnboundLocalError
  ∧ parent (_nodes store_chain !!! "b") = Some "1"
  ∧ parent (_nodes (fst (move store_chain "b" "a")) !!! "b") = Some "a"
  ∧ children (_nodes (fst (move store_chain "b" "a")) !!! "1") = ["a"]
  ∧ children (_nodes (fst (move store_chain "b" "a")) !!! "a") = ["b"]
  ∧ depth (_nodes (fst (move store_chain "b" "a"))) "b" = 2
  ∧ _preorder (fst (move store_chain "b" "a")) = _preorder store_chain
  ∧ fst (move store_chain "b" "a") ≠ store_chain.
Proof.
  split; [apply store_chain_reachable|].
  repeat (split; [vm_compute; reflexivity|]).
  intros H. apply (f_equal (fun s => parent (_nodes s !!! "b"))) in H.
  vm_compute in H. discriminate.
Qed.

(** ** The request loop *)

(** The lines the loop reports and skips. *)
Lemma malformed_line_skipped stg b1 b2 k1 k2 rest :
  process_line stg Unparsable = (stg, Return None)
  ∧ process_line stg (Object []) = (stg, Return None)
  ∧ process_line stg (Object ((k1, b1) :: (k2, b2) :: rest)) = (stg, Return None).
Proof. done. Qed.

(** C8 fails on the code.  A request whose single key names no handler
    raises KeyError in the look-up of the handler, nothing catches it, and
    the process ends before it reads the next line; so does a well-formed
    [move_node] request on which [move] raises. *)
Theorem unknown_operation_ends_process :
  (∀ stg b, process_line stg (Object [("foo", b)]) = (stg, Raise KeyError))
  ∧ (∀ b rest, main (Object [("foo", b)] :: rest) = ([], Uncaught KeyError))
  ∧ main [add_request "1" "root" None; add_request "a" "a" (Some "1");
          add_request "b" "b" (Some "1"); add_request "c" "c" (Some "b");
          move_request "b" "a"; Object [("query", no_params)]]
    = ([Ok true; Ok true; Ok true; Ok true], Uncaught UnboundLocalError).
Proof.
  split; [done|]. split; [done|]. vm_compute. reflexivity.
Qed.

(** ** The fuel is enough *)

Lemma preorder_predecessor_ends h x : wf_heap h -> preorder_predecessor h x ≠ Diverge.
Proof.
  intros W. unfold preorder_predecessor.
  destruct (parent (h !!! x)) as [p|]; [|done].
  destruct (index_where (Node_eq h x) (children (h !!! p))) as [[|i]|] eqn:Hi; [done| |done].
  apply index_where_lt in Hi.
  assert (Hc : child h p (children (h !!! p) !!! i)).
  { apply list_elem_of_lookup_total_2. lia. }
  apply (wf_child_up h W), (wf_up_dom h W) in Hc as [Hc _].
  destruct (last_preorder_child_total h W (fuel_of h) _ Hc) as [c ->]; [|done].
  unfold fuel_of. lia.
Qed.

Lemma last_preorder_child_ends h x :
  wf_heap h -> x ∈ dom h -> is_Some (last_preorder_child (fuel_of h) h x).
Proof. intros W Hx. apply last_preorder_child_total; [done|done|]. unfold fuel_of. lia. Qed.

Lemma resplice_ends h l x : wf_heap h -> x ∈ dom h -> resplice h l x ≠ Diverge.
Proof.
  intros W Hx. unfold resplice.
  pose proof (preorder_predecessor_ends h x W) as Hp.
  destruct (preorder_predecessor h x) as [[pred|]| |]; cbn [obind]; [|done|done|done].
  destruct (index pred l); [|done].
  destruct (is_leaf h x).
  - by destruct (py_remove x l).
  - destruct (last_preorder_child_ends h x W Hx) as [c ->].
    destruct (index x l), (index c l); try done.
    repeat case_match; done.
Qed.

Lemma select_ends h keep l : select h keep l ≠ Diverge.
Proof.
  induction l as [|x l IH]; simpl; [done|].
  destruct (h !! x); [|done]. by destruct (select h keep l).
Qed.

Lemma query_ends s ids names roots min_depth max_depth :
  wf s -> query s ids names roots min_depth max_depth ≠ Diverge.
Proof.
  intros W. unfold query.
  destruct (decide (_nodes s = ∅)) as [|Hne]; [done|].
  destruct (_ && _ && _); [done|].
  set (mn := if truthy_int min_depth then _ else _).
  set (mx := if truthy_int max_depth then _ else _).
  destruct (truthy_list ids).
  { pose proof (select_ends (_nodes s) (fun _ => true)
      (filter (fun nid => str_in nid (uniq (default [] ids)) = true) (_preorder s))) as Hs.
    destruct (select _ _ _); simpl; [|done|done]. by destruct (negb _). }
  destruct (truthy_list names); [apply select_ends|].
  destruct (wf_root _ W Hne) as (r & Hr & Hrd & _).
  assert (Hsub : ∀ x, x ∈ dom (_nodes s) -> query_subtree s mn mx (Some x) ≠ Diverge).
  { intros x Hx. unfold query_subtree. rewrite Hr.
    destruct (String.eqb x r); [apply select_ends|].
    destruct (index x (_preorder s)); [|done].
    destruct (last_preorder_child_ends _ x (wf_nodes _ W) Hx) as [c ->].
    destruct (index c (_preorder s)); [apply select_ends|done]. }
  assert (Hall : ∀ (k : list (option string)) acc,
            (∀ o, o ∈ k -> ∃ x, o = Some x ∧ x ∈ dom (_nodes s)) ->
            query_roots s mn mx k acc ≠ Diverge).
  { induction k as [|o k IH]; intros acc Hk; simpl; [done|].
    destruct (Hk o) as (x & -> & Hx); [left|].
    specialize (Hsub x Hx). destruct (query_subtree s mn mx (Some x)); simpl; [|done|done].
    apply IH. intros o' Ho'. apply Hk. by right. }
  apply Hall. intros o Ho. destruct (truthy_list roots).
  - apply list_elem_of_fmap in Ho as (x & -> & Hx).
    apply list_elem_of_filter in Hx as [Hx _]. eauto.
  - apply list_elem_of_singleton in Ho as ->. eauto.
Qed.

(** On a reachable store no call runs out of fuel: every loop of the
    model ends within the bound given to it, and each call returns or
    raises. *)
Theorem calls_end s :
  reachable s ->
  (∀ node par, snd (add s node par) ≠ Diverge)
  ∧ (∀ nid, snd (delete s nid) ≠ Diverge)
  ∧ (∀ nid to, snd (move s nid to) ≠ Diverge)
  ∧ (∀ ids names roots mn mx, query s ids names roots mn mx ≠ Diverge).
Proof.
  intros Hr. pose proof (reachable_wf s Hr) as W. split; [|split; [|split]].
  - intros node par. destruct node as [[nid nm]|]; [|done].
    destruct (add_cases s nid nm par W)
      as [Ha|[(_ & _ & Ha)|(p & h' & _ & _ & _ & _ & _ & Wh' & Ha)]]; rewrite Ha; try done.
    pose proof (preorder_predecessor_ends h' nid Wh') as Hp.
    destruct (preorder_predecessor h' nid) as [[pred|]| |]; try done.
    by destruct (index pred (_preorder s)).
  - intros nid.
    destruct (delete_cases s nid W) as [Hd|[(_ & _ & _ & Hd)|(op & h1 & _ & _ & _ & Hd)]];
      rewrite Hd; try done.
    by destruct (py_remove nid (_preorder s)).
  - intros nid to.
    destruct (move_cases s nid to W) as [Hm|(h2 & Hrep & Hm)]; rewrite Hm; [done|].
    destruct Hrep as (h1 & op & Hnid & _ & _ & _ & _ & _ & Hatt & Hdet & Wh2).
    assert (Hd : nid ∈ dom h2).
    { destruct Hatt as (Hd1 & _), Hdet as (Hd2 & _). by rewrite Hd2, Hd1. }
    pose proof (resplice_ends h2 (_preorder s) nid Wh2 Hd).
    by destruct (resplice h2 (_preorder s) nid).
  - intros. by apply query_ends.
Qed.


(** * Further properties of the code *)

(** ** The order of names *)

Lemma string_ltb_lt a b : String.ltb a b = true <-> String_as_OT.lt a b.
Proof.
  rewrite <- String_as_OT.cmp_lt. unfold String.ltb, String_as_OT.cmp.
  destruct (String.compare a b); split; congruence.
Qed.

Lemma string_ltb_trans a b c :
  String.ltb a b = true -> String.ltb b c = true -> String.ltb a c = true.
Proof. rewrite !string_ltb_lt. apply String_as_OT.lt_trans. Qed.

Lemma string_ltb_irrefl a : String.ltb a a = false.
Proof.
  destruct (String.ltb a a) eqn:E; [|done].
  apply string_ltb_lt, String_as_OT.lt_not_eq in E. by destruct E.
Qed.

Lemma string_ltb_total a b : a ≠ b -> String.ltb a b = false -> String.ltb b a = true.
Proof.
  intros Hne. unfold String.ltb. rewrite (String.compare_antisym b a).
  destruct (String.compare a b) eqn:E; simpl; try done.
  by apply String.compare_eq_iff in E.
Qed.

Section Sorting.
Variable h : gmap string Node.
Abbreviation R := (fun a b => Node_lt h a b = true).

Lemma sort_insert_sorted x l :
  StronglySorted R l -> name h x ∉ (name h <$> l) ->
  StronglySorted R (sort_insert (Node_lt h) x l).
Proof.
  induction l as [|y l IH]; intros Hs Hx; simpl.
  { apply StronglySorted_cons. split; [apply Forall_nil_2|constructor]. }
  apply StronglySorted_cons in Hs as [Hy Hs].
  assert (Hxy : name h x ≠ name h y) by (intros E; apply Hx; rewrite E; left).
  assert (Hxl : name h x ∉ (name h <$> l)) by (intros E; apply Hx; by right).
  destruct (Node_lt h y x) eqn:Hlt.
  - apply StronglySorted_cons. split; [|by apply IH].
    apply Forall_forall. intros z Hz. rewrite sort_insert_perm in Hz.
    apply elem_of_cons in Hz as [->|Hz]; [done|].
    by apply (proj1 (Forall_forall _ _) Hy).
  - assert (Hxy' : Node_lt h x y = true).
    { unfold Node_lt in *. apply string_ltb_total; [congruence|done]. }
    apply StronglySorted_cons. split; [|by apply StronglySorted_cons].
    apply Forall_cons. split; [done|].
    apply Forall_forall. intros z Hz.
    pose proof (proj1 (Forall_forall _ _) Hy z Hz) as Hyz.
    unfold Node_lt in *. eapply string_ltb_trans; eauto.
Qed.

(** Python's sort puts siblings with distinct names in ascending order. *)
Lemma py_sort_sorted l :
  NoDup (name h <$> l) -> StronglySorted R (py_sort (Node_lt h) l).
Proof.
  induction l as [|x l IH]; intros Hnd; [constructor|].
  simpl in Hnd. apply NoDup_cons in Hnd as [Hx Hnd].
  unfold py_sort. simpl. apply sort_insert_sorted; [by apply IH|].
  fold (py_sort (Node_lt h) l). by rewrite py_sort_perm.
Qed.

Lemma sorted_remove l1 y l2 :
  StronglySorted R (l1 ++ y :: l2) -> StronglySorted R (l1 ++ l2).
Proof.
  rewrite !StronglySorted_app. intros (H12 & H1 & H2).
  apply StronglySorted_cons in H2 as [_ H2]. split; [|done].
  intros x1 x2 Hx1 Hx2. apply H12; [done|by right].
Qed.

Lemma sorted_names_NoDup l : StronglySorted R l -> NoDup (name h <$> l).
Proof.
  induction l as [|x l IH]; intros Hs; simpl; [apply NoDup_nil_2|].
  apply StronglySorted_cons in Hs as [Hx Hs]. apply NoDup_cons. split; [|by apply IH].
  intros Hin. apply list_elem_of_fmap in Hin as (y & Hy & Hyl).
  pose proof (proj1 (Forall_forall _ _) Hx y Hyl) as Hlt.
  unfold Node_lt in Hlt. rewrite Hy, string_ltb_irrefl in Hlt. done.
Qed.

(** Two lists of siblings in ascending order with the same elements are
    the same list. *)
Lemma sorted_unique l1 l2 :
  StronglySorted R l1 -> StronglySorted R l2 -> l1 ≡ₚ l2 -> l1 = l2.
Proof.
  apply StronglySorted_unique_strong.
  intros x1 x2 _ _ H12 H21. unfold Node_lt in *.
  pose proof (string_ltb_trans _ _ _ H12 H21) as Hxx.
  by rewrite string_ltb_irrefl in Hxx.
Qed.
End Sorting.

Lemma sorted_ext h h' l :
  (∀ x, x ∈ l -> name h' x = name h x) ->
  StronglySorted (fun a b => Node_lt h a b = true) l ->
  StronglySorted (fun a b => Node_lt h' a b = true) l.
Proof.
  induction l as [|x l IH]; intros Hn Hs; [constructor|].
  apply StronglySorted_cons in Hs as [Hx Hs]. apply StronglySorted_cons. split.
  - apply Forall_forall. intros y Hy. pose proof (proj1 (Forall_forall _ _) Hx y Hy) as Hlt.
    unfold Node_lt in *. rewrite (Hn x), (Hn y); [done|by right|left].
  - apply IH; [|done]. intros y Hy. apply Hn. by right.
Qed.

(** ** The calls inside [delete] and [move] *)

Lemma children_by_id_dom (h : gmap string Node) self nid :
  nid ∈ _children_by_id (h !!! self) -> self ∈ dom h.
Proof.
  intros H. apply elem_of_dom. destruct (h !! self) eqn:E; [eauto|].
  rewrite (total_lookup_None _ _ E) in H. by apply elem_of_empty in H.
Qed.

(** [remove_child] keeps the order of the children that stay. *)
Lemma remove_child_order h self nid force h' :
  remove_child h self nid force = (h', Return true) ->
  ∃ l1 y l2, children (h !!! self) = l1 ++ y :: l2 ∧ children (h' !!! self) = l1 ++ l2.
Proof.
  unfold remove_child. intros H.
  destruct (decide (nid ∈ _children_by_id (h !!! self))) as [Hin|]; [|done].
  destruct (negb (is_leaf h nid) && negb force); [done|].
  destruct (remove_where (Node_eq h nid) (children (h !!! self))) as [l|] eqn:Hl; [|done].
  injection H as <-.
  apply remove_where_split in Hl as (l1 & y & l2 & Hsplit & -> & _).
  exists l1, y, l2. split; [done|].
  rewrite total_alter_eq; [done|]. rewrite dom_alter_L. by eapply children_by_id_dom.
Qed.

(** [move_cases] with the two calls that re-parent. *)
Lemma move_trace s nid to :
  wf s ->
  move s nid to = (s, Return false)
  ∨ ∃ h1 h2 op,
      reparented s nid to h2
      ∧ parent (_nodes s !!! nid) = Some op
      ∧ add_child (_nodes s) to nid = Some (h1, true) ∧ attached (_nodes s) to nid h1
      ∧ remove_child h1 op nid true = (h2, Return true) ∧ detached h1 op nid h2
      ∧ move s nid to =
          match resplice h2 (_preorder s) nid with
          | Return l => (with_preorder l (with_nodes h2 s), Return true)
          | Raise e => (with_nodes h2 s, Raise e)
          | Diverge => (with_nodes h2 s, Diverge)
          end.
Proof.
  intros W. pose proof (wf_nodes _ W) as Wh. unfold move.
  destruct (decide (nid ∉ dom (_nodes s) ∨ to ∉ dom (_nodes s) ∨ nid = to)) as [|Hn]; [by left|].
  assert (Hnid : nid ∈ dom (_nodes s)).
  { destruct (decide (nid ∈ dom (_nodes s))); [done|]. destruct Hn. by left. }
  assert (Hto : to ∈ dom (_nodes s)).
  { destruct (decide (to ∈ dom (_nodes s))); [done|]. destruct Hn. right. by left. }
  assert (Hne : nid ≠ to) by (intros ->; apply Hn; right; by right).
  destruct (parent (_nodes s !!! nid)) as [op|] eqn:Hop; [|by left].
  destruct (String.eqb_spec op to) as [|Hopto]; [by left|].
  destruct (ancestor_walk_desc _ nid to Wh Hto Hne) as (b & -> & Hb).
  destruct b; [by left|].
  assert (Hnd : ¬ desc (_nodes s) nid to) by (intros Hd; by apply Hb in Hd).
  destruct (add_child_spec _ to nid Wh Hto Hnid Hne Hnd) as [->|(h1 & -> & Hatt)]; [by left|].
  right.
  pose proof Hatt as (Hdom1 & _ & Hp1 & Hc1 & Hi1 & Hn1 & _).
  assert (Hupc : child (_nodes s) op nid) by (by apply (wf_up_child _ Wh)).
  destruct (remove_child_spec h1 op nid true) as (h2 & Hrm & Hdet).
  - rewrite Hdom1. eapply children_elem_dom, Hupc.
  - rewrite Hi1, decide_False by done. by apply (links_by_id _ _ _ _ (proj1 Wh)).
  - by rewrite Hc1, decide_False.
  - rewrite Hc1, decide_False by done.
    replace (name h1 <$> children (_nodes s !!! op))
      with (name (_nodes s) <$> children (_nodes s !!! op)).
    + apply (links_names _ _ _ _ (proj1 Wh)).
    + apply list_fmap_ext. intros i x _. unfold name. by rewrite Hn1.
  - by right.
  - rewrite Hrm. exists h1, h2, op.
    assert (Wh2 : wf_heap h2).
    { eapply (reparent_wf _ nid to h1 h2 Wh); eauto.
      + rewrite Hop. congruence.
      + by rewrite Hop. }
    split; [|done]. exists h1, op. done.
Qed.

(** [delete_cases] with the call that detaches the leaf. *)
Lemma delete_trace s nid :
  wf s ->
  delete s nid = (s, Return false)
  ∨ (nid ∈ dom (_nodes s) ∧ parent (_nodes s !!! nid) = None ∧ size (_nodes s) = 1
     ∧ delete s nid = (cleared s, Return true))
  ∨ (∃ op h1, up (_nodes s) nid op ∧ children (_nodes s !!! nid) = []
       ∧ remove_child (_nodes s) op nid false = (h1, Return true)
       ∧ detached (_nodes s) op nid h1
       ∧ delete s nid
         = match py_remove nid (_preorder s) with
           | Some l => (with_preorder l (with_nodes (base.delete nid h1) s), Return true)
           | None => (with_nodes (base.delete nid h1) s, Raise ValueError)
           end).
Proof.
  intros W. pose proof (wf_nodes _ W) as Wh. unfold delete.
  destruct (_nodes s !! nid) as [n|] eqn:Hn; [|by left].
  pose proof (total_lookup_Some _ _ _ Hn) as Hn'.
  destruct (parent n) as [op|] eqn:Hop.
  - assert (Hup : up (_nodes s) nid op) by (unfold up; by rewrite Hn').
    pose proof (wf_up_child _ Wh _ _ Hup) as Hch.
    assert (Hid : nid ∈ _children_by_id (_nodes s !!! op)).
    { by apply (links_by_id _ _ _ _ (proj1 Wh)). }
    destruct (is_leaf (_nodes s) nid) eqn:Hleaf.
    + destruct (remove_child_spec (_nodes s) op nid false) as (h1 & Hrm & Hdet); auto.
      { eapply children_elem_dom, Hch. }
      { apply (links_names _ _ _ _ (proj1 Wh)). }
      rewrite Hrm.
      right; right. exists op, h1. repeat (split; [done|]). split; [|done].
      unfold is_leaf in Hleaf. by destruct (children (_nodes s !!! nid)).
    + left. unfold remove_child. rewrite decide_True, Hleaf by done. simpl.
      by rewrite with_nodes_same.
  - destruct (decide (size (_nodes s) = 1)) as [Hsz|]; [|by left].
    right; left. split; [by eapply elem_of_dom_2|]. by rewrite Hn'.
Qed.

(** ** Siblings stay in order of name *)

Lemma sorted_children_empty : sorted_children ∅.
Proof. intros p. rewrite total_lookup_None by apply lookup_empty. constructor. Qed.

Lemma sorted_attached h self node h' :
  wf_heap h -> sorted_children h -> attached h self node h' -> sorted_children h'.
Proof.
  intros W Hs (_ & Hfresh & _ & Hc & _ & Hn & _) x. rewrite Hc.
  assert (Hnm : ∀ z, name h' z = name h z) by (intros z; apply Hn).
  apply (sorted_ext h h'); [auto|].
  destruct (decide (x = self)) as [->|_]; [|apply Hs].
  apply py_sort_sorted. rewrite fmap_app. simpl. apply NoDup_app.
  split; [apply (links_names _ _ _ _ (proj1 W))|].
  split; [|apply NoDup_singleton].
  intros y Hy Hy'. apply list_elem_of_singleton in Hy'. by subst y.
Qed.

Lemma sorted_detached h self nid force h' :
  sorted_children h -> remove_child h self nid force = (h', Return true) ->
  detached h self nid h' -> sorted_children h'.
Proof.
  intros Hs Hrm (_ & (l' & _ & Hc) & _ & _ & Hn & _) x.
  assert (Hnm : ∀ z, name h' z = name h z) by (intros z; apply Hn).
  apply (sorted_ext h h'); [auto|].
  destruct (decide (x = self)) as [->|Hx].
  - apply remove_child_order in Hrm as (l1 & y & l2 & H1 & ->).
    apply (sorted_remove h l1 y l2). rewrite <- H1. apply Hs.
  - rewrite Hc, decide_False by done. apply Hs.
Qed.

Lemma sorted_add s node par s' r :
  wf s -> sorted_children (_nodes s) -> add s node par = (s', r) ->
  sorted_children (_nodes s').
Proof.
  intros W Hs H. destruct node as [[nid nm]|]; [|by injection H as <- _].
  destruct (add_cases s nid nm par W)
    as [Ha|[(_ & _ & Ha)|(p & h' & _ & _ & Hfresh & Hp & Hatt & Wh' & Ha)]];
    rewrite Ha in H.
  - by injection H as <- _.
  - injection H as <- _. simpl. intros x.
    destruct (decide (x = nid)) as [->|Hx].
    + rewrite lookup_total_singleton_eq. constructor.
    + rewrite lookup_total_singleton_ne by done. constructor.
  - assert (Hs' : sorted_children h').
    { eapply sorted_attached; [|
        |exact Hatt].
      - apply wf_heap_insert_fresh; [apply (wf_nodes _ W)|done].
      - intros x. destruct (decide (x = nid)) as [->|Hx].
        + rewrite lookup_total_insert_eq. constructor.
        + rewrite lookup_total_insert_ne by done.
          eapply sorted_ext; [|apply Hs].
          intros z Hz. unfold name. rewrite lookup_total_insert_ne; [done|].
          intros <-. apply Hfresh.
          by apply (wf_child_up _ (wf_nodes _ W)), (wf_up_dom _ (wf_nodes _ W)) in Hz as [? _]. }
    destruct (preorder_predecessor h' nid) as [[pred|]| |].
    + destruct (index pred (_preorder s)); by injection H as <- _.
    + by injection H as <- _.
    + by injection H as <- _.
    + by injection H as <- _.
Qed.

Lemma sorted_delete s nid s' r :
  wf s -> sorted_children (_nodes s) -> delete s nid = (s', r) ->
  sorted_children (_nodes s').
Proof.
  intros W Hs H.
  destruct (delete_trace s nid W)
    as [Hd|[(_ & _ & _ & Hd)|(op & h1 & Hup & Hleaf & Hrm & Hdet & Hd)]]; rewrite Hd in H.
  - by injection H as <- _.
  - injection H as <- _. apply sorted_children_empty.
  - pose proof (sorted_detached _ _ _ _ _ Hs Hrm Hdet) as Hs1.
    assert (Hs' : sorted_children (base.delete nid h1)).
    { pose proof (drop_leaf_wf _ _ _ _ (wf_nodes _ W) Hup Hleaf Hdet) as W'.
      intros x. destruct (decide (x = nid)) as [->|Hx].
      - rewrite lookup_total_delete_eq. constructor.
      - rewrite lookup_total_delete_ne by done.
        eapply sorted_ext; [|apply Hs1].
        intros z Hz. unfold name. rewrite lookup_total_delete_ne; [done|].
        intros <-.
        assert (Hc : child (base.delete nid h1) x nid).
        { unfold child. by rewrite lookup_total_delete_ne. }
        apply (wf_child_up _ W'), (wf_up_dom _ W') in Hc as [Hc _].
        rewrite dom_delete_L in Hc. apply elem_of_difference in Hc as [_ Hc].
        by apply Hc, elem_of_singleton. }
    destruct (py_remove nid (_preorder s)); by injection H as <- _.
Qed.

Lemma sorted_move s nid to s' r :
  wf s -> sorted_children (_nodes s) -> move s nid to = (s', r) ->
  sorted_children (_nodes s').
Proof.
  intros W Hs H.
  destruct (move_trace s nid to W)
    as [Hm|(h1 & h2 & op & _ & _ & _ & Hatt & Hrm & Hdet & Hm)]; rewrite Hm in H.
  - by injection H as <- _.
  - assert (Hs' : sorted_children h2).
    { eapply sorted_detached; [|exact Hrm|exact Hdet].
      eapply sorted_attached; [apply (wf_nodes _ W)|exact Hs|exact Hatt]. }
    destruct (resplice h2 (_preorder s) nid); by injection H as <- _.
Qed.

Lemma reachable_sorted s : reachable s -> sorted_children (_nodes s).
Proof.
  induction 1 as [|s node par s' b Hr IH H|s nid s' b Hr IH H|s nid to s' b Hr IH H].
  - apply sorted_children_empty.
  - eapply sorted_add; eauto using reachable_wf.
  - eapply sorted_delete; eauto using reachable_wf.
  - eapply sorted_move; eauto using reachable_wf.
Qed.

(** In every reachable store the children of every node are in strictly
    ascending order of name; in particular no two siblings share a name. *)
Theorem siblings_sorted s p :
  reachable s ->
  StronglySorted (fun a b => String.ltb (name (_nodes s) a) (name (_nodes s) b) = true)
                 (children (_nodes s !!! p))
  ∧ NoDup (name (_nodes s) <$> children (_nodes s !!! p)).
Proof.
  intros Hr. pose proof (reachable_sorted s Hr) as Hs.
  split; [apply Hs|]. apply sorted_names_NoDup, Hs.
Qed.

(** An instance of [siblings_sorted]: the child named [a] comes first,
    although it was added last. *)
Lemma siblings_sorted_witness :
  reachable store_ba
  ∧ children (_nodes store_ba !!! "1") = ["3"; "2"]
  ∧ StronglySorted
      (fun a b => String.ltb (name (_nodes store_ba) a) (name (_nodes store_ba) b) = true)
      (children (_nodes store_ba !!! "1")).
Proof.
  assert (Hr : reachable store_ba).
  { unfold store_ba, store_root.
    repeat (apply reachable_add_to; [|exists true; vm_compute; reflexivity]).
    apply reach_init. }
  split; [exact Hr|]. split; [vm_compute; reflexivity|].
  apply (siblings_sorted store_ba "1" Hr).
Defined.

(** ** Links and depths *)

(** In every reachable store the [parent] fields and the [children] lists
    say the same, [_children_by_id] holds exactly the ids of [children],
    and both ends of every link are nodes of the index. *)
Theorem links_consistent s :
  reachable s ->
  (∀ x p, parent (_nodes s !!! x) = Some p <-> x ∈ children (_nodes s !!! p))
  ∧ (∀ p c, c ∈ _children_by_id (_nodes s !!! p) <-> c ∈ children (_nodes s !!! p))
  ∧ (∀ x p, parent (_nodes s !!! x) = Some p -> x ∈ dom (_nodes s) ∧ p ∈ dom (_nodes s)).
Proof.
  intros Hr. pose proof (wf_nodes _ (reachable_wf s Hr)) as Wh.
  split; [|split].
  - intros x p. split; [apply (wf_up_child _ Wh)|apply (wf_child_up _ Wh)].
  - apply (links_by_id _ _ _ _ (proj1 Wh)).
  - intros x p. apply (wf_up_dom _ Wh).
Qed.

(** An instance of [links_consistent]. *)
Lemma links_consistent_witness :
  reachable store_chain
  ∧ (parent (_nodes store_chain !!! "c") = Some "b"
     <-> "c" ∈ children (_nodes store_chain !!! "b"))
  ∧ ("c" ∈ _children_by_id (_nodes store_chain !!! "b")
     <-> "c" ∈ children (_nodes store_chain !!! "b")).
Proof.
  assert (Hr : reachable store_chain).
  { unfold store_chain, store_root.
    repeat (apply reachable_add_to; [|exists true; vm_compute; reflexivity]).
    apply reach_init. }
  destruct (links_consistent store_chain Hr) as (H1 & H2 & _).
  split; [exact Hr|]. split; [apply H1|apply H2].
Defined.

(** In every reachable store the cached depth of a node is one more than
    that of its parent, it is 0 for the node without a parent, and it is
    below the number of nodes. *)
Theorem depths_consistent s x :
  reachable s -> x ∈ dom (_nodes s) ->
  depth (_nodes s) x
  = match parent (_nodes s !!! x) with
    | Some p => S (depth (_nodes s) p)
    | None => 0
    end
  ∧ depth (_nodes s) x < size (_nodes s).
Proof.
  intros Hr Hx. pose proof (wf_nodes _ (reachable_wf s Hr)) as Wh.
  split; [apply (proj2 Wh)|by apply depth_lt_size].
Qed.

(** An instance of [depths_consistent]. *)
Lemma depths_consistent_witness :
  reachable store_chain ∧ "c" ∈ dom (_nodes store_chain)
  ∧ depth (_nodes store_chain) "c" = S (depth (_nodes store_chain) "b")
  ∧ depth (_nodes store_chain) "c" < size (_nodes store_chain).
Proof.
  assert (Hr : reachable store_chain).
  { unfold store_chain, store_root.
    repeat (apply reachable_add_to; [|exists true; vm_compute; reflexivity]).
    apply reach_init. }
  assert (Hc : "c" ∈ dom (_nodes store_chain)).
  { apply elem_of_dom. vm_compute. eauto. }
  destruct (depths_consistent store_chain "c" Hr Hc) as [H1 H2].
  split; [exact Hr|]. split; [exact Hc|]. split; [|exact H2].
  assert (Hp : parent (_nodes store_chain !!! "c") = Some "b") by (vm_compute; reflexivity).
  by rewrite Hp in H1.
Defined.

(** An instance of [false_leaves_store]: [delete] of the node [b], which
    has a child, and [move] of [b] under its child. *)
Lemma false_leaves_store_witness :
  reachable store_chain
  ∧ fst (delete store_chain "b") = store_chain
  ∧ fst (move store_chain "b" "c") = store_chain.
Proof.
  assert (Hr : reachable store_chain).
  { unfold store_chain, store_root.
    repeat (apply reachable_add_to; [|exists true; vm_compute; reflexivity]).
    apply reach_init. }
  destruct (false_leaves_store store_chain Hr) as (_ & Hd & Hm).
  split; [exact Hr|]. split.
  - assert (E : snd (delete store_chain "b") = Return false) by (vm_compute; reflexivity).
    destruct (delete store_chain "b") as [s' r] eqn:Hs'. simpl in E. subst r.
    simpl. by apply (Hd "b").
  - assert (E : snd (move store_chain "b" "c") = Return false) by (vm_compute; reflexivity).
    destruct (move store_chain "b" "c") as [s' r] eqn:Hs'. simpl in E. subst r.
    simpl. by apply (Hm "b" "c").
Defined.

(** An instance of [calls_end]. *)
Lemma calls_end_witness :
  reachable store_chain
  ∧ snd (move store_chain "b" "a") ≠ Diverge
  ∧ query store_chain None None (Some ["b"]) None None ≠ Diverge.
Proof.
  assert (Hr : reachable store_chain).
  { unfold store_chain, store_root.
    repeat (apply reachable_add_to; [|exists true; vm_compute; reflexivity]).
    apply reach_init. }
  destruct (calls_end store_chain Hr) as (_ & _ & Hm & Hq).
  split; [exact Hr|]. split; [apply Hm|apply Hq].
Defined.

(** ** When the operations refuse *)

Lemma existsb_Node_eq_iff h node l :
  existsb (Node_eq h node) l = true <-> name h node ∈ (name h <$> l).
Proof.
  split.
  - intros H. apply existsb_exists in H as (c & Hc & Heq).
    unfold Node_eq in Heq. apply String.eqb_eq in Heq. rewrite Heq.
    apply list_elem_of_fmap. exists c. split; [done|]. by apply list_elem_of_In.
  - intros H. destruct (existsb (Node_eq h node) l) eqn:E; [done|].
    by apply existsb_Node_eq in E.
Qed.

Lemma add_child_refused_inv h self node h' :
  add_child h self node = Some (h', false) ->
  name h node ∈ (name h <$> children (h !!! self)).
Proof.
  unfold add_child. intros H. apply existsb_Node_eq_iff.
  destruct (existsb (Node_eq h node) (children (h !!! self))); [done|].
  destruct (set_depth _ _ _ _); simpl in H; congruence.
Qed.

Lemma add_child_duplicate h self node :
  name h node ∈ (name h <$> children (h !!! self)) -> add_child h self node = Some (h, false).
Proof. intros H. apply existsb_Node_eq_iff in H. unfold add_child. by rewrite H. Qed.

(** In a reachable store, [add] under a parent returns False exactly when
    the id is already in the index, the parent is not in it, or a child
    of the parent has the name of the new node. *)
Theorem add_child_refused_iff s nid nm p :
  reachable s -> truthy_str (Some p) = true ->
  snd (add s (Some (nid, nm)) (Some p)) = Return false
  <-> nid ∈ dom (_nodes s) ∨ p ∉ dom (_nodes s)
      ∨ nm ∈ (name (_nodes s) <$> children (_nodes s !!! p)).
Proof.
  intros Hr Htr. pose proof (reachable_wf s Hr) as W. pose proof (wf_nodes _ W) as Wh.
  unfold add. rewrite Htr. cbn [negb default from_option id].
  destruct (decide (nid ∈ dom (_nodes s))) as [Hin|Hfresh]; [by split; auto|].
  destruct (decide (p ∈ dom (_nodes s))) as [Hp|Hp]; [|by split; auto].
  set (h0 := <[nid := Node_init nm]> (_nodes s)).
  assert (Hnp : nid ≠ p) by (by intros ->).
  assert (Hnames : name h0 nid ∈ (name h0 <$> children (h0 !!! p))
                   <-> nm ∈ (name (_nodes s) <$> children (_nodes s !!! p))).
  { unfold h0 at 1. unfold name at 1. rewrite lookup_total_insert_eq. simpl.
    unfold h0 at 2. rewrite lookup_total_insert_ne by done.
    replace (name h0 <$> children (_nodes s !!! p))
      with (name (_nodes s) <$> children (_nodes s !!! p)); [done|].
    apply list_fmap_ext. intros i c Hc. unfold name, h0.
    rewrite lookup_total_insert_ne; [done|]. intros <-. apply Hfresh.
    apply list_elem_of_lookup_2 in Hc.
    by apply (wf_child_up _ Wh), (wf_up_dom _ Wh) in Hc as [? _]. }
  destruct (add_child h0 p nid) as [[h' [|]]|] eqn:Ha.
  - split.
    + destruct (preorder_predecessor h' nid) as [[pred|]| |]; try done.
      by destruct (index pred (_preorder s)).
    + intros [?|[?|Hdup]]; [done|done|].
      apply Hnames, add_child_duplicate in Hdup. congruence.
  - split; [intros _|done]. right; right. by eapply Hnames, add_child_refused_inv.
  - split; [done|]. intros [?|[?|Hdup]]; [done|done|].
    apply Hnames, add_child_duplicate in Hdup. congruence.
Qed.

(** An instance of [add_child_refused_iff]: a second child named [c]
    under [b]. *)
Lemma add_child_refused_iff_witness :
  reachable store_chain ∧ truthy_str (Some "b") = true
  ∧ snd (add store_chain (Some ("x", "c")) (Some "b")) = Return false.
Proof.
  assert (Hr : reachable store_chain).
  { unfold store_chain, store_root.
    repeat (apply reachable_add_to; [|exists true; vm_compute; reflexivity]).
    apply reach_init. }
  split; [exact Hr|]. split; [reflexivity|].
  apply (add_child_refused_iff store_chain "x" "c" "b" Hr eq_refl).
  right; right. vm_compute. apply list_elem_of_here.
Defined.

Lemma move_proceeds s nid to op :
  wf s -> nid ∈ dom (_nodes s) -> to ∈ dom (_nodes s) -> nid ≠ to ->
  parent (_nodes s !!! nid) = Some op -> op ≠ to -> ¬ desc (_nodes s) nid to ->
  name (_nodes s) nid ∉ (name (_nodes s) <$> children (_nodes s !!! to)) ->
  snd (move s nid to) ≠ Return false.
Proof.
  intros W Hnid Hto Hne Hop Hopto Hnd Hfresh.
  destruct (move_trace s nid to W) as [Hm|(h1 & h2 & op' & _ & _ & _ & _ & _ & _ & Hm)].
  - exfalso. pose proof (wf_nodes _ W) as Wh. unfold move in Hm.
    rewrite decide_False in Hm by (intros [?|[?|?]]; done).
    rewrite Hop in Hm. destruct (String.eqb_spec op to); [done|].
    destruct (ancestor_walk_desc _ nid to Wh Hto Hne) as (b & Hw & Hb).
    rewrite Hw in Hm. destruct b; [by apply Hnd, Hb|].
    destruct (add_child_spec _ to nid Wh Hto Hnid Hne Hnd) as [Ha|(h1 & Ha & Hatt)].
    + by apply add_child_refused_inv in Ha.
    + rewrite Ha in Hm.
      destruct (remove_child h1 op nid true) as [h2 [b| |]]; try done.
      destruct (resplice h2 (_preorder s) nid); done.
  - rewrite Hm. by destruct (resplice h2 (_preorder s) nid).
Qed.

(** In a reachable store, [move nid to] returns False exactly when one of
    the ids is not in the index, the two are the same, [nid] has no
    parent, [to] is the parent of [nid] or lies in the subtree of [nid],
    or a child of [to] has the name of [nid]. *)
Theorem move_refused_iff s nid to :
  reachable s ->
  snd (move s nid to) = Return false
  <-> nid ∉ dom (_nodes s) ∨ to ∉ dom (_nodes s) ∨ nid = to
      ∨ parent (_nodes s !!! nid) = None
      ∨ parent (_nodes s !!! nid) = Some to
      ∨ desc (_nodes s) nid to
      ∨ name (_nodes s) nid ∈ (name (_nodes s) <$> children (_nodes s !!! to)).
Proof.
  intros Hr. pose proof (reachable_wf s Hr) as W. pose proof (wf_nodes _ W) as Wh. split.
  - intros H.
    destruct (decide (nid ∈ dom (_nodes s))) as [Hnid|]; [|auto].
    destruct (decide (to ∈ dom (_nodes s))) as [Hto|]; [|auto].
    destruct (decide (nid = to)) as [|Hne]; [auto|].
    destruct (parent (_nodes s !!! nid)) as [op|] eqn:Hop; [|auto 10].
    destruct (decide (op = to)) as [->|Hopto]; [auto 10|].
    destruct (ancestor_walk_desc _ nid to Wh Hto Hne) as ([|] & _ & Hb).
    { right; right; right; right; right; left. by apply Hb. }
    assert (Hnd : ¬ desc (_nodes s) nid to) by (intros Hd; by apply Hb in Hd).
    destruct (decide (name (_nodes s) nid ∈ (name (_nodes s) <$> children (_nodes s !!! to))))
      as [|Hfresh]; [auto 10|].
    exfalso. by eapply (move_proceeds s nid to op).
  - intros Hwhy.
    destruct (move_trace s nid to W)
      as [Hm|(h1 & h2 & op & Hrep & _ & _ & Hatt & _)]; [by rewrite Hm|].
    exfalso.
    destruct Hrep as (_ & op' & Hnid & Hto & Hne & Hop & Hopto & Hnd & _).
    destruct Hatt as (_ & Hfresh & _).
    destruct Hwhy as [?|[?|[?|[?|[?|[?|?]]]]]]; try done; congruence.
Qed.

(** An instance of [move_refused_iff]: [c] cannot move under [a] once
    [a] has a child named [c]. *)
Lemma move_refused_iff_witness :
  reachable (add_to store_chain "d" "c" (Some "a"))
  ∧ snd (move (add_to store_chain "d" "c" (Some "a")) "c" "a") = Return false.
Proof.
  assert (Hr : reachable (add_to store_chain "d" "c" (Some "a"))).
  { unfold store_chain, store_root.
    repeat (apply reachable_add_to; [|exists true; vm_compute; reflexivity]).
    apply reach_init. }
  split; [exact Hr|].
  apply (move_refused_iff _ "c" "a" Hr).
  do 6 right. vm_compute. apply list_elem_of_here.
Defined.

(** ** What [move] and [delete] change *)

(** A move that does not return False has re-parented the node, also when
    it raises afterwards: the index has the same ids and names, only the
    parent of [nid] changed, it is [to], the depths in the subtree of
    [nid] moved by the same amount, to one more than the depth of [to] at
    [nid], and no other depth and not the root changed. *)
Theorem move_reparents s nid to s' r :
  reachable s -> move s nid to = (s', r) -> r ≠ Return false ->
  dom (_nodes s') = dom (_nodes s) ∧ _root s' = _root s
  ∧ (∀ x, parent (_nodes s' !!! x)
          = if decide (x = nid) then Some to else parent (_nodes s !!! x))
  ∧ (∀ x, name (_nodes s') x = name (_nodes s) x)
  ∧ depth (_nodes s') nid = S (depth (_nodes s) to)
  ∧ (∀ y, desc (_nodes s) nid y ->
          depth (_nodes s') y + depth (_nodes s) nid
          = depth (_nodes s') nid + depth (_nodes s) y)
  ∧ (∀ y, ¬ desc (_nodes s) nid y -> depth (_nodes s') y = depth (_nodes s) y).
Proof.
  intros Hr H Hnf. pose proof (reachable_wf s Hr) as W.
  destruct (move_trace s nid to W)
    as [Hm|(h1 & h2 & op & _ & _ & _ & Hatt & _ & Hdet & Hm)]; rewrite Hm in H.
  { injection H as _ <-. done. }
  assert (Hs' : _nodes s' = h2 ∧ _root s' = _root s).
  { destruct (resplice h2 (_preorder s) nid); by injection H as <- _. }
  destruct Hs' as [-> ->].
  destruct Hatt as (Hd1 & _ & Hp1 & _ & _ & Hn1 & Hform & Hchg).
  destruct Hdet as (Hd2 & _ & _ & Hp2 & Hn2 & Hdp2).
  assert (Hnid : depth h1 nid = S (depth (_nodes s) to)).
  { pose proof (Hform nid (rtc_refl _ _)). lia. }
  split; [congruence|]. split; [done|].
  split; [intros x; by rewrite Hp2, Hp1|].
  split; [intros x; unfold name; by rewrite Hn2, Hn1|].
  split; [by rewrite Hdp2|]. split.
  - intros y Hy. rewrite !Hdp2, Hnid. by apply Hform.
  - intros y Hy. rewrite Hdp2. by destruct (Hchg y).
Qed.

(** An instance of [move_reparents]: the move of [b], with its child [c],
    under [a]. *)
Lemma move_reparents_witness :
  reachable store_chain ∧ snd (move store_chain "b" "a") ≠ Return false
  ∧ parent (_nodes (fst (move store_chain "b" "a")) !!! "b") = Some "a"
  ∧ depth (_nodes (fst (move store_chain "b" "a"))) "b" = 2.
Proof.
  assert (Hr : reachable store_chain).
  { unfold store_chain, store_root.
    repeat (apply reachable_add_to; [|exists true; vm_compute; reflexivity]).
    apply reach_init. }
  assert (Hnf : snd (move store_chain "b" "a") ≠ Return false) by (vm_compute; discriminate).
  split; [exact Hr|]. split; [exact Hnf|].
  destruct (move store_chain "b" "a") as [s' r] eqn:Hm. cbn [fst snd] in *.
  destruct (move_reparents store_chain "b" "a" s' r Hr Hm Hnf) as (_ & _ & Hp & _ & Hd & _).
  split.
  - by rewrite Hp, decide_True.
  - rewrite Hd. vm_compute. reflexivity.
Defined.

(** The node without a parent has no children only when it is alone. *)
Lemma root_leaf_alone s r :
  wf s -> r ∈ dom (_nodes s) -> parent (_nodes s !!! r) = None ->
  children (_nodes s !!! r) = [] <-> size (_nodes s) = 1.
Proof.
  intros W Hr Hp. pose proof (wf_nodes _ W) as Wh.
  rewrite (only_node_size _ r Hr). split.
  - intros Hleaf.
    assert (Hall : ∀ d x, depth (_nodes s) x = d -> x ∈ dom (_nodes s) -> x = r).
    { induction d as [|d IH]; intros x Hd Hx.
      - destruct (parent (_nodes s !!! x)) as [p|] eqn:Hpx.
        + apply (wf_up_depth _ Wh) in Hpx. lia.
        + pose proof (wf_single _ W x Hx Hpx). pose proof (wf_single _ W r Hr Hp). congruence.
      - destruct (parent (_nodes s !!! x)) as [p|] eqn:Hpx.
        + pose proof (wf_up_depth _ Wh _ _ Hpx).
          destruct (wf_up_dom _ Wh _ _ Hpx) as [_ Hpd].
          assert (p = r) as -> by (apply IH; [lia|done]).
          apply (wf_up_child _ Wh) in Hpx. unfold child in Hpx. rewrite Hleaf in Hpx.
          by apply elem_of_nil in Hpx.
        + pose proof (proj2 Wh x) as Hdx. rewrite Hpx in Hdx. lia. }
    apply set_eq. intros x. rewrite elem_of_singleton. split; [by apply (Hall _ x eq_refl)|].
    by intros ->.
  - intros Hdom. destruct (children (_nodes s !!! r)) as [|c l] eqn:Hc; [done|].
    assert (Hch : child (_nodes s) r c) by (unfold child; rewrite Hc; left).
    apply (wf_child_up _ Wh) in Hch. destruct (wf_up_dom _ Wh _ _ Hch) as [Hcd _].
    rewrite Hdom in Hcd. apply elem_of_singleton in Hcd. subst c.
    apply (wf_up_depth _ Wh) in Hch. lia.
Qed.

Lemma delete_refused_wf s nid :
  wf s ->
  snd (delete s nid) = Return false
  <-> nid ∉ dom (_nodes s) ∨ children (_nodes s !!! nid) ≠ [].
Proof.
  intros W. pose proof (wf_nodes _ W) as Wh.
  destruct (decide (nid ∈ dom (_nodes s))) as [Hin|Hin].
  2:{ split; [auto|]. intros _. unfold delete.
      apply not_elem_of_dom in Hin. by rewrite Hin. }
  destruct (delete_trace s nid W)
    as [Hd|[(_ & Hp & Hsz & Hd)|(op & h1 & _ & Hleaf & _ & _ & Hd)]]; rewrite Hd.
  - split; [intros _|done]. right. intros Hleaf.
    unfold delete in Hd. apply elem_of_dom in Hin as [n Hn].
    rewrite Hn in Hd. pose proof (total_lookup_Some _ _ _ Hn) as Hn'.
    destruct (parent n) as [op|] eqn:Hop.
    + assert (Hup : up (_nodes s) nid op) by (unfold up; by rewrite Hn').
      pose proof (wf_up_child _ Wh _ _ Hup) as Hch.
      destruct (remove_child_spec (_nodes s) op nid false) as (h1 & Hrm & _).
      * eapply children_elem_dom, Hch.
      * by apply (links_by_id _ _ _ _ (proj1 Wh)).
      * done.
      * apply (links_names _ _ _ _ (proj1 Wh)).
      * left. unfold is_leaf. by rewrite Hleaf.
      * rewrite Hrm in Hd. by destruct (py_remove nid (_preorder s)).
    + rewrite decide_True in Hd; [done|].
      apply (root_leaf_alone s nid W); [by eapply elem_of_dom_2|by rewrite Hn'|done].
  - split; [done|]. intros [?|Hch]; [done|]. destruct Hch.
    by apply (root_leaf_alone s nid W).
  - split.
    + by destruct (py_remove nid (_preorder s)).
    + intros [?|?]; done.
Qed.

(** In a reachable store, [delete] returns False exactly when the id is
    not in the index or the node has children: only leaves are deleted,
    and the root only as the last node. *)
Theorem delete_refused_iff s nid :
  reachable s ->
  snd (delete s nid) = Return false
  <-> nid ∉ dom (_nodes s) ∨ children (_nodes s !!! nid) ≠ [].
Proof. intros Hr. apply delete_refused_wf. by apply reachable_wf. Qed.

(** An instance of [delete_refused_iff]: the node [b] has the child [c]. *)
Lemma delete_refused_iff_witness :
  reachable store_chain ∧ snd (delete store_chain "b") = Return false.
Proof.
  assert (Hr : reachable store_chain).
  { unfold store_chain, store_root.
    repeat (apply reachable_add_to; [|exists true; vm_compute; reflexivity]).
    apply reach_init. }
  split; [exact Hr|]. apply (delete_refused_iff store_chain "b" Hr).
  right. vm_compute. discriminate.
Defined.

(** The children lists after a leaf was dropped. *)
Lemma drop_leaf_children h nid op h1 :
  wf_heap h -> up h nid op -> children (h !!! nid) = [] ->
  remove_child h op nid false = (h1, Return true) -> detached h op nid h1 ->
  ∀ p, children (base.delete nid h1 !!! p) = filter (fun c => c ≠ nid) (children (h !!! p)).
Proof.
  intros Wh Hup Hleaf Hrm (Hd1 & (l' & Hperm & Hc1) & _) p.
  destruct (decide (p = nid)) as [->|Hpn].
  { by rewrite lookup_total_delete_eq, Hleaf. }
  rewrite lookup_total_delete_ne by done. rewrite Hc1.
  destruct (decide (p = op)) as [->|Hpo].
  - apply remove_child_order in Hrm as (l1 & y & l2 & Hsplit & Hl').
    rewrite Hc1, decide_True in Hl' by done. subst l'.
    pose proof (links_NoDup _ _ _ _ (proj1 Wh) op) as Hnd. simpl in Hnd.
    rewrite Hperm in Hnd. apply NoDup_cons in Hnd as [Hnot _].
    assert (y = nid) as ->.
    { assert (Hin : nid ∈ l1 ++ y :: l2) by (rewrite <- Hsplit, Hperm; left).
      apply elem_of_app in Hin as [?|Hin].
      - destruct Hnot. apply elem_of_app. auto.
      - apply elem_of_cons in Hin as [?|?]; [done|].
        destruct Hnot. apply elem_of_app. auto. }
    rewrite Hsplit, filter_app, filter_cons_False by (intros ?; done).
    rewrite !filter_all; [done| |].
    + intros x Hx ->. apply Hnot, elem_of_app. auto.
    + intros x Hx ->. apply Hnot, elem_of_app. auto.
  - rewrite filter_all; [done|]. intros x Hx ->.
    apply (wf_child_up _ Wh) in Hx. unfold up in *. congruence.
Qed.

(** A delete that does not return False has removed one leaf: the index
    lost [nid] and nothing else, [nid] is gone from every [children]
    list, whose order is otherwise kept, and the other nodes kept their
    parent, name and depth. *)
Theorem delete_removes_leaf s nid s' r :
  reachable s -> delete s nid = (s', r) -> r ≠ Return false ->
  children (_nodes s !!! nid) = []
  ∧ dom (_nodes s') = dom (_nodes s) ∖ {[nid]}
  ∧ (∀ p, children (_nodes s' !!! p) = filter (fun c => c ≠ nid) (children (_nodes s !!! p)))
  ∧ (∀ x, x ≠ nid ->
          parent (_nodes s' !!! x) = parent (_nodes s !!! x)
          ∧ name (_nodes s') x = name (_nodes s) x
          ∧ depth (_nodes s') x = depth (_nodes s) x).
Proof.
  intros Hr H Hnf. pose proof (reachable_wf s Hr) as W. pose proof (wf_nodes _ W) as Wh.
  destruct (delete_trace s nid W)
    as [Hd|[(Hin & Hp & Hsz & Hd)|(op & h1 & Hup & Hleaf & Hrm & Hdet & Hd)]];
    rewrite Hd in H.
  - injection H as _ <-. done.
  - injection H as <- _. simpl.
    pose proof (proj1 (only_node_size _ nid Hin) Hsz) as Hdom.
    assert (Hleaf : children (_nodes s !!! nid) = []) by (by apply (root_leaf_alone s nid W)).
    assert (Hdef : ∀ x, x ≠ nid -> _nodes s !!! x = Node_init ""%string).
    { intros x Hx. apply total_lookup_None, not_elem_of_dom. rewrite Hdom.
      by intros ?%elem_of_singleton. }
    assert (He : ∀ x, (∅ : gmap string Node) !!! x = Node_init ""%string).
    { intros x. apply total_lookup_None, lookup_empty. }
    split; [done|]. split.
    { rewrite Hdom, dom_empty_L. apply set_eq. intros x.
      rewrite elem_of_difference. split; [by intros ?%elem_of_empty|]. by intros [? ?]. }
    split.
    + intros p. rewrite He. simpl. destruct (decide (p = nid)) as [->|Hp'].
      * by rewrite Hleaf.
      * by rewrite (Hdef p Hp').
    + intros x Hx. unfold name, depth. rewrite He, (Hdef x Hx). done.
  - assert (Hn' : _nodes s' = base.delete nid h1).
    { destruct (py_remove nid (_preorder s)); by injection H as <- _. }
    rewrite Hn'. clear H Hd Hn'.
    pose proof Hdet as (Hd1 & (l' & Hperm & Hc1) & _ & Hp1 & Hn1 & Hdp1).
    assert (Hne : op ≠ nid).
    { intros ->. apply (wf_up_depth _ Wh) in Hup. lia. }
    split; [done|]. split; [by rewrite dom_delete_L, Hd1|]. split.
    + by apply (drop_leaf_children _ nid op h1 Wh Hup Hleaf Hrm Hdet).
    + intros x Hx. unfold name, depth. rewrite lookup_total_delete_ne by done.
      rewrite Hp1, Hn1. fold (depth h1 x). by rewrite Hdp1.
Qed.

(** An instance of [delete_removes_leaf]: the leaf [c] of [b]. *)
Lemma delete_removes_leaf_witness :
  reachable store_chain ∧ snd (delete store_chain "c") ≠ Return false
  ∧ children (_nodes (fst (delete store_chain "c")) !!! "b") = []
  ∧ dom (_nodes (fst (delete store_chain "c"))) = dom (_nodes store_chain) ∖ {["c"]}.
Proof.
  assert (Hr : reachable store_chain).
  { unfold store_chain, store_root.
    repeat (apply reachable_add_to; [|exists true; vm_compute; reflexivity]).
    apply reach_init. }
  assert (Hnf : snd (delete store_chain "c") ≠ Return false) by (vm_compute; discriminate).
  split; [exact Hr|]. split; [exact Hnf|].
  destruct (delete store_chain "c") as [s' r] eqn:Hd. cbn [fst snd] in *.
  destruct (delete_removes_leaf store_chain "c" s' r Hr Hd Hnf) as (_ & Hdom & Hch & _).
  split; [|exact Hdom].
  rewrite Hch. vm_compute. reflexivity.
Defined.

(** ** Queries by name and over the whole tree *)

Lemma select_filter h keep l :
  (∀ x, x ∈ l -> x ∈ dom h) ->
  select h keep l = Return (filter (fun x => keep (h !!! x) = true) l).
Proof.
  induction l as [|x l IH]; intros Hl; [done|]. cbn [select].
  assert (Hx : x ∈ dom h) by (apply Hl; left).
  apply elem_of_dom in Hx as [n Hn]. rewrite Hn.
  pose proof (total_lookup_Some _ _ _ Hn) as Ht.
  rewrite IH by (intros y Hy; apply Hl; by right). cbn [obind].
  destruct (keep n) eqn:Hk.
  - rewrite filter_cons_True; [done|]. by rewrite Ht.
  - rewrite filter_cons_False; [done|]. rewrite Ht. congruence.
Qed.

(** On a store whose cached list holds ids of the index only, a query
    with names and without ids returns the ids of the cached list whose
    node has one the names, in the order of the list; [roots] has no
    effect, and the depth bounds have none unless they are inverted. *)
Theorem query_by_names s ids names roots min_depth max_depth :
  truthy_list ids = false -> truthy_list names = true ->
  (∀ x, x ∈ _preorder s -> x ∈ dom (_nodes s)) ->
  query s ids names roots min_depth max_depth
  = if inverted min_depth max_depth then Return []
    else Return (filter (fun nid => str_in (name (_nodes s) nid) (uniq (default [] names)) = true)
                        (_preorder s)).
Proof.
  intros Hids Hnames Hpre. unfold query, inverted.
  destruct (decide (_nodes s = ∅)) as [He|Hne].
  - assert (_preorder s = []) as ->.
    { destruct (_preorder s) as [|x l]; [done|].
      assert (Hx : x ∈ dom (_nodes s)) by (apply Hpre; left).
      rewrite He, dom_empty_L in Hx. by apply elem_of_empty in Hx. }
    rewrite filter_nil. by destruct (_ && _ && _).
  - destruct (_ && _ && _); [done|]. rewrite Hids, Hnames.
    by rewrite select_filter.
Qed.

(** An instance of [query_by_names]. *)
Lemma query_by_names_witness :
  truthy_list (A:=string) None = false ∧ truthy_list (Some ["c"; "a"; "c"]) = true
  ∧ (∀ x, x ∈ _preorder store_chain -> x ∈ dom (_nodes store_chain))
  ∧ query store_chain None (Some ["c"; "a"; "c"]) (Some ["b"]) (Some 5%Z) None
    = Return ["a"; "c"].
Proof.
  assert (H : ∀ x, x ∈ _preorder store_chain -> x ∈ dom (_nodes store_chain)).
  { intros x Hx. apply elem_of_dom.
    assert (Hp : _preorder store_chain = ["1"; "a"; "b"; "c"]) by (vm_compute; reflexivity).
    rewrite Hp in Hx.
    repeat (apply elem_of_cons in Hx as [->|Hx]; [vm_compute; eauto|]).
    inversion Hx. }
  split; [reflexivity|]. split; [reflexivity|]. split; [exact H|].
  rewrite (query_by_names store_chain None (Some ["c"; "a"; "c"]) (Some ["b"])
             (Some 5%Z) None eq_refl eq_refl H).
  vm_compute. reflexivity.
Defined.

(** In a reachable store whose cached list holds ids of the index only, a
    query without ids, names and roots returns the ids of the cached list
    whose node has a depth inside the window, the whole list when no
    bound is given and the list holds every id of the index. *)
Theorem query_whole_tree s ids names roots min_depth max_depth :
  reachable s ->
  truthy_list ids = false -> truthy_list names = false -> truthy_list roots = false ->
  (∀ x, x ∈ _preorder s -> x ∈ dom (_nodes s)) ->
  query s ids names roots min_depth max_depth
  = (if inverted min_depth max_depth then Return []
     else Return (filter (fun x => depth_between (window_min min_depth)
                                     (window_max s max_depth) (_nodes s !!! x) = true)
                         (_preorder s)))
  ∧ (truthy_int min_depth = false -> truthy_int max_depth = false ->
     (∀ x, x ∈ dom (_nodes s) -> x ∈ _preorder s) ->
     query s ids names roots min_depth max_depth = Return (_preorder s)).
Proof.
  intros Hr Hids Hnames Hroots Hpre. pose proof (reachable_wf s Hr) as W.
  assert (Hq : query s ids names roots min_depth max_depth
    = (if inverted min_depth max_depth then Return []
       else Return (filter (fun x => depth_between (window_min min_depth)
                                       (window_max s max_depth) (_nodes s !!! x) = true)
                           (_preorder s)))).
  { unfold query, inverted, window_min, window_max.
    destruct (decide (_nodes s = ∅)) as [He|Hne].
    - rewrite (wf_empty _ W He), filter_nil. by destruct (_ && _ && _).
    - destruct (_ && _ && _); [done|]. rewrite Hids, Hnames, Hroots.
      destruct (wf_root _ W Hne) as (r & Hroot & Hrd & Hrp).
      cbn [query_roots]. unfold query_subtree. rewrite Hroot, String.eqb_refl.
      assert (Hd0 : depth (_nodes s) r = 0).
      { rewrite (proj2 (wf_nodes _ W) r). by rewrite Hrp. }
      rewrite Hd0, !Z.add_0_r, select_filter by done. done. }
  split; [exact Hq|].
  intros Hmn Hmx Hall. rewrite Hq. unfold inverted, window_min, window_max.
  rewrite Hmn, Hmx. cbn [andb]. f_equal. apply filter_all.
  intros x Hx. unfold depth_between.
  pose proof (depth_lt_size _ (wf_nodes _ W) x (Hpre x Hx)) as Hlt.
  assert (Hsz : (size (_nodes s) <= length (_preorder s))%nat).
  { rewrite <- (size_dom (D:=gset string)). unfold size, set_size. simpl.
    apply submseteq_length, NoDup_submseteq; [apply NoDup_elements|].
    intros y Hy. apply Hall. by apply elem_of_elements in Hy. }
  unfold depth in Hlt.
  apply andb_true_iff. split; [apply Z.leb_le|apply Z.leb_le]; lia.
Qed.

(** An instance of [query_whole_tree]: the window from depth 1 to depth 1
    holds the children of the root. *)
Lemma query_whole_tree_witness :
  reachable store_chain
  ∧ truthy_list (A:=string) None = false ∧ truthy_list (A:=string) None = false
  ∧ truthy_list (A:=string) None = false
  ∧ (∀ x, x ∈ _preorder store_chain -> x ∈ dom (_nodes store_chain))
  ∧ query store_chain None None None (Some 1%Z) (Some 1%Z) = Return ["a"; "b"].
Proof.
  assert (Hr : reachable store_chain).
  { unfold store_chain, store_root.
    repeat (apply reachable_add_to; [|exists true; vm_compute; reflexivity]).
    apply reach_init. }
  assert (H : ∀ x, x ∈ _preorder store_chain -> x ∈ dom (_nodes store_chain)).
  { intros x Hx. apply elem_of_dom.
    assert (Hp : _preorder store_chain = ["1"; "a"; "b"; "c"]) by (vm_compute; reflexivity).
    rewrite Hp in Hx.
    repeat (apply elem_of_cons in Hx as [->|Hx]; [vm_compute; eauto|]).
    inversion Hx. }
  split; [exact Hr|]. do 3 (split; [reflexivity|]). split; [exact H|].
  destruct (query_whole_tree store_chain None None None (Some 1%Z) (Some 1%Z)
              Hr eq_refl eq_refl eq_refl H) as [-> _].
  vm_compute. reflexivity.
Defined.

(** An argument that is present but falsy counts as absent: an empty list
    of ids, names or roots, and a depth bound of 0.  So [max_depth = 0]
    asks for no upper bound, not for depth 0 only. *)
Theorem query_falsy_is_absent s ids names roots min_depth max_depth :
  query s (Some []) names roots min_depth max_depth
  = query s None names roots min_depth max_depth
  ∧ query s ids (Some []) roots min_depth max_depth
    = query s ids None roots min_depth max_depth
  ∧ query s ids names (Some []) min_depth max_depth
    = query s ids names None min_depth max_depth
  ∧ query s ids names roots (Some 0%Z) max_depth
    = query s ids names roots None max_depth
  ∧ query s ids names roots min_depth (Some 0%Z)
    = query s ids names roots min_depth None.
Proof.
  unfold query. repeat split; reflexivity.
Qed.

(** ** Round trips *)

Lemma remove_where_app {A} (eqx : A -> bool) l1 y l2 :
  Forall (fun z => eqx z = false) l1 -> eqx y = true ->
  remove_where eqx (l1 ++ y :: l2) = Some (l1 ++ l2).
Proof.
  intros Hl Hy. induction Hl as [|z l1 Hz _ IH]; simpl; [by rewrite Hy|].
  by rewrite Hz, IH.
Qed.

Lemma elem_take {A} (l : list A) n x : x ∈ take n l -> x ∈ l.
Proof. intros H. rewrite <- (take_drop n l). apply elem_of_app. by left. Qed.

Lemma elem_drop {A} (l : list A) n x : x ∈ drop n l -> x ∈ l.
Proof. intros H. rewrite <- (take_drop n l). apply elem_of_app. by right. Qed.

(** Removing an id right after it was inserted gives the list back. *)
Lemma py_remove_insert x k l : x ∉ l -> py_remove x (py_insert k x l) = Some l.
Proof.
  intros Hx. unfold py_remove, py_insert.
  rewrite remove_where_app; [by rewrite take_drop| |apply String.eqb_refl].
  apply Forall_forall. intros z Hz. apply String.eqb_neq. intros ->.
  apply Hx. eapply elem_take, Hz.
Qed.

Lemma filter_is_ids x k l :
  x ∉ l -> filter (fun nid => str_in nid (uniq [x]) = true) (py_insert k x l) = [x].
Proof.
  intros Hx. unfold py_insert.
  assert (Hin : ∀ y, str_in y (uniq [x]) = true <-> y = x).
  { intros y. simpl. rewrite orb_false_r. apply String.eqb_eq. }
  assert (Hnone : ∀ l', (∀ y, y ∈ l' -> y ∈ l) ->
            filter (fun nid => str_in nid (uniq [x]) = true) l' = []).
  { induction l' as [|y l' IH]; intros Hl'; [done|].
    rewrite filter_cons_False.
    - apply IH. intros z Hz. apply Hl'. by right.
    - intros Hy. apply Hin in Hy. subst y. apply Hx, Hl'. left. }
  rewrite filter_app, filter_cons_True by (by apply Hin).
  rewrite !Hnone; [done| |].
  - intros y Hy. eapply elem_drop, Hy.
  - intros y Hy. eapply elem_take, Hy.
Qed.

(** Insert and look up.  After a successful [add] of a node whose id was
    not in the cached list, a query for that id alone returns exactly
    this node, whatever the roots and (not inverted) depth bounds, and
    the record the handler builds for it has its id, its name and the id
    of the parent it was added under, or the empty string for the root. *)
Theorem add_then_query s nid nm par s' roots min_depth max_depth :
  reachable s -> nid ∉ _preorder s ->
  add s (Some (nid, nm)) par = (s', Return true) ->
  inverted min_depth max_depth = false ->
  query s' (Some [nid]) None roots min_depth max_depth = Return [nid]
  ∧ view (_nodes s') nid
    = {| v_id := nid; v_name := nm;
         v_parent_id := if truthy_str par then default "" par else "" |}.
Proof.
  intros Hr Hfresh H Hinv. pose proof (reachable_wf s Hr) as W.
  assert (Hq : ∀ h l, nid ∈ dom h -> h ≠ ∅ ->
            filter (fun x => str_in x (uniq [nid]) = true) l = [nid] ->
            query {| _nodes := h; _root := _root s'; _preorder := l |}
                  (Some [nid]) None roots min_depth max_depth = Return [nid]).
  { intros h l Hin Hne Hl. unfold query. cbn [_nodes _preorder].
    rewrite decide_False by done. unfold inverted in Hinv. rewrite Hinv.
    cbn [truthy_list default from_option id negb]. rewrite Hl.
    apply elem_of_dom in Hin as [n Hn]. cbn [select]. by rewrite Hn. }
  destruct (add_cases s nid nm par W)
    as [Ha|[(Htr & He & Ha)|(p & h' & -> & Htr & Hnew & Hp & Hatt & Wh' & Ha)]];
    rewrite Ha in H.
  - done.
  - injection H as <-. rewrite Htr. split.
    + apply Hq.
      * rewrite dom_singleton_L. by apply elem_of_singleton.
      * apply (dom_nonempty _ nid). rewrite dom_singleton_L. by apply elem_of_singleton.
      * exact (filter_is_ids nid 0 [] (not_elem_of_nil _)).
    + unfold view, name. cbn [_nodes]. by rewrite lookup_total_singleton_eq.
  - rewrite Htr. destruct Hatt as (Hdom & _ & Hpar & _ & _ & Hnm & _).
    assert (Hin : nid ∈ dom h').
    { rewrite Hdom, dom_insert_L. apply elem_of_union. left. by apply elem_of_singleton. }
    destruct (preorder_predecessor h' nid) as [[pred|]| |]; try done.
    destruct (index pred (_preorder s)) as [i|]; [|done].
    injection H as <-. split.
    + apply (Hq h' (py_insert (i + 1) nid (_preorder s))); [done|by apply (dom_nonempty _ nid)|].
      by apply filter_is_ids.
    + unfold view, name. cbn [_nodes with_preorder with_nodes].
      by rewrite Hnm, Hpar, decide_True, lookup_total_insert_eq.
Qed.

(** An instance of [add_then_query]. *)
Lemma add_then_query_witness :
  reachable store_chain ∧ ("d" ∉ _preorder store_chain)
  ∧ inverted None None = false
  ∧ query (add_to store_chain "d" "dd" (Some "a")) (Some ["d"]) None (Some ["b"]) None None
    = Return ["d"]
  ∧ view (_nodes (add_to store_chain "d" "dd" (Some "a"))) "d"
    = {| v_id := "d"; v_name := "dd"; v_parent_id := "a" |}.
Proof.
  assert (Hr : reachable store_chain).
  { unfold store_chain, store_root.
    repeat (apply reachable_add_to; [|exists true; vm_compute; reflexivity]).
    apply reach_init. }
  assert (Hn : "d" ∉ _preorder store_chain).
  { assert (Hp : _preorder store_chain = ["1"; "a"; "b"; "c"]) by (vm_compute; reflexivity).
    rewrite Hp. intros Hx.
    repeat (apply elem_of_cons in Hx as [Hx|Hx]; [discriminate|]). inversion Hx. }
  assert (Ha : add store_chain (Some ("d", "dd")) (Some "a")
               = (add_to store_chain "d" "dd" (Some "a"), Return true)).
  { unfold add_to. destruct (add store_chain (Some ("d", "dd")) (Some "a")) as [s' r] eqn:E.
    assert (Hs : snd (add store_chain (Some ("d", "dd")) (Some "a")) = Return true)
      by (vm_compute; reflexivity).
    rewrite E in Hs. cbn [fst snd] in *. by subst r. }
  split; [exact Hr|]. split; [exact Hn|]. split; [reflexivity|].
  apply (add_then_query store_chain "d" "dd" (Some "a") _ (Some ["b"]) None None Hr Hn Ha eq_refl).
Defined.

(** Two heaps with the same ids whose nodes have the same fields are the
    same heap. *)
Lemma heap_ext (h1 h2 : gmap string Node) :
  dom h1 = dom h2 ->
  (∀ x, _name (h1 !!! x) = _name (h2 !!! x) ∧ _depth (h1 !!! x) = _depth (h2 !!! x)
        ∧ _children_by_id (h1 !!! x) = _children_by_id (h2 !!! x)
        ∧ children (h1 !!! x) = children (h2 !!! x)
        ∧ parent (h1 !!! x) = parent (h2 !!! x)) ->
  h1 = h2.
Proof.
  intros Hdom Hf. apply map_eq. intros k.
  destruct (h1 !! k) as [n1|] eqn:E1, (h2 !! k) as [n2|] eqn:E2.
  - specialize (Hf k).
    rewrite (total_lookup_Some _ _ _ E1), (total_lookup_Some _ _ _ E2) in Hf.
    destruct n1, n2. simpl in Hf. destruct Hf as (-> & -> & -> & -> & ->). done.
  - apply elem_of_dom_2 in E1. rewrite Hdom in E1. apply elem_of_dom in E1 as [? ?]. congruence.
  - apply elem_of_dom_2 in E2. rewrite <- Hdom in E2. apply elem_of_dom in E2 as [? ?].
    congruence.
  - done.
Qed.

(** Add and delete.  In a reachable store whose cached list does not
    hold the new id, deleting a node right after it was added under a
    parent gives back the store as it was before the add: the index, every
    field of every node, the root reference and the cached list. *)
Theorem add_then_delete s nid nm p s' :
  reachable s -> nid ∉ _preorder s -> truthy_str (Some p) = true ->
  add s (Some (nid, nm)) (Some p) = (s', Return true) ->
  delete s' nid = (s, Return true).
Proof.
  intros Hr Hfresh Htr H.
  pose proof (reachable_wf s Hr) as W. pose proof (wf_nodes _ W) as Wh.
  pose proof (reachable_sorted s Hr) as Hsorted.
  assert (Hr' : reachable s') by (eapply reach_add; eauto).
  pose proof (reachable_wf s' Hr') as W'.
  destruct (add_cases s nid nm (Some p) W)
    as [Ha|[(Htr' & _)|(p' & h' & Hp' & _ & Hnew & Hp & Hatt & Wh' & Ha)]].
  { rewrite Ha in H. done. }
  { congruence. }
  injection Hp' as <-. rewrite Ha in H.
  destruct (preorder_predecessor h' nid) as [[pred|]| |]; try done.
  destruct (index pred (_preorder s)) as [i|]; [|done].
  injection H as <-.
  set (h0 := <[nid := Node_init nm]> (_nodes s)) in *.
  assert (Hnp : nid ≠ p) by (by intros ->).
  pose proof Hatt as (Hdom & Hfn & Hpar & Hch & Hids & Hnm & _ & Hdp).
  assert (Hdesc : ∀ y, desc h0 nid y -> y = nid).
  { intros y Hy. apply rtc_inv in Hy as [?|(c & Hc & _)]; [done|].
    unfold child, h0 in Hc. rewrite lookup_total_insert_eq in Hc.
    by apply elem_of_nil in Hc. }
  assert (H0 : ∀ x, x ≠ nid -> h0 !!! x = _nodes s !!! x).
  { intros x Hx. unfold h0. by rewrite lookup_total_insert_ne. }
  assert (Hdef : _nodes s !!! nid = Node_init ""%string).
  { apply total_lookup_None. by apply not_elem_of_dom. }
  assert (Hnotch : ∀ q, nid ∉ children (_nodes s !!! q)).
  { intros q Hin. apply Hnew.
    by apply (wf_child_up _ Wh), (wf_up_dom _ Wh) in Hin as [? _]. }
  destruct (delete_trace _ nid W')
    as [Hd|[(_ & Hpn & _)|(op & h1 & Hup & Hleaf & Hrm & Hdet & Hd)]].
  - exfalso. apply (f_equal snd) in Hd. cbn [snd] in Hd.
    apply (delete_refused_wf _ nid W') in Hd as [Hf|Hf].
    + apply Hf. cbn [_nodes with_preorder with_nodes].
      rewrite Hdom. unfold h0. rewrite dom_insert_L. apply elem_of_union. left.
      by apply elem_of_singleton.
    + apply Hf. cbn [_nodes with_preorder with_nodes].
      rewrite Hch, decide_False by done. unfold h0. by rewrite lookup_total_insert_eq.
  - cbn [_nodes with_preorder with_nodes] in Hpn. rewrite Hpar, decide_True in Hpn by done.
    done.
  - rewrite Hd. cbn [_nodes _preorder with_preorder with_nodes] in *.
    rewrite py_remove_insert by done.
    assert (op = p) as -> by (unfold up in Hup; rewrite Hpar, decide_True in Hup; congruence).
    pose proof Hdet as (Hdom1 & (l' & Hperm & Hc1) & Hi1 & Hp1 & Hn1 & Hd1).
    assert (Hheap : base.delete nid h1 = _nodes s).
    { apply heap_ext.
      - rewrite dom_delete_L, Hdom1, Hdom. unfold h0. rewrite dom_insert_L.
        apply set_eq. intros x. rewrite elem_of_difference, elem_of_union, !elem_of_singleton.
        split; [by intros [[?|?] ?]|]. intros Hx. split; [by right|]. by intros ->.
      - intros x. destruct (decide (x = nid)) as [->|Hx].
        { by rewrite lookup_total_delete_eq, Hdef. }
        rewrite lookup_total_delete_ne by done.
        rewrite Hn1, Hnm, Hp1, Hpar, decide_False, (H0 x Hx) by done.
        split; [done|]. split.
        { pose proof (Hd1 x) as Hdx. unfold depth in Hdx. rewrite Hdx.
          destruct (Hdp x) as [Hdp'|Hdp']; [|by apply Hdesc in Hdp'].
          unfold depth in Hdp'. by rewrite Hdp', (H0 x Hx). }
        split.
        { rewrite Hi1. destruct (decide (x = p)) as [->|Hxp];
            [|by rewrite Hids, decide_False, (H0 x Hx) by done].
          rewrite Hids, decide_True, (H0 p) by done.
          assert (Hnot : nid ∉ _children_by_id (_nodes s !!! p)).
          { intros Hin. apply (links_by_id _ _ _ _ (proj1 Wh)) in Hin.
            by apply Hnotch in Hin. }
          apply set_eq. intros y.
          rewrite elem_of_difference, elem_of_union, !elem_of_singleton.
          split; [by intros [[?|?] ?]|]. intros Hy. split; [by right|]. by intros ->. }
        split; [|done].
        rewrite Hc1. destruct (decide (x = p)) as [->|Hxp];
          [|by rewrite Hch, decide_False, (H0 x Hx) by done].
        pose proof (Hch p) as Hchp. rewrite decide_True, (H0 p) in Hchp by done.
        assert (Hext : ∀ z, z ∈ children (_nodes s !!! p) -> name h0 z = name (_nodes s) z).
        { intros z Hz. unfold name. rewrite H0; [done|]. intros ->. by apply Hnotch in Hz. }
        assert (Hnd : NoDup (name h0 <$> children (_nodes s !!! p) ++ [nid])).
        { rewrite fmap_app. simpl. apply NoDup_app. split.
          - rewrite <- (H0 p) by done.
            apply (links_names _ _ _ _ (proj1 (wf_heap_insert_fresh _ nid nm Wh Hnew))).
          - split; [|apply NoDup_singleton].
            intros y' Hy' Hy''. apply list_elem_of_singleton in Hy''. subst y'.
            apply Hfn. by rewrite (H0 p). }
        apply (sorted_unique h0).
        + apply remove_child_order in Hrm as (l1 & y & l2 & Hsplit & Hl').
          rewrite Hc1, decide_True in Hl' by done. subst l'.
          apply (sorted_remove h0 l1 y l2). rewrite <- Hsplit, Hchp.
          by apply py_sort_sorted.
        + eapply sorted_ext; [|apply Hsorted]. done.
        + rewrite Hchp, py_sort_perm in Hperm.
          rewrite <- Permutation_cons_append in Hperm.
          by apply Permutation_cons_inv in Hperm. }
    rewrite Hheap. by destruct s.
Qed.

(** An instance of [add_then_delete]. *)
Lemma add_then_delete_witness :
  reachable store_chain ∧ ("d" ∉ _preorder store_chain) ∧ truthy_str (Some "b") = true
  ∧ delete (add_to store_chain "d" "a" (Some "b")) "d" = (store_chain, Return true).
Proof.
  assert (Hr : reachable store_chain).
  { unfold store_chain, store_root.
    repeat (apply reachable_add_to; [|exists true; vm_compute; reflexivity]).
    apply reach_init. }
  assert (Hn : "d" ∉ _preorder store_chain).
  { assert (Hp : _preorder store_chain = ["1"; "a"; "b"; "c"]) by (vm_compute; reflexivity).
    rewrite Hp. intros Hx.
    repeat (apply elem_of_cons in Hx as [Hx|Hx]; [discriminate|]). inversion Hx. }
  assert (Ha : add store_chain (Some ("d", "a")) (Some "b")
               = (add_to store_chain "d" "a" (Some "b"), Return true)).
  { unfold add_to. destruct (add store_chain (Some ("d", "a")) (Some "b")) as [s' r] eqn:E.
    assert (Hs : snd (add store_chain (Some ("d", "a")) (Some "b")) = Return true)
      by (vm_compute; reflexivity).
    rewrite E in Hs. cbn [fst snd] in *. by subst r. }
  split; [exact Hr|]. split; [exact Hn|]. split; [reflexivity|].
  exact (add_then_delete store_chain "d" "a" "b" _ Hr Hn eq_refl Ha).
Defined.

(** ** The request loop, line after line *)





(** The lines of the input are processed in order, each on the store the
    lines before it left: the responses to [l1 ++ l2] are those to [l1]
    followed by those to [l2] from the store after [l1].  When a line of
    [l1] ends the process, nothing after it is read: the lines [l2] change
    neither the responses nor the way the process ends. *)
Theorem main_loop_app stg l1 l2 :
  main_loop stg (l1 ++ l2)
  = match store_after stg l1 with
    | Some stg' => (fst (main_loop stg l1) ++ fst (main_loop stg' l2), snd (main_loop stg' l2))
    | None => main_loop stg l1
    end
  ∧ (store_after stg l1 = None <-> snd (main_loop stg l1) ≠ EndOfInput).
Proof.
  revert stg. induction l1 as [|l rest IH]; intros stg; simpl.
  - split; [by destruct (main_loop stg l2)|]. split; [done|]. intros H. by destruct H.
  - destruct (process_line stg l) as [s1 [x| |]] eqn:E; [|done|done].
    destruct (IH s1) as [IH1 IH2]. rewrite IH1.
    destruct (main_loop s1 rest) as [outs e] eqn:E1. cbn [fst snd] in *.
    split; [|done].
    destruct (store_after s1 rest) as [s2|]; [|done].
    destruct (main_loop s2 l2) as [outs2 e2]. cbn [fst snd]. by rewrite app_assoc.
Qed.

Lemma skipped_line stg l : skipped l = true -> process_line stg l = (stg, Return None).
Proof. by destruct l as [| |[|[func b] [|? ?]]]. Qed.

(** A line that does not parse, or that is an object without exactly one
    key, has no effect: wherever such lines stand in the input, the
    responses and the end of the process are those of the input without
    them. *)
Theorem skipped_lines_no_effect stg l1 junk l2 :
  Forall (fun l => skipped l = true) junk ->
  main_loop stg (l1 ++ junk ++ l2) = main_loop stg (l1 ++ l2).
Proof.
  intros Hj.
  assert (H : ∀ s, main_loop s (junk ++ l2) = main_loop s l2).
  { induction Hj as [|l junk Hl _ IH]; intros s; [done|].
    simpl. rewrite (skipped_line s l Hl). rewrite IH. by destruct (main_loop s l2). }
  revert stg. induction l1 as [|l rest IH]; intros stg; simpl; [apply H|].
  destruct (process_line stg l) as [s1 [x| |]]; [|done|done]. by rewrite IH.
Qed.

(** An instance of [skipped_lines_no_effect]. *)
Lemma skipped_lines_no_effect_witness :
  Forall (fun l => skipped l = true)
         [Unparsable; Object []; Object [("query", no_params); ("add_node", no_params)]]
  ∧ main_loop Storage_init
      ([add_request "1" "root" None]
       ++ [Unparsable; Object []; Object [("query", no_params); ("add_node", no_params)]]
       ++ [Object [("query", no_params)]])
    = main_loop Storage_init ([add_request "1" "root" None] ++ [Object [("query", no_params)]]).
Proof.
  assert (Hj : Forall (fun l => skipped l = true)
                 [Unparsable; Object []; Object [("query", no_params); ("add_node", no_params)]]).
  { repeat constructor. }
  split; [exact Hj|].
  exact (skipped_lines_no_effect Storage_init [add_request "1" "root" None] _
           [Object [("query", no_params)]] Hj).
Defined.

(** ** The exchange of two adjacent spans *)

Lemma clamp_nat (len n : nat) : n <= len -> clamp len (Z.of_nat n) = n.
Proof.
  intros H. unfold clamp.
  destruct (Z.ltb_spec (Z.of_nat n) 0) as [Hn|Hn]; [lia|].
  rewrite Z.min_l by lia. apply Nat2Z.id.
Qed.

Lemma swap_spans_app (p s1 s2 q : list string) :
  swap_spans (p ++ s1 ++ s2 ++ q)
             (Z.of_nat (length p))
             (Z.of_nat (length p + length s1))
             (Z.of_nat (length p + length s1 + length s2))
  = p ++ s2 ++ s1 ++ q.
Proof.
  unfold swap_spans.
  set (l := p ++ s1 ++ s2 ++ q).
  assert (Hlen : length l = length p + length s1 + length s2 + length q).
  { unfold l. rewrite !length_app. lia. }
  assert (Hs1 : slice l (Z.of_nat (length p)) (Z.of_nat (length p + length s1)) = s1).
  { unfold slice. rewrite !clamp_nat by lia. unfold l.
    rewrite drop_app_length. replace (length p + length s1 - length p) with (length s1) by lia.
    by rewrite take_app_length. }
  assert (Hs2 : slice l (Z.of_nat (length p + length s1))
                      (Z.of_nat (length p + length s1 + length s2)) = s2).
  { unfold slice. rewrite !clamp_nat by lia. unfold l.
    rewrite (app_assoc p s1), <- (length_app p s1), drop_app_length.
    replace (length (p ++ s1) + length s2 - length (p ++ s1)) with (length s2) by lia.
    by rewrite take_app_length. }
  replace (Z.of_nat (length p + length s1) - Z.of_nat (length p))%Z
    with (Z.of_nat (length s1)) by lia.
  replace (Z.of_nat (length p + length s1 + length s2) - Z.of_nat (length p + length s1))%Z
    with (Z.of_nat (length s2)) by lia.
  replace (Z.of_nat (length p) + Z.of_nat (length s2))%Z
    with (Z.of_nat (length p + length s2)) by lia.
  replace (Z.of_nat (length p + length s1 + length s2) - Z.of_nat (length s1))%Z
    with (Z.of_nat (length p + length s2)) by lia.
  rewrite Hs1, Hs2.
  destruct (Z.ltb_spec (Z.of_nat (length s1)) (Z.of_nat (length s2))) as [Hlt|Hge].
  - set (l1 := slice_assign l _ _ s2).
    assert (Hl1 : l1 = p ++ s2 ++ drop (length s2 - length s1) s2 ++ q).
    { unfold l1, slice_assign. rewrite !clamp_nat by lia.
      rewrite Nat.max_r by lia. unfold l.
      rewrite take_app_length. f_equal. f_equal.
      rewrite drop_app_ge by lia. rewrite drop_app_ge by (rewrite ?length_app; lia).
      replace (length p + length s2 - length p - length s1) with (length s2 - length s1) by lia.
      rewrite drop_app_le by lia. done. }
    assert (Hlen1 : length l1 = length l).
    { rewrite Hl1, Hlen, !length_app, length_drop. lia. }
    unfold slice_assign. rewrite Hlen1, !clamp_nat by lia.
    rewrite Nat.max_r by lia. rewrite Hl1.
    rewrite (app_assoc p s2), <- (length_app p s2), take_app_length.
    rewrite <- !app_assoc. f_equal. f_equal. f_equal.
    rewrite drop_app_ge by lia. rewrite drop_app_ge by lia.
    rewrite drop_app_ge by (rewrite length_drop; lia).
    rewrite length_drop.
    replace (length p + length s1 + length s2 - length p - length s2
             - (length s2 - (length s2 - length s1))) with 0 by lia.
    done.
  - set (l1 := slice_assign l _ _ s1).
    assert (Hl1 : l1 = p ++ take (length s2) s1 ++ s1 ++ q).
    { unfold l1, slice_assign. rewrite !clamp_nat by lia.
      rewrite Nat.max_r by lia. unfold l.
      rewrite take_app_ge by lia.
      replace (length p + length s2 - length p) with (length s2) by lia.
      rewrite take_app_le by lia. rewrite <- app_assoc. f_equal. f_equal. f_equal.
      rewrite drop_app_ge by lia. rewrite drop_app_ge by lia.
      rewrite drop_app_ge by lia.
      replace (length p + length s1 + length s2 - length p - length s1 - length s2) with 0 by lia.
      done. }
    assert (Hlen1 : length l1 = length l).
    { rewrite Hl1, Hlen, !length_app, length_take. lia. }
    unfold slice_assign. rewrite Hlen1, !clamp_nat by lia.
    rewrite Nat.max_r by lia. rewrite Hl1.
    rewrite take_app_length. f_equal. f_equal.
    rewrite drop_app_ge by lia.
    replace (length p + length s2 - length p) with (length s2) by lia.
    rewrite drop_app_ge by (rewrite length_take; lia).
    rewrite length_take. replace (length s2 - length s2 `min` length s1) with 0 by lia.
    done.
Qed.

(** The in-place exchange of [move] turns the list [p ++ s1 ++ s2 ++ q],
    given the bounds of [s1] and [s2], into [p ++ s2 ++ s1 ++ q], whatever
    the lengths of the two spans. *)
Theorem swap_spans_rotate (p s1 s2 q : list string) :
  swap_spans (p ++ s1 ++ s2 ++ q)
             (Z.of_nat (length p))
             (Z.of_nat (length p + length s1))
             (Z.of_nat (length p + length s1 + length s2))
  = p ++ s2 ++ s1 ++ q.
Proof. apply swap_spans_app. Qed.

(** ** The full recursive walk of a well-formed heap *)

Lemma elem_flat_map {A B} (f : A -> list B) (l : list A) (y : B) :
  y ∈ flat_map f l <-> ∃ x, x ∈ l ∧ y ∈ f x.
Proof.
  induction l as [|a l IH]; simpl.
  - split; [by intros H%elem_of_nil|]. by intros (x & H%elem_of_nil & _).
  - rewrite elem_of_app, IH. split.
    + intros [H|(x & Hx & Hy)]; [exists a; split; [left|done]|exists x; split; [by right|done]].
    + intros (x & [->|Hx]%elem_of_cons & Hy); [by left|right; eauto].
Qed.

Lemma flat_map_ext_elem {A B} (f g : A -> list B) (l : list A) :
  (∀ x, x ∈ l -> f x = g x) -> flat_map f l = flat_map g l.
Proof.
  induction l as [|a l IH]; intros H; simpl; [done|].
  rewrite (H a) by left. rewrite IH; [done|]. intros x Hx. apply H. by right.
Qed.

Lemma NoDup_flat_map {A B} (f : A -> list B) (l : list A) :
  NoDup l -> (∀ x, x ∈ l -> NoDup (f x)) ->
  (∀ x1 x2 y, x1 ∈ l -> x2 ∈ l -> y ∈ f x1 -> y ∈ f x2 -> x1 = x2) ->
  NoDup (flat_map f l).
Proof.
  induction l as [|a l IH]; intros Hl Hf Hd; simpl; [apply NoDup_nil_2|].
  apply NoDup_cons in Hl as [Ha Hl]. apply NoDup_app. split; [apply Hf; left|]. split.
  - intros y Hy Hy'. apply elem_flat_map in Hy' as (x & Hx & Hyx).
    assert (a = x) by (apply (Hd a x y); [left|by right|done|done]). by subst.
  - apply IH; [done| |].
    + intros x Hx. apply Hf. by right.
    + intros x1 x2 y H1 H2. apply Hd; by right.
Qed.

Lemma flat_map_filter {A B} (f g : A -> list B) (P : A -> Prop) `{∀ x, Decision (P x)}
    (Q : B -> Prop) `{∀ y, Decision (Q y)} (l : list A) :
  (∀ c, c ∈ l -> P c -> g c = filter Q (f c)) ->
  (∀ c, c ∈ l -> ¬ P c -> filter Q (f c) = []) ->
  flat_map g (filter P l) = filter Q (flat_map f l).
Proof.
  induction l as [|a l IH]; intros Hin Hout; simpl; [done|].
  rewrite filter_app, filter_cons. destruct (decide (P a)) as [Ha|Ha]; simpl.
  - rewrite (Hin a) by (done || left). f_equal. apply IH.
    + intros c Hc. apply Hin. by right.
    + intros c Hc. apply Hout. by right.
  - rewrite (Hout a) by (done || left). simpl. apply IH.
    + intros c Hc. apply Hin. by right.
    + intros c Hc. apply Hout. by right.
Qed.

Lemma filter_none {A} (P : A -> Prop) `{∀ x, Decision (P x)} (l : list A) :
  (∀ x, x ∈ l -> ¬ P x) -> filter P l = [].
Proof.
  induction l as [|x l IH]; intros Hl; [done|].
  rewrite filter_cons_False by (apply Hl; left).
  apply IH. intros y Hy. apply Hl. by right.
Qed.

Section Walk.
Context (h : gmap string Node) (W : wf_heap h).

(** Induction from the children to the node. *)
Lemma child_ind (P : string -> Prop) :
  (∀ x, x ∈ dom h -> (∀ c, child h x c -> P c) -> P x) -> ∀ x, x ∈ dom h -> P x.
Proof.
  intros Hstep.
  assert (H : ∀ k x, x ∈ dom h -> size h <= k + depth h x -> P x).
  { induction k as [|k IH]; intros x Hx Hk.
    - pose proof (depth_lt_size h W x Hx). lia.
    - apply Hstep; [done|]. intros c Hc. apply (wf_child_up h W) in Hc.
      pose proof (wf_up_depth h W _ _ Hc). apply IH; [|lia].
      by apply (wf_up_dom h W) in Hc as [? _]. }
  intros x Hx. apply (H (size h) x Hx). lia.
Qed.

(** With enough fuel the amount of fuel does not matter. *)
Lemma walk_fuel : ∀ f1 f2 x, x ∈ dom h ->
  size h < f1 + depth h x -> size h < f2 + depth h x ->
  preorder_walk f1 h x = preorder_walk f2 h x.
Proof.
  induction f1 as [|f1 IH]; intros f2 x Hx H1 H2.
  { pose proof (depth_lt_size h W x Hx). lia. }
  destruct f2 as [|f2]; [pose proof (depth_lt_size h W x Hx); lia|].
  simpl. f_equal. apply flat_map_ext_elem. intros c Hc.
  apply (wf_child_up h W) in Hc. pose proof (wf_up_depth h W _ _ Hc).
  apply IH; [by apply (wf_up_dom h W) in Hc as [? _]|lia|lia].
Qed.

Lemma walk_unfold n x : x ∈ dom h -> size h < n ->
  preorder_walk n h x = x :: flat_map (preorder_walk n h) (children (h !!! x)).
Proof.
  intros Hx Hn. rewrite (walk_fuel n (S n) x Hx) by lia. done.
Qed.

Lemma walk_desc n x y : x ∈ dom h -> size h < n ->
  y ∈ preorder_walk n h x <-> desc h x y.
Proof.
  intros Hx Hn. split.
  - revert y. pattern x. apply child_ind; [|done]. clear x Hx.
    intros x Hx IH y. rewrite walk_unfold by done.
    intros [->|Hy]%elem_of_cons; [apply rtc_refl|].
    apply elem_flat_map in Hy as (c & Hc & Hy).
    eapply rtc_l; [exact Hc|]. by apply IH.
  - intros Hd. induction Hd as [x|x c y Hc Hd IH].
    + rewrite walk_unfold by done. left.
    + rewrite walk_unfold by done. right. apply elem_flat_map. exists c. split; [done|].
      apply IH. by apply (wf_child_up h W), (wf_up_dom h W) in Hc as [? _].
Qed.

(** Climbing from one node reaches its ancestors in one order. *)
Lemma up_chain y a b : rtc (up h) y a -> rtc (up h) y b -> rtc (up h) a b ∨ rtc (up h) b a.
Proof.
  intros Ha. revert b. induction Ha as [y|y p a Hp Ha IH]; intros b Hb; [by left|].
  apply rtc_inv in Hb as [<-|(p' & Hp' & Hb)].
  - right. by eapply rtc_l.
  - unfold up in Hp, Hp'. assert (p' = p) as -> by congruence. by apply IH.
Qed.

Lemma up_same_depth a b : rtc (up h) a b -> depth h a = depth h b -> a = b.
Proof.
  intros Hr Hd. apply rtc_tc in Hr as [?|Ht]; [done|].
  apply (wf_tc_up_depth h W) in Ht. lia.
Qed.

(** The subtrees of two children of a node have no node in common. *)
Lemma desc_siblings x c1 c2 y :
  child h x c1 -> child h x c2 -> desc h c1 y -> desc h c2 y -> c1 = c2.
Proof.
  intros H1 H2 Hd1 Hd2. apply (wf_desc_up h W) in Hd1, Hd2.
  apply (wf_child_up h W), (wf_up_depth h W) in H1, H2.
  destruct (up_chain y c1 c2 Hd1 Hd2) as [Hr|Hr].
  - apply up_same_depth; [done|lia].
  - symmetry. apply up_same_depth; [done|lia].
Qed.

(** The walk lists no node twice. *)
Lemma walk_NoDup n x : x ∈ dom h -> size h < n -> NoDup (preorder_walk n h x).
Proof.
  intros Hx Hn. pattern x. apply child_ind; [|done]. clear x Hx.
  intros x Hx IH. rewrite walk_unfold by done.
  assert (Hcd : ∀ c, child h x c -> c ∈ dom h).
  { intros c Hc. by apply (wf_child_up h W), (wf_up_dom h W) in Hc as [? _]. }
  apply NoDup_cons. split.
  - intros Hin. apply elem_flat_map in Hin as (c & Hc & Hy).
    apply walk_desc in Hy; [|by apply Hcd|done].
    apply (wf_desc_depth h W) in Hy.
    apply (wf_child_up h W), (wf_up_depth h W) in Hc. lia.
  - apply NoDup_flat_map.
    + apply (links_NoDup _ _ _ _ (proj1 W)).
    + intros c Hc. by apply IH.
    + intros c1 c2 y H1 H2 Hy1 Hy2.
      apply walk_desc in Hy1; [|by apply Hcd|done].
      apply walk_desc in Hy2; [|by apply Hcd|done].
      by apply (desc_siblings x c1 c2 y).
Qed.

(** [last_preorder_child] returns the last node of the walk. *)
Lemma last_preorder_child_last : ∀ fuel x, x ∈ dom h -> size h < fuel + depth h x ->
  last_preorder_child fuel h x = last (preorder_walk fuel h x).
Proof.
  induction fuel as [|fuel IH]; intros x Hx Hf.
  { pose proof (depth_lt_size h W x Hx). lia. }
  simpl. destruct (last (children (h !!! x))) as [c|] eqn:Hc.
  - apply last_Some in Hc as [cs Hcs]. rewrite Hcs.
    assert (Hch : child h x c) by (unfold child; rewrite Hcs; apply elem_of_app; right; left).
    apply (wf_child_up h W) in Hch. pose proof (wf_up_depth h W _ _ Hch) as Hd.
    assert (Hcd : c ∈ dom h) by (by apply (wf_up_dom h W) in Hch as [? _]).
    rewrite IH by (done || lia).
    rewrite List.flat_map_app. simpl. rewrite app_nil_r.
    destruct (last_preorder_child_total h W fuel c Hcd) as [z Hz]; [lia|].
    rewrite IH in Hz by (done || lia).
    rewrite Hz. symmetry. change (last ([x] ++ flat_map (preorder_walk fuel h) cs
                                        ++ preorder_walk fuel h c) = Some z).
    rewrite app_assoc, last_app, Hz. done.
  - apply last_None in Hc. rewrite Hc. done.
Qed.
End Walk.

(** Every node of a well-formed store descends from its root. *)
Lemma root_reaches s r x :
  wf s -> _root s = Some r -> x ∈ dom (_nodes s) -> desc (_nodes s) r x.
Proof.
  intros Ws Hr. pose proof (wf_nodes _ Ws) as Wh.
  assert (H : ∀ d x, depth (_nodes s) x = d -> x ∈ dom (_nodes s) -> desc (_nodes s) r x).
  { induction d as [|d IH]; intros y Hd Hy.
    - destruct (parent (_nodes s !!! y)) as [p|] eqn:Hp.
      + apply (wf_up_depth _ Wh) in Hp. lia.
      + pose proof (wf_single _ Ws y Hy Hp). assert (r = y) as -> by congruence.
        apply rtc_refl.
    - destruct (parent (_nodes s !!! y)) as [p|] eqn:Hp.
      + pose proof (wf_up_depth _ Wh _ _ Hp).
        destruct (wf_up_dom _ Wh _ _ Hp) as [_ Hpd].
        eapply rtc_r; [apply (IH p); [lia|done]|]. by apply (wf_up_child _ Wh).
      + pose proof (proj2 Wh y) as Hdy. rewrite Hp in Hdy. lia. }
  intros Hx. by apply (H _ x eq_refl).
Qed.

(** ** The cached list after [add] *)

Lemma index_where_app {A} (eqx : A -> bool) l1 y l2 :
  Forall (fun z => eqx z = false) l1 -> eqx y = true ->
  index_where eqx (l1 ++ y :: l2) = Some (length l1).
Proof.
  intros Hl Hy. induction Hl as [|z l1 Hz _ IH]; simpl; [by rewrite Hy|].
  by rewrite Hz, IH.
Qed.

Lemma index_split x (A B : list string) :
  x ∉ A -> index x (A ++ x :: B) = Some (Z.of_nat (length A)).
Proof.
  intros Hx. unfold index. rewrite index_where_app; [done| |apply String.eqb_refl].
  apply Forall_forall. intros z Hz. apply String.eqb_neq. by intros ->.
Qed.

Lemma py_insert_after (x y : string) (A B : list string) :
  py_insert (Z.of_nat (length A) + 1) y (A ++ x :: B) = A ++ x :: y :: B.
Proof.
  unfold py_insert.
  replace (Z.of_nat (length A) + 1)%Z with (Z.of_nat (S (length A))) by lia.
  rewrite clamp_nat by (rewrite length_app; simpl; lia).
  replace (A ++ x :: B) with ((A ++ [x]) ++ B) by (by rewrite <- app_assoc).
  replace (S (length A)) with (length (A ++ [x])) by (rewrite length_app; simpl; lia).
  rewrite take_app_length, drop_app_length. by rewrite <- app_assoc.
Qed.

(** Sorting the children with a new node at the end puts the new node
    somewhere among them and keeps the others in place. *)
Lemma sorted_insert_split h l x :
  StronglySorted (fun a b => Node_lt h a b = true) l -> name h x ∉ (name h <$> l) ->
  ∃ l1 l2, py_sort (Node_lt h) (l ++ [x]) = l1 ++ x :: l2 ∧ l = l1 ++ l2.
Proof.
  intros Hs Hx.
  assert (Hnd : NoDup (name h <$> l ++ [x])).
  { rewrite fmap_app. apply NoDup_app. split; [by apply sorted_names_NoDup|].
    split; [|apply NoDup_singleton].
    intros y Hy Hy'. apply list_elem_of_singleton in Hy'. by subst y. }
  pose proof (py_sort_sorted h _ Hnd) as HL.
  pose proof (py_sort_perm (Node_lt h) (l ++ [x])) as HP.
  assert (Hin : x ∈ py_sort (Node_lt h) (l ++ [x])).
  { rewrite HP. apply elem_of_app. right. left. }
  apply list_elem_of_split in Hin as (l1 & l2 & HE). exists l1, l2. split; [done|].
  rewrite HE in HL, HP. symmetry. apply (sorted_unique h).
  - by apply (sorted_remove h l1 x l2).
  - done.
  - rewrite <- Permutation_middle, <- Permutation_cons_append in HP.
    by apply Permutation_cons_inv in HP.
Qed.

Lemma child_not_desc h p c : wf_heap h -> child h p c -> ¬ desc h c p.
Proof.
  intros W Hc Hd. apply (wf_desc_depth h W) in Hd.
  apply (wf_child_up h W), (wf_up_depth h W) in Hc. lia.
Qed.

Section AddWalk.
Context (s : Storage) (nid nm p : string) (h' : gmap string Node).
Context (Ws : wf s) (Hsorted : sorted_children (_nodes s)).
Context (Hnew : nid ∉ dom (_nodes s)) (Hp : p ∈ dom (_nodes s)).
Context (Hatt : attached (<[nid := Node_init nm]> (_nodes s)) p nid h') (Wh' : wf_heap h').

Lemma add_walk_children x :
  children (h' !!! x) =
  if decide (x = p)
  then py_sort (Node_lt (<[nid := Node_init nm]> (_nodes s))) (children (_nodes s !!! p) ++ [nid])
  else if decide (x = nid) then [] else children (_nodes s !!! x).
Proof.
  destruct Hatt as (_ & _ & _ & Hch & _). rewrite Hch.
  assert (Hnp : nid ≠ p) by (by intros ->).
  destruct (decide (x = p)) as [->|Hxp].
  - by rewrite lookup_total_insert_ne.
  - destruct (decide (x = nid)) as [->|Hxn].
    + by rewrite lookup_total_insert_eq.
    + by rewrite lookup_total_insert_ne.
Qed.

Lemma add_walk_dom : dom h' = {[nid]} ∪ dom (_nodes s).
Proof. destruct Hatt as (Hd & _). by rewrite Hd, dom_insert_L. Qed.

Lemma add_walk_in_dom x : x ∈ dom (_nodes s) -> x ∈ dom h'.
Proof. intros Hx. rewrite add_walk_dom. apply elem_of_union. by right. Qed.

Lemma add_walk_new_dom : nid ∈ dom h'.
Proof. rewrite add_walk_dom. apply elem_of_union. left. by apply elem_of_singleton. Qed.

Lemma add_walk_size : size h' = S (size (_nodes s)).
Proof.
  rewrite <- !size_dom, add_walk_dom, size_union, size_singleton; [done|].
  intros x Hx%elem_of_singleton Hx'. by subst.
Qed.

Lemma add_walk_not_child x : nid ∉ children (_nodes s !!! x).
Proof.
  intros Hin. apply Hnew.
  by apply (wf_child_up _ (wf_nodes _ Ws)), (wf_up_dom _ (wf_nodes _ Ws)) in Hin as [? _].
Qed.

Lemma add_walk_split :
  ∃ l1 l2, children (h' !!! p) = l1 ++ nid :: l2 ∧ children (_nodes s !!! p) = l1 ++ l2.
Proof.
  rewrite add_walk_children, decide_True by done.
  destruct Hatt as (_ & Hfn & _).
  assert (Hnp : nid ≠ p) by (by intros ->).
  rewrite lookup_total_insert_ne in Hfn by done.
  apply sorted_insert_split; [|done].
  eapply sorted_ext; [|apply Hsorted].
  intros z Hz. unfold name. rewrite lookup_total_insert_ne; [done|].
  intros <-. by apply add_walk_not_child in Hz.
Qed.

Lemma add_walk_new n : size h' < n -> preorder_walk n h' nid = [nid].
Proof.
  intros Hn. rewrite (walk_unfold h' Wh') by (done || apply add_walk_new_dom).
  rewrite add_walk_children.
  assert (Hnp : nid ≠ p) by (by intros ->).
  by rewrite decide_False, decide_True by done.
Qed.

(** The subtrees that do not hold the parent are listed as before. *)
Lemma add_walk_same n x :
  size h' < n -> x ∈ dom (_nodes s) -> ¬ desc (_nodes s) x p ->
  preorder_walk n h' x = preorder_walk n (_nodes s) x.
Proof.
  intros Hn Hx. pattern x. apply (child_ind (_nodes s) (wf_nodes _ Ws)); [|done].
  clear x Hx. intros x Hx IH Hnd.
  assert (Hxp : x ≠ p) by (intros ->; apply Hnd, rtc_refl).
  assert (Hxn : x ≠ nid) by (by intros ->).
  rewrite (walk_unfold h' Wh') by (done || by apply add_walk_in_dom).
  rewrite (walk_unfold _ (wf_nodes _ Ws)) by (done || rewrite add_walk_size in Hn; lia).
  rewrite add_walk_children, !decide_False by done.
  f_equal. apply flat_map_ext_elem. intros c Hc. apply IH; [done|].
  intros Hd. apply Hnd. by eapply rtc_l.
Qed.

(** The predecessor of the new node: its parent when it is the first
    child, else the last node of the subtree of the sibling before it. *)
Lemma add_walk_pred n l1 l2 :
  size h' < n ->
  children (h' !!! p) = l1 ++ nid :: l2 ->
  ∃ pred, preorder_predecessor h' nid = Return (Some pred)
    ∧ ((l1 = [] ∧ pred = p)
       ∨ ∃ l1' sib, l1 = l1' ++ [sib] ∧ last (preorder_walk n h' sib) = Some pred).
Proof.
  intros Hn Hl. unfold preorder_predecessor.
  destruct Hatt as (_ & _ & Hpar & _). rewrite Hpar, decide_True by done.
  rewrite Hl.
  assert (Hnames : NoDup (name h' <$> l1 ++ nid :: l2)).
  { rewrite <- Hl. apply (links_names _ _ _ _ (proj1 Wh')). }
  rewrite index_where_app; [| |apply String.eqb_refl].
  2:{ apply Forall_forall. intros z Hz. unfold Node_eq. apply String.eqb_neq. intros Heq.
      rewrite fmap_app in Hnames. apply NoDup_app in Hnames as (_ & Hdis & _).
      apply (Hdis (name h' z)); [by apply list_elem_of_fmap_2|].
      rewrite <- Heq. apply (list_elem_of_fmap_2 (name h')). left. }
  destruct l1 as [|a l1 _] using rev_ind.
  { exists p. split; [done|]. by left. }
  rewrite length_app. cbn [length]. rewrite Nat.add_1_r. cbv iota.
  assert (Hsib : (l1 ++ [a]) ++ nid :: l2 = l1 ++ a :: nid :: l2) by (by rewrite <- app_assoc).
  rewrite Hsib, list_lookup_total_middle by done.
  assert (Had : a ∈ dom h').
  { assert (Hc : child h' p a) by (unfold child; rewrite Hl, Hsib; apply elem_of_app; right; left).
    by apply (wf_child_up h' Wh'), (wf_up_dom h' Wh') in Hc as [? _]. }
  destruct (last_preorder_child_ends h' a Wh' Had) as [pred Hpred]. rewrite Hpred.
  exists pred. split; [done|]. right. exists l1, a. split; [done|].
  rewrite <- (last_preorder_child_last h' Wh') by (done || lia).
  rewrite <- Hpred. unfold fuel_of.
  destruct (last_preorder_child_total h' Wh' n a Had) as [z Hz]; [lia|].
  rewrite Hz. rewrite (last_preorder_child_last h' Wh') in Hz by (done || lia).
  rewrite (walk_fuel h' Wh' n (S (size h')) a Had) in Hz by lia.
  rewrite <- (last_preorder_child_last h' Wh') in Hz by (done || lia). done.
Qed.

(** The subtrees that hold the parent are listed as before, with the new
    node right after its predecessor. *)
Lemma add_walk_insert n pred x :
  size h' < n -> preorder_predecessor h' nid = Return (Some pred) ->
  desc (_nodes s) x p -> x ∈ dom (_nodes s) ->
  ∃ A B, preorder_walk n (_nodes s) x = A ++ pred :: B
         ∧ preorder_walk n h' x = A ++ pred :: nid :: B.
Proof.
  intros Hn Hpred Hd. pose proof (wf_nodes _ Ws) as Wh.
  assert (Hn0 : size (_nodes s) < n) by (rewrite add_walk_size in Hn; lia).
  assert (Hcd : ∀ x c, child (_nodes s) x c -> c ∈ dom (_nodes s)).
  { intros y c Hc. by apply (wf_child_up _ Wh), (wf_up_dom _ Wh) in Hc as [? _]. }
  revert x Hd.
  apply (rtc_ind_l (fun x => x ∈ dom (_nodes s) ->
           ∃ A B, preorder_walk n (_nodes s) x = A ++ pred :: B
                  ∧ preorder_walk n h' x = A ++ pred :: nid :: B) p).
  - intros Hx. destruct add_walk_split as (l1 & l2 & Hl' & Hl).
    destruct (add_walk_pred n l1 l2 Hn Hl') as (pred' & Hpred' & Hcase).
    assert (pred' = pred) as -> by congruence.
    assert (Hkids : ∀ c, c ∈ l1 ++ l2 ->
              preorder_walk n h' c = preorder_walk n (_nodes s) c).
    { intros c Hc. rewrite <- Hl in Hc. apply add_walk_same; [done|by eapply Hcd|].
      by apply child_not_desc. }
    rewrite (walk_unfold h' Wh') by (done || by apply add_walk_in_dom).
    rewrite (walk_unfold _ Wh) by done.
    rewrite Hl', Hl, !List.flat_map_app. simpl.
    rewrite (add_walk_new n Hn).
    rewrite (flat_map_ext_elem (preorder_walk n h') (preorder_walk n (_nodes s)) l1)
      by (intros c Hc; apply Hkids, elem_of_app; by left).
    rewrite (flat_map_ext_elem (preorder_walk n h') (preorder_walk n (_nodes s)) l2)
      by (intros c Hc; apply Hkids, elem_of_app; by right).
    destruct Hcase as [[-> ->]|(l1' & sib & -> & Hlast)].
    + exists [], (flat_map (preorder_walk n (_nodes s)) l2). done.
    + rewrite Hkids in Hlast by (apply elem_of_app; left; apply elem_of_app; right; left).
      apply last_Some in Hlast as [A0 HA0].
      exists (p :: flat_map (preorder_walk n (_nodes s)) l1' ++ A0),
             (flat_map (preorder_walk n (_nodes s)) l2).
      rewrite !List.flat_map_app. simpl. rewrite !app_nil_r, HA0.
      rewrite <- !app_assoc. simpl. done.
  - intros x c Hc Hd IH Hx.
    assert (Hxy : x ≠ p) by (intros ->; by apply (child_not_desc _ p c Wh)).
    assert (Hxn : x ≠ nid) by (by intros ->).
    destruct (IH (Hcd _ _ Hc)) as (A & B & HA & HB).
    apply list_elem_of_split in Hc as Hsplit. destruct Hsplit as (k1 & k2 & Hk).
    assert (Hnd : NoDup (k1 ++ c :: k2)).
    { rewrite <- Hk. apply (links_NoDup _ _ _ _ (proj1 Wh)). }
    assert (Hkids : ∀ c', c' ∈ k1 ++ k2 ->
              preorder_walk n h' c' = preorder_walk n (_nodes s) c').
    { intros c' Hc'.
      assert (Hch' : child (_nodes s) x c') by (unfold child; rewrite Hk; apply elem_of_app;
                 apply elem_of_app in Hc' as [?|?]; [by left|right; by right]).
      apply add_walk_same; [done|by eapply Hcd|].
      intros Hd'. assert (c' = c) as -> by (by eapply (desc_siblings _ Wh x c' c p)).
      apply NoDup_app in Hnd as (_ & Hdis & Hnd2). apply NoDup_cons in Hnd2 as [Hnot _].
      apply elem_of_app in Hc' as [Hc'|Hc']; [|done]. apply (Hdis c Hc'). left. }
    rewrite (walk_unfold h' Wh') by (done || by apply add_walk_in_dom).
    rewrite (walk_unfold _ Wh) by done.
    rewrite add_walk_children, !decide_False by done.
    rewrite Hk, !List.flat_map_app. simpl. rewrite HA, HB.
    rewrite (flat_map_ext_elem (preorder_walk n h') (preorder_walk n (_nodes s)) k1)
      by (intros c' Hc'; apply Hkids, elem_of_app; by left).
    rewrite (flat_map_ext_elem (preorder_walk n h') (preorder_walk n (_nodes s)) k2)
      by (intros c' Hc'; apply Hkids, elem_of_app; by right).
    exists (x :: flat_map (preorder_walk n (_nodes s)) k1 ++ A),
           (B ++ flat_map (preorder_walk n (_nodes s)) k2).
    simpl. rewrite <- !app_assoc. simpl. done.
Qed.
End AddWalk.

Lemma tree_preorder_root s r :
  _nodes s ≠ ∅ -> _root s = Some r ->
  tree_preorder s = preorder_walk (fuel_of (_nodes s)) (_nodes s) r.
Proof. intros Hne Hr. unfold tree_preorder. by rewrite decide_False, Hr. Qed.

(** [add] on a store whose cached list is the pre-order listing of its
    tree: it returns, and the cached list is the listing of the new tree. *)
Lemma add_consistent s node par s' r0 :
  wf s -> sorted_children (_nodes s) -> _preorder s = tree_preorder s ->
  add s node par = (s', r0) ->
  (∃ b, r0 = Return b) ∧ _preorder s' = tree_preorder s'.
Proof.
  intros W Hsorted Hc H. pose proof (wf_nodes _ W) as Wh.
  destruct node as [[nid nm]|]; [|unfold add in H; injection H as <- <-; split; eauto].
  destruct (add_cases s nid nm par W)
    as [Ha|[(Htr & Hempty & Ha)|(p & h' & -> & _ & Hnew & Hp & Hatt & Wh' & Ha)]];
    rewrite Ha in H.
  - injection H as <- <-. split; eauto.
  - injection H as <- <-. split; [eauto|].
    unfold tree_preorder. cbn [_nodes _root _preorder].
    rewrite decide_False by apply insert_non_empty.
    unfold fuel_of. cbn [preorder_walk]. by rewrite lookup_total_singleton_eq.
  - pose proof (add_walk_size s nid nm p h' Hnew Hatt) as Hsz.
    destruct (wf_root _ W (dom_nonempty _ p Hp)) as (r & Hroot & Hrd & Hrp).
    pose proof (root_reaches s r p W Hroot Hp) as Hdesc.
    destruct (add_walk_split s nid nm p h' W Hsorted Hnew Hp Hatt) as (l1 & l2 & Hl' & _).
    destruct (add_walk_pred s nid nm p h' Hatt Wh' (fuel_of h') l1 l2) as (pred & Hpred & _);
      [unfold fuel_of; lia|done|].
    destruct (add_walk_insert s nid nm p h' W Hsorted Hnew Hp Hatt Wh' (fuel_of h') pred r)
      as (A & B & HA & HB); [unfold fuel_of; lia|done|done|done|].
    rewrite (walk_fuel _ Wh (fuel_of h') (fuel_of (_nodes s)) r Hrd) in HA
      by (unfold fuel_of; lia).
    rewrite <- (tree_preorder_root s r (dom_nonempty _ p Hp) Hroot), <- Hc in HA.
    assert (HnA : pred ∉ A).
    { pose proof (walk_NoDup _ Wh (fuel_of (_nodes s)) r Hrd) as Hnd.
      rewrite <- (tree_preorder_root s r (dom_nonempty _ p Hp) Hroot), <- Hc, HA in Hnd.
      apply NoDup_app in Hnd as (_ & Hdis & _); [|unfold fuel_of; lia].
      intros Hin. apply (Hdis pred Hin). left. }
    rewrite Hpred, HA, (index_split pred A B HnA) in H.
    injection H as <- <-. split; [eauto|].
    cbn [_preorder with_preorder]. rewrite py_insert_after.
    rewrite (tree_preorder_root _ r); [done| |done].
    cbn [_nodes with_preorder with_nodes].
    apply (dom_nonempty _ r). by apply (add_walk_in_dom s nid nm p h' Hatt).
Qed.

(** ** The cached list after [delete] *)

Lemma py_remove_filter x (l : list string) :
  NoDup l -> x ∈ l -> py_remove x l = Some (filter (fun y => y ≠ x) l).
Proof.
  intros Hnd Hin. apply list_elem_of_split in Hin as (A & B & ->).
  apply NoDup_app in Hnd as (_ & HA & HB). apply NoDup_cons in HB as [HB _].
  assert (HxA : x ∉ A) by (intros Hx; apply (HA x Hx); left).
  unfold py_remove. rewrite remove_where_app; [| |apply String.eqb_refl].
  - rewrite filter_app, filter_cons_False by (intros ?; done).
    rewrite !filter_all; [done| |]; by intros y Hy ->.
  - apply Forall_forall. intros z Hz. apply String.eqb_neq. by intros ->.
Qed.

(** [delete] on a store whose cached list is the pre-order listing of its
    tree: it returns, and the cached list is the listing of the new tree. *)
Lemma delete_consistent s nid s' r0 :
  wf s -> _preorder s = tree_preorder s -> delete s nid = (s', r0) ->
  (∃ b, r0 = Return b) ∧ _preorder s' = tree_preorder s'.
Proof.
  intros W Hc H. pose proof (wf_nodes _ W) as Wh.
  destruct (delete_trace s nid W)
    as [Hd|[(Hin & Hp & Hsz & Hd)|(op & h1 & Hup & Hleaf & Hrm & Hdet & Hd)]];
    rewrite Hd in H.
  - injection H as <- <-. split; eauto.
  - injection H as <- <-. split; [eauto|].
    unfold cleared, tree_preorder. cbn [_nodes _preorder]. by rewrite decide_True.
  - destruct (wf_up_dom _ Wh _ _ Hup) as [Hnd Hopd].
    destruct (wf_root _ W (dom_nonempty _ nid Hnd)) as (r & Hroot & Hrd & Hrp).
    assert (Hrn : r ≠ nid) by (intros ->; unfold up in Hup; congruence).
    pose proof (drop_leaf_wf _ nid op h1 Wh Hup Hleaf Hdet) as Wh'.
    pose proof (drop_leaf_children _ nid op h1 Wh Hup Hleaf Hrm Hdet) as Hkids.
    set (h' := base.delete nid h1) in *.
    assert (Hdom : dom h' = dom (_nodes s) ∖ {[nid]}).
    { unfold h'. destruct Hdet as (Hd1 & _). by rewrite dom_delete_L, Hd1. }
    assert (Hsz : size h' <= size (_nodes s)).
    { rewrite <- !size_dom. apply subseteq_size. rewrite Hdom.
      intros x Hx. by apply elem_of_difference in Hx as [? _]. }
    assert (Hin' : ∀ x, x ∈ dom (_nodes s) -> x ≠ nid -> x ∈ dom h').
    { intros x Hx Hxn. rewrite Hdom. apply elem_of_difference. split; [done|].
      by intros ?%elem_of_singleton. }
    set (n := fuel_of (_nodes s)).
    assert (Hn : size (_nodes s) < n) by (unfold n, fuel_of; lia).
    assert (Hwalk : ∀ x, x ∈ dom (_nodes s) -> x ≠ nid ->
              preorder_walk n h' x = filter (fun y => y ≠ nid) (preorder_walk n (_nodes s) x)).
    { intros x Hx. pattern x. apply (child_ind _ Wh); [|done]. clear x Hx.
      intros x Hx IH Hxn.
      rewrite (walk_unfold h' Wh') by (by apply Hin' || lia).
      rewrite (walk_unfold _ Wh) by done.
      rewrite filter_cons_True by done. f_equal. rewrite Hkids.
      apply (flat_map_filter (preorder_walk n (_nodes s)) (preorder_walk n h')
               (fun c => c ≠ nid) (fun y => y ≠ nid)).
      - intros c Hch Hcn. by apply IH.
      - intros c Hch Hcn. assert (c = nid) as -> by (by destruct (decide (c = nid))).
        rewrite (walk_unfold _ Wh) by done. rewrite Hleaf. simpl.
        by rewrite filter_cons_False, filter_nil by (intros ?; done). }
    assert (Hlist : _preorder s = preorder_walk n (_nodes s) r).
    { rewrite Hc. by apply tree_preorder_root; [apply (dom_nonempty _ nid)|]. }
    rewrite py_remove_filter in H.
    + injection H as <- <-. split; [eauto|].
      cbn [_preorder with_preorder].
      rewrite (tree_preorder_root _ r); [| |done].
      * cbn [_nodes with_preorder with_nodes]. rewrite Hlist, <- Hwalk by done.
        apply (walk_fuel h' Wh'); [by apply Hin'|lia|unfold fuel_of; lia].
      * cbn [_nodes with_preorder with_nodes]. apply (dom_nonempty _ r). by apply Hin'.
    + rewrite Hlist. by apply (walk_NoDup _ Wh).
    + rewrite Hlist. apply (walk_desc _ Wh); [done|done|]. by apply (root_reaches s r nid W).
Qed.

(** ** The cached list and the tree *)

(** [add] keeps the cached list right.  On a reachable store whose cached
    list is the pre-order listing of its tree, [add] never raises, and
    the cached list of the store it leaves is the pre-order listing of
    the new tree: the new node stands right after its pre-order
    predecessor. *)
Theorem add_keeps_preorder s node par s' r0 :
  reachable s -> _preorder s = tree_preorder s ->
  add s node par = (s', r0) ->
  (∃ b, r0 = Return b) ∧ _preorder s' = tree_preorder s'.
Proof.
  intros Hr. apply add_consistent; [by apply reachable_wf|by apply reachable_sorted].
Qed.

(** An instance of [add_keeps_preorder]: a node named [a0] becomes the
    first child of [b], before [c]. *)
Lemma add_keeps_preorder_witness :
  reachable store_chain ∧ _preorder store_chain = tree_preorder store_chain
  ∧ _preorder (add_to store_chain "d" "a0" (Some "b")) = ["1"; "a"; "b"; "d"; "c"]
  ∧ _preorder (add_to store_chain "d" "a0" (Some "b"))
    = tree_preorder (add_to store_chain "d" "a0" (Some "b")).
Proof.
  assert (Hr : reachable store_chain).
  { unfold store_chain, store_root.
    repeat (apply reachable_add_to; [|exists true; vm_compute; reflexivity]).
    apply reach_init. }
  assert (Hc : _preorder store_chain = tree_preorder store_chain) by (vm_compute; reflexivity).
  assert (Ha : add store_chain (Some ("d", "a0")) (Some "b")
               = (add_to store_chain "d" "a0" (Some "b"),
                  snd (add store_chain (Some ("d", "a0")) (Some "b")))).
  { unfold add_to. by destruct (add store_chain (Some ("d", "a0")) (Some "b")). }
  split; [exact Hr|]. split; [exact Hc|]. split; [vm_compute; reflexivity|].
  exact (proj2 (add_keeps_preorder store_chain _ _ _ _ Hr Hc Ha)).
Defined.

(** [delete] keeps the cached list right.  On a reachable store whose
    cached list is the pre-order listing of its tree, [delete] never
    raises, and the cached list of the store it leaves is the pre-order
    listing of the new tree. *)
Theorem delete_keeps_preorder s nid s' r0 :
  reachable s -> _preorder s = tree_preorder s ->
  delete s nid = (s', r0) ->
  (∃ b, r0 = Return b) ∧ _preorder s' = tree_preorder s'.
Proof. intros Hr. apply delete_consistent. by apply reachable_wf. Qed.

(** An instance of [delete_keeps_preorder]: the leaf [a] is deleted. *)
Lemma delete_keeps_preorder_witness :
  reachable store_chain ∧ _preorder store_chain = tree_preorder store_chain
  ∧ _preorder (fst (delete store_chain "a")) = ["1"; "b"; "c"]
  ∧ _preorder (fst (delete store_chain "a")) = tree_preorder (fst (delete store_chain "a")).
Proof.
  assert (Hr : reachable store_chain).
  { unfold store_chain, store_root.
    repeat (apply reachable_add_to; [|exists true; vm_compute; reflexivity]).
    apply reach_init. }
  assert (Hc : _preorder store_chain = tree_preorder store_chain) by (vm_compute; reflexivity).
  assert (Hd : delete store_chain "a"
               = (fst (delete store_chain "a"), snd (delete store_chain "a"))).
  { by destruct (delete store_chain "a"). }
  split; [exact Hr|]. split; [exact Hc|]. split; [vm_compute; reflexivity|].
  exact (proj2 (delete_keeps_preorder store_chain _ _ _ Hr Hc Hd)).
Defined.

Lemma consistent_index s :
  wf s -> _preorder s = tree_preorder s ->
  NoDup (_preorder s)
  ∧ (∀ x, x ∈ _preorder s <-> x ∈ dom (_nodes s))
  ∧ length (_preorder s) = size (_nodes s).
Proof.
  intros W Hc. pose proof (wf_nodes _ W) as Wh.
  assert (H : NoDup (_preorder s) ∧ (∀ x, x ∈ _preorder s <-> x ∈ dom (_nodes s))).
  { destruct (decide (_nodes s = ∅)) as [He|Hne].
    - rewrite (wf_empty _ W He), He. split; [apply NoDup_nil_2|].
      intros x. rewrite dom_empty_L. split; [by intros ?%elem_of_nil|by intros ?%elem_of_empty].
    - destruct (wf_root _ W Hne) as (r & Hroot & Hrd & _).
      rewrite Hc, (tree_preorder_root s r Hne Hroot).
      assert (Hn : size (_nodes s) < fuel_of (_nodes s)) by (unfold fuel_of; lia).
      split; [by apply (walk_NoDup _ Wh)|].
      intros x. rewrite (walk_desc _ Wh) by done. split.
      + by apply (wf_desc_dom _ Wh).
      + by apply (root_reaches s r x W). }
  destruct H as [Hnd Hel]. split; [done|]. split; [done|].
  rewrite <- size_dom. unfold size, set_size. simpl. apply Permutation_length.
  apply NoDup_Permutation; [done|apply NoDup_elements|].
  intros x. rewrite elem_of_elements. apply Hel.
Qed.

(** A cached list that is the pre-order listing of the tree holds every
    id of the index once: it has no duplicates, its ids are those of the
    index, and its length is the number of nodes. *)
Theorem preorder_lists_index s :
  reachable s -> _preorder s = tree_preorder s ->
  NoDup (_preorder s)
  ∧ (∀ x, x ∈ _preorder s <-> x ∈ dom (_nodes s))
  ∧ length (_preorder s) = size (_nodes s).
Proof. intros Hr. apply consistent_index. by apply reachable_wf. Qed.

(** An instance of [preorder_lists_index]. *)
Lemma preorder_lists_index_witness :
  reachable store_chain ∧ _preorder store_chain = tree_preorder store_chain
  ∧ NoDup (_preorder store_chain) ∧ length (_preorder store_chain) = size (_nodes store_chain).
Proof.
  assert (Hr : reachable store_chain).
  { unfold store_chain, store_root.
    repeat (apply reachable_add_to; [|exists true; vm_compute; reflexivity]).
    apply reach_init. }
  assert (Hc : _preorder store_chain = tree_preorder store_chain) by (vm_compute; reflexivity).
  destruct (preorder_lists_index store_chain Hr Hc) as (H1 & _ & H3).
  split; [exact Hr|]. split; [exact Hc|]. split; [exact H1|exact H3].
Defined.

(** ** The full walk after [move] *)

(** [remove_child] filters the removed id out of the children list. *)
Lemma detached_children h op nid force h1 :
  NoDup (children (h !!! op)) ->
  remove_child h op nid force = (h1, Return true) -> detached h op nid h1 ->
  children (h1 !!! op) = filter (fun c => c ≠ nid) (children (h !!! op)).
Proof.
  intros Hnd Hrm (_ & (l' & Hperm & Hc1) & _).
  apply remove_child_order in Hrm as (l1 & y & l2 & Hsplit & Hl'). rewrite Hl'.
  rewrite Hc1, decide_True in Hl' by done. subst l'.
  rewrite Hperm in Hnd. apply NoDup_cons in Hnd as [Hnot _].
  assert (y = nid) as ->.
  { assert (Hin : nid ∈ l1 ++ y :: l2) by (rewrite <- Hsplit, Hperm; left).
    apply elem_of_app in Hin as [?|Hin].
    - destruct Hnot. apply elem_of_app. auto.
    - apply elem_of_cons in Hin as [?|?]; [done|].
      destruct Hnot. apply elem_of_app. auto. }
  rewrite Hsplit, filter_app, filter_cons_False by (intros ?; done).
  rewrite !filter_all; [done| |].
  - intros x Hx ->. apply Hnot, elem_of_app. auto.
  - intros x Hx ->. apply Hnot, elem_of_app. auto.
Qed.

(** The node before a child in the pre-order: its parent when it is the
    first child, else the last node of the subtree of the sibling before
    it. *)
Lemma preorder_predecessor_split h x p l1 l2 n :
  wf_heap h -> size h < n ->
  parent (h !!! x) = Some p -> children (h !!! p) = l1 ++ x :: l2 ->
  ∃ pred, preorder_predecessor h x = Return (Some pred)
    ∧ ((l1 = [] ∧ pred = p)
       ∨ ∃ l1' sib, l1 = l1' ++ [sib] ∧ last (preorder_walk n h sib) = Some pred).
Proof.
  intros Wh Hn Hpar Hl. unfold preorder_predecessor. rewrite Hpar, Hl.
  assert (Hnames : NoDup (name h <$> l1 ++ x :: l2)).
  { rewrite <- Hl. apply (links_names _ _ _ _ (proj1 Wh)). }
  rewrite index_where_app; [| |apply String.eqb_refl].
  2:{ apply Forall_forall. intros z Hz. unfold Node_eq. apply String.eqb_neq. intros Heq.
      rewrite fmap_app in Hnames. apply NoDup_app in Hnames as (_ & Hdis & _).
      apply (Hdis (name h z)); [by apply list_elem_of_fmap_2|].
      rewrite <- Heq. apply (list_elem_of_fmap_2 (name h)). left. }
  destruct l1 as [|a l1 _] using rev_ind.
  { exists p. split; [done|]. by left. }
  rewrite length_app. cbn [length]. rewrite Nat.add_1_r. cbv iota.
  assert (Hsib : (l1 ++ [a]) ++ x :: l2 = l1 ++ a :: x :: l2) by (by rewrite <- app_assoc).
  rewrite Hsib, list_lookup_total_middle by done.
  assert (Had : a ∈ dom h).
  { assert (Hc : child h p a) by (unfold child; rewrite Hl, Hsib; apply elem_of_app; right; left).
    by apply (wf_child_up h Wh), (wf_up_dom h Wh) in Hc as [? _]. }
  destruct (last_preorder_child_ends h a Wh Had) as [pred Hpred]. rewrite Hpred.
  exists pred. split; [done|]. right. exists l1, a. split; [done|].
  rewrite <- Hpred. unfold fuel_of.
  rewrite (last_preorder_child_last h Wh) by (done || lia).
  f_equal. apply (walk_fuel h Wh); [done|lia|lia].
Qed.

(** A node below [a] that is not [a] has its parent below [a]. *)
Lemma desc_parent h a x c :
  wf_heap h -> desc h a c -> c ≠ a -> child h x c -> desc h a x.
Proof.
  intros Wh Hd Hne Hc. apply rtc_inv_r in Hd as [?|(y & Hd & Hy)]; [by subst|].
  apply (wf_child_up h Wh) in Hc, Hy. unfold up in *.
  assert (y = x) as -> by congruence. done.
Qed.

(** The walk of a node lists the subtree of each node below it as one
    block. *)
Lemma walk_block h n y x :
  wf_heap h -> size h < n -> desc h x y -> x ∈ dom h ->
  ∃ P Q, preorder_walk n h x = P ++ preorder_walk n h y ++ Q.
Proof.
  intros Wh Hn Hd. revert x Hd.
  apply (rtc_ind_l (fun x => x ∈ dom h ->
           ∃ P Q, preorder_walk n h x = P ++ preorder_walk n h y ++ Q) y).
  - intros _. exists [], []. by rewrite app_nil_r.
  - intros x c Hc Hd IH Hx.
    assert (Hcd : c ∈ dom h) by (by apply (wf_child_up h Wh), (wf_up_dom h Wh) in Hc as [? _]).
    destruct (IH Hcd) as (P & Q & HPQ).
    apply list_elem_of_split in Hc as (k1 & k2 & Hk).
    rewrite (walk_unfold h Wh) by done. rewrite Hk, List.flat_map_app. simpl. rewrite HPQ.
    exists (x :: flat_map (preorder_walk n h) k1 ++ P),
           (Q ++ flat_map (preorder_walk n h) k2).
    simpl. rewrite <- !app_assoc. done.
Qed.

Section MoveWalk.
Context (h h1 h2 : gmap string Node) (nid to op : string) (n : nat).
Context (Wh : wf_heap h) (Hsorted : sorted_children h).
Context (Hnid : nid ∈ dom h) (Hto : to ∈ dom h) (Hop : up h nid op) (Hopto : op ≠ to).
Context (Hnd : ¬ desc h nid to).
Context (Hatt : attached h to nid h1).
Context (Hrm : remove_child h1 op nid true = (h2, Return true)) (Hdet : detached h1 op nid h2).
Context (Wh2 : wf_heap h2) (Hn : size h < n).

Lemma move_walk_not_child x : x ≠ op -> nid ∉ children (h !!! x).
Proof.
  intros Hx Hin. apply (wf_child_up h Wh) in Hin. unfold up in *. congruence.
Qed.

Lemma move_walk_children x :
  children (h2 !!! x) =
  if decide (x = to) then py_sort (Node_lt h) (children (h !!! to) ++ [nid])
  else filter (fun c => c ≠ nid) (children (h !!! x)).
Proof.
  pose proof Hatt as (_ & _ & _ & Hc1 & _).
  pose proof Hdet as (_ & (l' & _ & Hc2) & _).
  destruct (decide (x = to)) as [->|Hxt].
  - by rewrite Hc2, decide_False, Hc1, decide_True by done.
  - destruct (decide (x = op)) as [->|Hxo].
    + rewrite (detached_children h1 op nid true h2); [| |done|done].
      * by rewrite Hc1, decide_False.
      * rewrite Hc1, decide_False by done. apply (links_NoDup _ _ _ _ (proj1 Wh)).
    + rewrite Hc2, decide_False, Hc1, decide_False by done.
      rewrite filter_all; [done|]. intros c Hc ->. by apply (move_walk_not_child x).
Qed.

Lemma move_walk_dom : dom h2 = dom h.
Proof. destruct Hatt as (Hd1 & _), Hdet as (Hd2 & _). by rewrite Hd2, Hd1. Qed.

Lemma move_walk_size : size h2 = size h.
Proof. by rewrite <- !size_dom, move_walk_dom. Qed.

Lemma move_walk_split :
  ∃ l1 l2, children (h2 !!! to) = l1 ++ nid :: l2 ∧ children (h !!! to) = l1 ++ l2.
Proof.
  rewrite move_walk_children, decide_True by done.
  destruct Hatt as (_ & Hfn & _). by apply sorted_insert_split.
Qed.

Lemma move_walk_parent : parent (h2 !!! nid) = Some to.
Proof.
  destruct Hatt as (_ & _ & Hp1 & _), Hdet as (_ & _ & _ & Hp2 & _).
  by rewrite Hp2, Hp1, decide_True.
Qed.

Lemma move_walk_child_dom x c : child h x c -> c ∈ dom h.
Proof. intros Hc. by apply (wf_child_up h Wh), (wf_up_dom h Wh) in Hc as [? _]. Qed.

(** The moved subtree is listed as before. *)
Lemma move_walk_sub x :
  desc h nid x -> preorder_walk n h2 x = preorder_walk n h x.
Proof.
  intros Hd. assert (Hx : x ∈ dom h) by (by apply (wf_desc_dom h Wh nid)).
  revert Hd. pattern x. apply (child_ind h Wh); [|done]. clear x Hx.
  intros x Hx IH Hd.
  assert (Hxt : x ≠ to) by (by intros ->).
  assert (Hxo : x ≠ op).
  { intros ->. apply (wf_desc_depth h Wh) in Hd. apply (wf_up_depth h Wh) in Hop. lia. }
  rewrite (walk_unfold h2 Wh2) by (by rewrite ?move_walk_dom, ?move_walk_size).
  rewrite (walk_unfold h Wh) by done.
  rewrite move_walk_children, decide_False by done.
  rewrite filter_all by (intros c Hc ->; by apply (move_walk_not_child x)).
  f_equal. apply flat_map_ext_elem. intros c Hc. apply IH; [done|].
  eapply rtc_r; [exact Hd|exact Hc].
Qed.

(** A subtree that holds neither the moved node's place nor its new
    parent is listed as before, without the moved subtree. *)
Lemma move_walk_cut x :
  x ∈ dom h -> ¬ desc h nid x -> ¬ desc h x to ->
  preorder_walk n h2 x
  = filter (fun y => y ∉ preorder_walk n h nid) (preorder_walk n h x).
Proof.
  intros Hx. pattern x. apply (child_ind h Wh); [|done]. clear x Hx.
  intros x Hx IH Hnx Hxt.
  assert (Hxto : x ≠ to) by (intros ->; apply Hxt, rtc_refl).
  rewrite (walk_unfold h2 Wh2) by (by rewrite ?move_walk_dom, ?move_walk_size).
  rewrite (walk_unfold h Wh n x) by done.
  rewrite filter_cons_True by (by rewrite (walk_desc h Wh)).
  f_equal. rewrite move_walk_children, decide_False by done.
  apply (flat_map_filter (preorder_walk n h) (preorder_walk n h2) (fun c => c ≠ nid)
           (fun y => y ∉ preorder_walk n h nid)).
  - intros c Hc Hcn. apply IH; [done| |].
    + intros Hd. by apply Hnx, (desc_parent h nid x c).
    + intros Hd. apply Hxt. by eapply rtc_l.
  - intros c Hc Hcn. assert (c = nid) as -> by (by destruct (decide (c = nid))).
    apply filter_none. intros y Hy Hy'. done.
Qed.

(** A subtree that holds the new parent is listed as before, without the
    moved subtree where it was and with the moved subtree right after the
    predecessor of the moved node. *)
Lemma move_walk_insert pred x :
  preorder_predecessor h2 nid = Return (Some pred) ->
  desc h x to -> x ∈ dom h -> ¬ desc h nid x ->
  ∃ A B, filter (fun y => y ∉ preorder_walk n h nid) (preorder_walk n h x) = A ++ pred :: B
         ∧ preorder_walk n h2 x = A ++ pred :: preorder_walk n h nid ++ B.
Proof.
  intros Hpred Hd. revert x Hd.
  set (sub := preorder_walk n h nid).
  set (Q := fun y => y ∉ sub).
  assert (Hn2 : size h2 < n) by (by rewrite move_walk_size).
  assert (Hkids : ∀ x l, (∀ c, c ∈ l -> child h x c) -> ¬ desc h nid x ->
            (∀ c, c ∈ l -> c ≠ nid -> ¬ desc h c to) ->
            flat_map (preorder_walk n h2) (filter (fun c => c ≠ nid) l)
            = filter Q (flat_map (preorder_walk n h) l)).
  { intros x l Hl Hnx Hlt.
    apply (flat_map_filter (preorder_walk n h) (preorder_walk n h2) (fun c => c ≠ nid) Q).
    - intros c Hc Hcn. apply move_walk_cut; [by apply (move_walk_child_dom x), Hl| |by apply Hlt].
      intros Hdc. apply Hnx. apply (desc_parent h nid x c); [done|done|done|by apply Hl].
    - intros c Hc Hcn. assert (c = nid) as -> by (by destruct (decide (c = nid))).
      apply filter_none. intros y Hy Hy'. done. }
  apply (rtc_ind_l (fun x => x ∈ dom h -> ¬ desc h nid x ->
           ∃ A B, filter Q (preorder_walk n h x) = A ++ pred :: B
                  ∧ preorder_walk n h2 x = A ++ pred :: sub ++ B) to).
  - intros _ _. destruct move_walk_split as (l1 & l2 & Hl' & Hl).
    destruct (preorder_predecessor_split h2 nid to l1 l2 n Wh2 Hn2 move_walk_parent Hl')
      as (pred' & Hpred' & Hcase).
    assert (pred' = pred) as -> by congruence.
    assert (Hnc : nid ∉ children (h !!! to)) by (by apply move_walk_not_child).
    assert (Hall : ∀ l, (∀ c, c ∈ l -> c ∈ l1 ++ l2) ->
              flat_map (preorder_walk n h2) l = filter Q (flat_map (preorder_walk n h) l)).
    { intros l Hsub.
      rewrite <- (filter_all (fun c => c ≠ nid) l) at 1.
      - apply (Hkids to); [|done|].
        + intros c Hc. unfold child. rewrite Hl. by apply Hsub.
        + intros c Hc _. apply child_not_desc; [done|]. unfold child. rewrite Hl. by apply Hsub.
      - intros c Hc ->. apply Hnc. rewrite Hl. by apply Hsub. }
    rewrite (walk_unfold h2 Wh2) by (by rewrite ?move_walk_dom).
    rewrite (walk_unfold h Wh n to) by done.
    rewrite filter_cons_True by (unfold Q, sub; by rewrite (walk_desc h Wh)).
    rewrite Hl', Hl, !List.flat_map_app, filter_app. simpl.
    rewrite (move_walk_sub nid) by apply rtc_refl. fold sub.
    rewrite (Hall l1) by (intros c Hc; apply elem_of_app; by left).
    rewrite (Hall l2) by (intros c Hc; apply elem_of_app; by right).
    destruct Hcase as [[-> ->]|(l1' & sib & -> & Hlast)].
    + exists [], (filter Q (flat_map (preorder_walk n h) l2)). done.
    + assert (Hsib : preorder_walk n h2 sib = filter Q (preorder_walk n h sib)).
      { pose proof (Hall [sib]) as Hs. simpl in Hs. rewrite !app_nil_r in Hs. apply Hs.
        intros c Hc%list_elem_of_singleton. subst c.
        apply elem_of_app. left. apply elem_of_app. right. left. }
      rewrite Hsib in Hlast. apply last_Some in Hlast as [A0 HA0].
      exists (to :: filter Q (flat_map (preorder_walk n h) l1') ++ A0),
             (filter Q (flat_map (preorder_walk n h) l2)).
      rewrite !List.flat_map_app, filter_app. simpl. rewrite !app_nil_r, HA0.
      simpl. rewrite <- !app_assoc. simpl. done.
  - intros x c Hc Hd IH Hx Hnx.
    assert (Hxt : x ≠ to) by (intros ->; by apply (child_not_desc h to c Wh)).
    assert (Hcn : c ≠ nid) by (by intros ->).
    assert (Hnc : ¬ desc h nid c).
    { intros Hdc. by apply Hnx, (desc_parent h nid x c). }
    destruct (IH (move_walk_child_dom x c Hc) Hnc) as (A & B & HA & HB).
    apply list_elem_of_split in Hc as Hsplit. destruct Hsplit as (k1 & k2 & Hk).
    assert (Hndk : NoDup (k1 ++ c :: k2)).
    { rewrite <- Hk. apply (links_NoDup _ _ _ _ (proj1 Wh)). }
    assert (Hother : ∀ c', c' ∈ k1 ++ k2 -> child h x c' ∧ ¬ desc h c' to).
    { intros c' Hc'.
      assert (Hch' : child h x c').
      { unfold child. rewrite Hk. apply elem_of_app.
        apply elem_of_app in Hc' as [?|?]; [by left|right; by right]. }
      split; [done|]. intros Hd'.
      assert (c' = c) as -> by (by eapply (desc_siblings h Wh x c' c to)).
      apply NoDup_app in Hndk as (_ & Hdis & Hnd2). apply NoDup_cons in Hnd2 as [Hnot _].
      apply elem_of_app in Hc' as [Hc'|Hc']; [|done]. apply (Hdis c Hc'). left. }
    rewrite (walk_unfold h2 Wh2) by (by rewrite ?move_walk_dom).
    rewrite (walk_unfold h Wh n x) by done.
    rewrite filter_cons_True by (unfold Q, sub; by rewrite (walk_desc h Wh)).
    rewrite move_walk_children, decide_False by done.
    rewrite Hk, filter_app, filter_cons_True, !List.flat_map_app, filter_app by done.
    simpl. rewrite filter_app, HA, HB.
    rewrite (Hkids x k1); [| |done|].
    2:{ intros c' Hc'. apply Hother, elem_of_app. by left. }
    2:{ intros c' Hc' _. apply Hother, elem_of_app. by left. }
    rewrite (Hkids x k2); [| |done|].
    2:{ intros c' Hc'. apply Hother, elem_of_app. by right. }
    2:{ intros c' Hc' _. apply Hother, elem_of_app. by right. }
    exists (x :: filter Q (flat_map (preorder_walk n h) k1) ++ A),
           (B ++ filter Q (flat_map (preorder_walk n h) k2)).
    simpl. rewrite <- !app_assoc. simpl. rewrite <- !app_assoc. done.
Qed.
End MoveWalk.

(** ** The re-splice of the cached list *)

Lemma py_remove_split x (A B : list string) :
  x ∉ A -> py_remove x (A ++ x :: B) = Some (A ++ B).
Proof.
  intros Hx. unfold py_remove. apply remove_where_app; [|apply String.eqb_refl].
  apply Forall_forall. intros z Hz. apply String.eqb_neq. by intros ->.
Qed.

Lemma py_insert_nat (k : nat) (y : string) (l : list string) :
  py_insert (Z.of_nat k) y l = take k l ++ y :: drop k l.
Proof.
  unfold py_insert, clamp.
  destruct (Z.ltb_spec (Z.of_nat k) 0) as [Hk|Hk]; [lia|].
  destruct (decide (k <= length l)) as [Hle|Hgt].
  - rewrite Z.min_l by lia. by rewrite Nat2Z.id.
  - rewrite Z.min_r by lia. rewrite Nat2Z.id.
    by rewrite !take_ge, !drop_ge by lia.
Qed.

Section Resplice.
Context (h : gmap string Node) (nid pred : string).
Context (Hpred : preorder_predecessor h nid = Return (Some pred)).

(** A leaf that moves to an earlier place lands right after its
    predecessor. *)
Lemma resplice_leaf_back A M Q :
  is_leaf h nid = true -> NoDup (A ++ pred :: M ++ nid :: Q) ->
  resplice h (A ++ pred :: M ++ nid :: Q) nid = Return (A ++ pred :: nid :: M ++ Q).
Proof.
  intros Hleaf Hnd. unfold resplice. rewrite Hpred. cbn [obind].
  assert (HpA : pred ∉ A).
  { apply NoDup_app in Hnd as (_ & Hdis & _). intros Hin. apply (Hdis pred Hin). left. }
  rewrite (index_split pred A _ HpA), Hleaf.
  assert (Hre : A ++ pred :: M ++ nid :: Q = (A ++ pred :: M) ++ nid :: Q).
  { by rewrite <- app_assoc. }
  assert (Hnot : nid ∉ A ++ pred :: M).
  { rewrite Hre in Hnd. apply NoDup_app in Hnd as (_ & Hdis & _).
    intros Hin. apply (Hdis nid Hin). left. }
  rewrite Hre, (py_remove_split nid _ Q Hnot), <- app_assoc. simpl.
  apply f_equal. apply (py_insert_after pred nid A (M ++ Q)).
Qed.

(** A leaf that moves to a later place lands one place after the place
    right after its predecessor, unless the predecessor is the last of the
    list. *)
Lemma resplice_leaf_fwd P M B :
  is_leaf h nid = true -> NoDup (P ++ nid :: M ++ pred :: B) ->
  resplice h (P ++ nid :: M ++ pred :: B) nid
  = Return (P ++ M ++ pred :: take 1 B ++ nid :: drop 1 B).
Proof.
  intros Hleaf Hnd. unfold resplice. rewrite Hpred. cbn [obind].
  assert (Hre : P ++ nid :: M ++ pred :: B = (P ++ nid :: M) ++ pred :: B).
  { by rewrite <- app_assoc. }
  assert (HpA : pred ∉ P ++ nid :: M).
  { rewrite Hre in Hnd. apply NoDup_app in Hnd as (_ & Hdis & _).
    intros Hin. apply (Hdis pred Hin). left. }
  assert (HnP : nid ∉ P).
  { apply NoDup_app in Hnd as (_ & Hdis & _). intros Hin. apply (Hdis nid Hin). left. }
  rewrite Hre at 1. rewrite (index_split pred _ B HpA), Hleaf.
  rewrite (py_remove_split nid P _ HnP).
  replace (Z.of_nat (length (P ++ nid :: M)) + 1)%Z
    with (Z.of_nat (length (P ++ M ++ [pred]) + 1))
    by (rewrite ?length_app; simpl; rewrite ?length_app; simpl; lia).
  rewrite py_insert_nat.
  replace (P ++ M ++ pred :: B) with ((P ++ M ++ [pred]) ++ B)
    by (by rewrite <- !app_assoc).
  rewrite take_app_add, drop_app_add. by rewrite <- !app_assoc.
Qed.

Context (node : string) (sub' : list string).
Context (Hleaf : is_leaf h nid = false).
Context (Hnode : last_preorder_child (fuel_of h) h nid = Some node).
Context (Hlast : last (nid :: sub') = Some node).

(** A subtree that moves to a later place lands right after its
    predecessor. *)
Lemma resplice_block_fwd P M B :
  NoDup (P ++ (nid :: sub') ++ M ++ pred :: B) ->
  resplice h (P ++ (nid :: sub') ++ M ++ pred :: B) nid
  = Return (P ++ M ++ pred :: (nid :: sub') ++ B).
Proof.
  intros Hnd. unfold resplice. rewrite Hpred. cbn [obind].
  set (L := P ++ (nid :: sub') ++ M ++ pred :: B).
  apply last_Some in Hlast as [S0 HS0].
  assert (Hlen : length sub' = length S0).
  { apply (f_equal length) in HS0. rewrite length_app in HS0. simpl in HS0. lia. }
  assert (H1 : index pred L = Some (Z.of_nat (length (P ++ (nid :: sub') ++ M)))).
  { unfold L. rewrite !app_assoc. rewrite <- (app_assoc P). apply index_split.
    unfold L in Hnd. rewrite !app_assoc, <- (app_assoc P) in Hnd.
    apply NoDup_app in Hnd as (_ & Hdis & _). intros Hin. apply (Hdis pred Hin). left. }
  assert (H2 : index nid L = Some (Z.of_nat (length P))).
  { unfold L. simpl. apply index_split.
    apply NoDup_app in Hnd as (_ & Hdis & _). intros Hin. apply (Hdis nid Hin). left. }
  assert (H3 : index node L = Some (Z.of_nat (length (P ++ S0)))).
  { unfold L. rewrite HS0, <- !app_assoc. simpl. rewrite app_assoc. apply index_split.
    unfold L in Hnd. rewrite HS0, <- !app_assoc in Hnd. simpl in Hnd.
    rewrite app_assoc in Hnd.
    apply NoDup_app in Hnd as (_ & Hdis & _). intros Hin. apply (Hdis node Hin). left. }
  rewrite H1, Hleaf, Hnode, H2, H3.
  assert (E1 : (Z.of_nat (length P)
                + (Z.of_nat (length (P ++ S0)) - Z.of_nat (length P) + 1))%Z
               = Z.of_nat (length P + length (nid :: sub'))).
  { rewrite length_app. cbn [length]. lia. }
  assert (E2 : (Z.of_nat (length (P ++ (nid :: sub') ++ M)) + 1)%Z
               = Z.of_nat (length P + length (nid :: sub') + length (M ++ [pred]))).
  { rewrite !length_app. cbn [length]. lia. }
  cbv zeta. rewrite E1, E2.
  destruct (Z.gtb_spec (Z.of_nat (length P + length (nid :: sub') + length (M ++ [pred])))
                       (Z.of_nat (length P + length (nid :: sub')))) as [_|Hle].
  2:{ rewrite length_app in Hle. cbn [length] in Hle. lia. }
  f_equal.
  replace L with (P ++ (nid :: sub') ++ (M ++ [pred]) ++ B)
    by (unfold L; by rewrite <- !app_assoc).
  rewrite swap_spans_app. by rewrite <- !app_assoc.
Qed.

(** A subtree that moves to an earlier place lands right after its
    predecessor; when it stands there already, neither branch of the
    exchange is taken. *)
Lemma resplice_block_back A M Q :
  NoDup (A ++ pred :: M ++ (nid :: sub') ++ Q) ->
  resplice h (A ++ pred :: M ++ (nid :: sub') ++ Q) nid
  = if decide (M = []) then Raise UnboundLocalError
    else Return (A ++ pred :: (nid :: sub') ++ M ++ Q).
Proof.
  intros Hnd. unfold resplice. rewrite Hpred. cbn [obind].
  set (L := A ++ pred :: M ++ (nid :: sub') ++ Q).
  apply last_Some in Hlast as [S0 HS0].
  assert (Hlen : length sub' = length S0).
  { apply (f_equal length) in HS0. rewrite length_app in HS0. simpl in HS0. lia. }
  assert (H1 : index pred L = Some (Z.of_nat (length A))).
  { unfold L. apply index_split.
    apply NoDup_app in Hnd as (_ & Hdis & _). intros Hin. apply (Hdis pred Hin). left. }
  assert (HL2 : L = (A ++ pred :: M) ++ nid :: sub' ++ Q).
  { unfold L. by rewrite <- !app_assoc. }
  assert (H2 : index nid L = Some (Z.of_nat (length (A ++ pred :: M)))).
  { rewrite HL2. apply index_split. fold L in Hnd. rewrite HL2 in Hnd.
    apply NoDup_app in Hnd as (_ & Hdis & _). intros Hin. apply (Hdis nid Hin). left. }
  assert (HL3 : L = ((A ++ pred :: M) ++ S0) ++ node :: Q).
  { unfold L. rewrite HS0. rewrite <- ?app_assoc. simpl. by rewrite <- ?app_assoc. }
  assert (H3 : index node L = Some (Z.of_nat (length ((A ++ pred :: M) ++ S0)))).
  { rewrite HL3. apply index_split. fold L in Hnd. rewrite HL3 in Hnd.
    apply NoDup_app in Hnd as (_ & Hdis & _). intros Hin. apply (Hdis node Hin). left. }
  rewrite H1, Hleaf, Hnode, H2, H3.
  assert (E0 : (Z.of_nat (length A) + 1)%Z = Z.of_nat (length (A ++ [pred]))).
  { rewrite length_app. cbn [length]. lia. }
  assert (E1 : Z.of_nat (length (A ++ pred :: M))
               = Z.of_nat (length (A ++ [pred]) + length M)).
  { rewrite !length_app. cbn [length]. lia. }
  assert (E2 : (Z.of_nat (length (A ++ [pred]) + length M)
                + (Z.of_nat (length ((A ++ pred :: M) ++ S0))
                   - Z.of_nat (length (A ++ [pred]) + length M) + 1))%Z
               = Z.of_nat (length (A ++ [pred]) + length M + length (nid :: sub'))).
  { rewrite !length_app. cbn [length]. lia. }
  cbv zeta. rewrite E0, E1, E2.
  destruct (Z.gtb_spec (Z.of_nat (length (A ++ [pred])))
              (Z.of_nat (length (A ++ [pred]) + length M + length (nid :: sub'))))
    as [Hgt|_]; [cbn [length] in Hgt; lia|].
  destruct (Z.ltb_spec (Z.of_nat (length (A ++ [pred])))
              (Z.of_nat (length (A ++ [pred]) + length M))) as [Hlt|Hge].
  - rewrite decide_False by (intros ->; simpl in Hlt; lia).
    f_equal.
    replace L with ((A ++ [pred]) ++ M ++ (nid :: sub') ++ Q)
      by (unfold L; by rewrite <- !app_assoc).
    rewrite swap_spans_app. by rewrite <- !app_assoc.
  - rewrite decide_True; [done|]. destruct M; [done|]. simpl in Hge. lia.
Qed.
End Resplice.

(** ** The cached list after [move] *)

Lemma filter_block (P sub Q : list string) :
  NoDup (P ++ sub ++ Q) -> filter (fun y => y ∉ sub) (P ++ sub ++ Q) = P ++ Q.
Proof.
  intros Hnd. rewrite !filter_app.
  apply NoDup_app in Hnd as (_ & HP & Hnd). apply NoDup_app in Hnd as (_ & HQ & _).
  assert (H1 : filter (fun y => y ∉ sub) P = P).
  { apply filter_all. intros y Hy Hy'. apply (HP y Hy). apply elem_of_app. by left. }
  assert (H2 : filter (fun y => y ∉ sub) sub = []).
  { apply filter_none. intros y Hy Hy'. done. }
  assert (H3 : filter (fun y => y ∉ sub) Q = Q).
  { apply filter_all. intros y Hy Hy'. by apply (HQ y). }
  by rewrite H1, H2, H3.
Qed.

Lemma app_eq_cases (P Q A B : list string) pred :
  P ++ Q = A ++ pred :: B ->
  (∃ M, P = A ++ pred :: M ∧ B = M ++ Q) ∨ (∃ M, Q = M ++ pred :: B ∧ A = P ++ M).
Proof.
  intros H. apply List.app_eq_app in H as (l & [[-> H]|[-> ->]]).
  - destruct l as [|a l]; simpl in H.
    + right. exists []. rewrite !app_nil_r. by split.
    + injection H as <- ->. left. by exists l.
  - right. by exists l.
Qed.

(** [move] on a store whose cached list is the pre-order listing of its
    tree.  The listing of the new tree has the moved subtree right after
    the new predecessor of the moved node; the cached list is this listing
    but for a leaf that moves to a later place, which lands one place too
    far. *)
Lemma move_consistent s nid to s' r0 :
  wf s -> sorted_children (_nodes s) -> _preorder s = tree_preorder s ->
  move s nid to = (s', r0) ->
  (s' = s ∧ r0 = Return false)
  ∨ ∃ X Y Z sub' pred,
      NoDup (tree_preorder s) ∧ (sub' = [] <-> children (_nodes s !!! nid) = [])
      ∧ ((tree_preorder s = X ++ (nid :: sub') ++ Y ++ pred :: Z
          ∧ tree_preorder s' = X ++ Y ++ pred :: (nid :: sub') ++ Z
          ∧ r0 = Return true
          ∧ _preorder s' = (if decide (sub' = [])
                            then X ++ Y ++ pred :: take 1 Z ++ nid :: drop 1 Z
                            else tree_preorder s'))
         ∨ (tree_preorder s = X ++ pred :: Y ++ (nid :: sub') ++ Z
            ∧ tree_preorder s' = X ++ pred :: (nid :: sub') ++ Y ++ Z
            ∧ _preorder s' = tree_preorder s'
            ∧ r0 = (if decide (sub' ≠ [] ∧ Y = []) then Raise UnboundLocalError
                    else Return true))).
Proof.
  intros W Hsorted Hc H. pose proof (wf_nodes _ W) as Wh.
  destruct (move_trace s nid to W)
    as [Hm|(h1 & h2 & op & Hrep & Hop & _ & Hatt & Hrm & Hdet & Hm)]; rewrite Hm in H.
  { left. by injection H as <- <-. }
  right. clear Hm.
  destruct Hrep as (h1' & op' & Hnid & Hto & Hne & Hop' & Hopto & Hnd & _ & _ & Wh2).
  assert (op' = op) as -> by congruence. clear Hop'.
  set (h := _nodes s) in *. remember (fuel_of h) as n eqn:Hnn.
  assert (Hn : size h < n) by (rewrite Hnn; unfold fuel_of; lia).
  pose proof (move_walk_size h h1 h2 nid to op Hatt Hdet) as Hsz.
  pose proof (move_walk_dom h h1 h2 nid to op Hatt Hdet) as Hdom.
  assert (Hf2 : fuel_of h2 = n) by (rewrite Hnn; unfold fuel_of; by rewrite Hsz).
  destruct (wf_root _ W (dom_nonempty _ nid Hnid)) as (r & Hroot & Hrd & Hrp).
  pose proof (tree_preorder_root s r (dom_nonempty _ nid Hnid) Hroot) as Htree.
  fold h in Htree. rewrite <- Hnn in Htree.
  assert (Hnr : ¬ desc h nid r).
  { intros Hd. apply (wf_desc_depth h Wh) in Hd. pose proof (wf_up_depth h Wh _ _ Hop).
    pose proof (proj2 Wh r) as Hdr. fold h in Hrp. rewrite Hrp in Hdr. lia. }
  (* the predecessor of the moved node in the new tree *)
  destruct (move_walk_split h h1 h2 nid to op Wh Hsorted Hop Hopto Hatt Hrm Hdet)
    as (l1 & l2 & Hl' & _).
  destruct (preorder_predecessor_split h2 nid to l1 l2 n Wh2) as (pred & Hpred & _);
    [lia|by apply (move_walk_parent h h1 h2 nid to op)|done|].
  (* the two listings *)
  destruct (move_walk_insert h h1 h2 nid to op n Wh Hsorted Hnid Hto Hop Hopto Hnd Hatt Hrm
              Hdet Wh2 Hn pred r Hpred) as (A & B & HA & HB);
    [by apply (root_reaches s r to W)|done|done|].
  destruct (walk_block h n nid r Wh Hn) as (P & Q & HPQ);
    [by apply (root_reaches s r nid W)|done|].
  pose proof (walk_NoDup h Wh n r Hrd Hn) as Hnodup.
  assert (Hsub : ∃ sub', preorder_walk n h nid = nid :: sub'
                         ∧ (sub' = [] <-> children (h !!! nid) = [])).
  { rewrite (walk_unfold h Wh n nid) by done. eexists. split; [done|]. split.
    - intros He. destruct (children (h !!! nid)) as [|c cs] eqn:Hcs; [done|]. exfalso.
      assert (Hcd : c ∈ dom h).
      { assert (Hch : child h nid c) by (unfold child; rewrite Hcs; left).
        by apply (wf_child_up h Wh), (wf_up_dom h Wh) in Hch as [? _]. }
      assert (Hin : c ∈ flat_map (preorder_walk n h) (c :: cs)).
      { apply elem_flat_map. exists c. split; [left|].
        apply (walk_desc h Wh); [done|done|apply rtc_refl]. }
      rewrite He in Hin. by apply elem_of_nil in Hin.
    - by intros ->. }
  destruct Hsub as (sub' & Hsub & Hleafiff).
  rewrite Hsub in HA, HB, HPQ.
  assert (Hleaf2 : is_leaf h2 nid = if decide (sub' = []) then true else false).
  { unfold is_leaf.
    rewrite (move_walk_children h h1 h2 nid to op Wh Hop Hopto Hatt Hrm Hdet).
    rewrite decide_False by done.
    rewrite filter_all.
    2:{ intros c Hch ->. apply (wf_child_up h Wh), (wf_up_depth h Wh) in Hch. lia. }
    destruct (decide (sub' = [])) as [He|He].
    - by rewrite (proj1 Hleafiff He).
    - destruct (children (h !!! nid)) eqn:Hcs; [|done]. destruct He. by apply Hleafiff. }
  assert (Hlast : ∃ node, last_preorder_child (fuel_of h2) h2 nid = Some node
                          ∧ last (nid :: sub') = Some node).
  { rewrite (last_preorder_child_last h2 Wh2) by (rewrite ?Hdom, ?Hf2; done || lia).
    rewrite Hf2, (move_walk_sub h h1 h2 nid to op n Wh Hnid Hop Hopto Hnd Hatt Hrm Hdet Wh2 Hn)
      by apply rtc_refl.
    rewrite Hsub. destruct (last (nid :: sub')) as [node|] eqn:E; [eauto|].
    by apply last_None in E. }
  destruct Hlast as (node & Hnode & Hlast).
  rewrite HPQ in Hnodup, HA. rewrite (filter_block P (nid :: sub') Q Hnodup) in HA.
  assert (Hs'n : ∀ l, tree_preorder (with_preorder l (with_nodes h2 s))
                      = preorder_walk n h2 r).
  { intros l. rewrite (tree_preorder_root _ r); [by rewrite <- Hf2| |done].
    cbn [_nodes with_preorder with_nodes]. apply (dom_nonempty _ r). by rewrite Hdom. }
  assert (Hs'n0 : tree_preorder (with_nodes h2 s) = preorder_walk n h2 r).
  { rewrite <- (Hs'n (_preorder s)). by destruct s. }
  rewrite Hc, Htree, HPQ in H.
  exists (if decide (pred ∈ P) then A else P).
  apply app_eq_cases in HA as [(M & -> & ->)|(M & -> & ->)].
  - (* the subtree moves to an earlier place *)
    rewrite decide_True by (apply elem_of_app; right; left).
    exists M, Q, sub', pred. rewrite Htree, HPQ.
    split; [done|]. split; [done|]. right.
    rewrite <- ?app_assoc in Hnodup, H. cbn [app] in Hnodup, H.
    rewrite <- ?app_assoc. cbn [app].
    split; [done|].
    destruct (decide (sub' = [])) as [He|He].
    + subst sub'. cbn [app] in *.
      rewrite (resplice_leaf_back h2 nid pred Hpred A M Q Hleaf2 Hnodup) in H.
      injection H as <- <-. rewrite Hs'n, HB. cbn [_preorder with_preorder].
      rewrite <- ?app_assoc. cbn [app].
      rewrite decide_False by (by intros [? _]). done.
    + pose proof (resplice_block_back h2 nid pred Hpred node sub' Hleaf2 Hnode Hlast A M Q
                    Hnodup) as Hres.
      cbn [app] in Hres. rewrite Hres in H. clear Hres.
      destruct (decide (M = [])) as [HM|HM].
      * injection H as <- <-. rewrite Hs'n0, HB, HM. cbn [_preorder with_nodes].
        rewrite Hc, Htree, HPQ, HM. rewrite <- ?app_assoc. cbn [app].
        rewrite decide_True by done. done.
      * injection H as <- <-. rewrite Hs'n, HB. cbn [_preorder with_preorder].
        rewrite <- ?app_assoc. cbn [app].
        rewrite decide_False by (by intros [_ ?]). done.
  - (* the subtree moves to a later place *)
    assert (HpP : pred ∉ P).
    { intros Hin. apply NoDup_app in Hnodup as (_ & Hdis & _). apply (Hdis pred Hin).
      apply elem_of_app. right. apply elem_of_app. right. left. }
    rewrite decide_False by done.
    exists M, B, sub', pred. rewrite Htree, HPQ.
    split; [done|]. split; [done|]. left.
    split; [done|].
    destruct (decide (sub' = [])) as [He|He].
    + subst sub'. cbn [app] in *.
      rewrite (resplice_leaf_fwd h2 nid pred Hpred P M B Hleaf2 Hnodup) in H.
      injection H as <- <-. rewrite Hs'n, HB. cbn [_preorder with_preorder].
      rewrite <- ?app_assoc. done.
    + pose proof (resplice_block_fwd h2 nid pred Hpred node sub' Hleaf2 Hnode Hlast P M B
                    Hnodup) as Hres.
      cbn [app] in Hres. cbn [app] in H. rewrite Hres in H. clear Hres.
      injection H as <- <-. rewrite Hs'n, HB. cbn [_preorder with_preorder].
      rewrite <- ?app_assoc. done.
Qed.

Lemma rotate_ne (X S Y Z : list string) :
  NoDup (X ++ S ++ Y ++ Z) -> S ≠ [] -> Y ≠ [] -> X ++ S ++ Y ++ Z ≠ X ++ Y ++ S ++ Z.
Proof.
  intros Hnd HS HY Heq. apply app_inv_head in Heq.
  destruct S as [|a S]; [done|]. destruct Y as [|b Y]; [done|].
  simpl in Heq. injection Heq as -> _.
  apply NoDup_app in Hnd as (_ & _ & Hnd). apply NoDup_app in Hnd as (_ & Hdis & _).
  apply (Hdis b); [left|]. apply elem_of_app. left. left.
Qed.

(** [move] of a node with children keeps the cached list right.  On a
    reachable store whose cached list is the pre-order listing of its
    tree, after [move] of a node that has children the cached list is the
    listing of the tree the call leaves, whether it returns True, returns
    False or raises; it returns True exactly when the listing changes, and
    the only exception is UnboundLocalError, raised after the re-parenting
    when the subtree keeps its place in the listing. *)
Theorem move_subtree_keeps_preorder s nid to s' r0 :
  reachable s -> _preorder s = tree_preorder s ->
  children (_nodes s !!! nid) ≠ [] ->
  move s nid to = (s', r0) ->
  _preorder s' = tree_preorder s'
  ∧ (r0 = Return true ∨ r0 = Return false ∨ r0 = Raise UnboundLocalError)
  ∧ (r0 = Return true <-> tree_preorder s' ≠ tree_preorder s).
Proof.
  intros Hr Hc Hkids H.
  destruct (move_consistent s nid to s' r0 (reachable_wf s Hr) (reachable_sorted s Hr) Hc H)
    as [[-> ->]|(X & Y & Z & sub' & pred & Hnd & Hleaf & Hcase)].
  { split; [done|]. split; [auto|]. split; [done|]. intros Hne. by destruct Hne. }
  assert (Hsub : sub' ≠ []) by (intros He; by apply Hkids, Hleaf).
  destruct Hcase as [(HL & HL' & -> & Hp)|(HL & HL' & Hp & ->)].
  - rewrite decide_False in Hp by done. split; [done|]. split; [auto|].
    split; [intros _|done]. rewrite HL, HL'. intros Heq. symmetry in Heq. revert Heq.
    replace (X ++ Y ++ pred :: (nid :: sub') ++ Z)
      with (X ++ (Y ++ [pred]) ++ (nid :: sub') ++ Z) by (by rewrite <- app_assoc).
    replace (X ++ (nid :: sub') ++ Y ++ pred :: Z)
      with (X ++ (nid :: sub') ++ (Y ++ [pred]) ++ Z) by (by rewrite <- !app_assoc).
    apply rotate_ne; [|done|by destruct Y].
    rewrite HL in Hnd. by rewrite <- !app_assoc.
  - split; [done|]. destruct (decide (Y = [])) as [->|HY].
    + rewrite decide_True by done. split; [auto|]. split; [done|].
      intros Hne. destruct Hne. by rewrite HL, HL'.
    + rewrite decide_False by (by intros [_ ?]). split; [auto|].
      split; [intros _|done]. rewrite HL, HL'. intros Heq. symmetry in Heq. revert Heq.
      replace (X ++ pred :: Y ++ (nid :: sub') ++ Z)
        with ((X ++ [pred]) ++ Y ++ (nid :: sub') ++ Z) by (by rewrite <- app_assoc).
      replace (X ++ pred :: (nid :: sub') ++ Y ++ Z)
        with ((X ++ [pred]) ++ (nid :: sub') ++ Y ++ Z) by (by rewrite <- app_assoc).
      apply rotate_ne; [|done|done].
      rewrite HL in Hnd. by rewrite <- app_assoc.
Qed.

(** An instance of [move_subtree_keeps_preorder]: [b] moves with its
    child [c] under [d]. *)
Lemma move_subtree_keeps_preorder_witness :
  reachable store_wide ∧ _preorder store_wide = tree_preorder store_wide
  ∧ children (_nodes store_wide !!! "b") ≠ []
  ∧ _preorder (fst (move store_wide "b" "d")) = ["1"; "a"; "d"; "b"; "c"]
  ∧ _preorder (fst (move store_wide "b" "d")) = tree_preorder (fst (move store_wide "b" "d")).
Proof.
  assert (Hr : reachable store_wide).
  { unfold store_wide, store_chain, store_root.
    repeat (apply reachable_add_to; [|exists true; vm_compute; reflexivity]).
    apply reach_init. }
  assert (Hc : _preorder store_wide = tree_preorder store_wide) by (vm_compute; reflexivity).
  assert (Hk : children (_nodes store_wide !!! "b") ≠ []) by (vm_compute; discriminate).
  assert (Hm : move store_wide "b" "d"
               = (fst (move store_wide "b" "d"), snd (move store_wide "b" "d"))).
  { by destruct (move store_wide "b" "d"). }
  split; [exact Hr|]. split; [exact Hc|]. split; [exact Hk|].
  split; [vm_compute; reflexivity|].
  exact (proj1 (move_subtree_keeps_preorder store_wide "b" "d" _ _ Hr Hc Hk Hm)).
Defined.

(** [move] of a leaf.  On a reachable store whose cached list is the
    pre-order listing of its tree, [move] of a node without children never
    raises, and the cached list it leaves is the listing of the new tree
    unless the leaf moves to a later place of the listing that is not the
    last.  In that case the cached list is the listing of the new tree
    with the leaf and the id that follows it exchanged: the leaf stands
    one place too far. *)
Theorem move_leaf_preorder s nid to s' r0 :
  reachable s -> _preorder s = tree_preorder s ->
  children (_nodes s !!! nid) = [] ->
  move s nid to = (s', r0) ->
  (r0 = Return true ∨ r0 = Return false)
  ∧ ∀ j j', index nid (tree_preorder s) = Some j -> index nid (tree_preorder s') = Some j' ->
      (_preorder s' = tree_preorder s'
       <-> ¬ (j < j' ∧ j' + 1 < Z.of_nat (length (tree_preorder s')))%Z)
      ∧ ((j < j' ∧ j' + 1 < Z.of_nat (length (tree_preorder s')))%Z ->
         ∃ A b B, tree_preorder s' = A ++ nid :: b :: B
                  ∧ _preorder s' = A ++ b :: nid :: B).
Proof.
  intros Hr Hc Hkids H.
  destruct (move_consistent s nid to s' r0 (reachable_wf s Hr) (reachable_sorted s Hr) Hc H)
    as [[-> ->]|(X & Y & Z & sub' & pred & Hnd & Hleaf & Hcase)].
  { split; [auto|]. intros j j' Hj Hj'. assert (j = j') by congruence.
    split; [split; [|done]; intros _ [Hlt _]; lia|]. intros [Hlt _]. lia. }
  assert (sub' = []) as -> by (by apply Hleaf).
  destruct Hcase as [(HL & HL' & -> & Hp)|(HL & HL' & Hp & ->)].
  - split; [auto|]. rewrite decide_True in Hp by done.
    rewrite HL in Hnd. cbn [app] in HL, HL', Hnd.
    assert (HnX : nid ∉ X).
    { apply NoDup_app in Hnd as (_ & Hdis & _). intros Hin. apply (Hdis nid Hin). left. }
    assert (Hre : X ++ Y ++ pred :: nid :: Z = (X ++ Y ++ [pred]) ++ nid :: Z).
    { by rewrite <- !app_assoc. }
    assert (HnXY : nid ∉ X ++ Y ++ [pred]).
    { apply NoDup_app in Hnd as (_ & _ & Hnd2). apply NoDup_cons in Hnd2 as [Hnot _].
      intros [Hin|Hin]%elem_of_app; [done|]. apply Hnot.
      apply elem_of_app in Hin as [Hin|Hin]; [apply elem_of_app; by left|].
      apply list_elem_of_singleton in Hin as ->. apply elem_of_app. right. left. }
    intros j j'. rewrite HL, HL', (index_split nid X _ HnX). rewrite Hre at 1.
    rewrite (index_split nid _ Z HnXY). intros [= <-] [= <-].
    rewrite Hp, Hre, !length_app. cbn [length].
    destruct Z as [|z Z]; simpl.
    + split; [|intros [_ ?]; lia].
      split; [intros _ [_ ?]; lia|]. intros _. by rewrite <- !app_assoc.
    + split.
      * split.
        -- intros Heq. rewrite <- !app_assoc in Heq.
           apply app_inv_head in Heq. apply app_inv_head in Heq. simpl in Heq.
           injection Heq as -> _.
           apply NoDup_app in Hnd as (_ & _ & Hnd2). apply NoDup_cons in Hnd2 as [Hnot _].
           destruct Hnot. apply elem_of_app. right. right. left.
        -- intros Hn. destruct Hn. lia.
      * intros _. exists (X ++ Y ++ [pred]), z, Z. split; [done|].
        by rewrite <- !app_assoc.
  - split; [rewrite decide_False by (by intros [? _]); auto|].
    rewrite HL in Hnd. cbn [app] in HL, HL', Hnd.
    assert (Hre : X ++ pred :: Y ++ nid :: Z = (X ++ pred :: Y) ++ nid :: Z).
    { by rewrite <- !app_assoc. }
    assert (HnXY : nid ∉ X ++ pred :: Y).
    { rewrite Hre in Hnd. apply NoDup_app in Hnd as (_ & Hdis & _).
      intros Hin. apply (Hdis nid Hin). left. }
    assert (Hre' : X ++ pred :: nid :: Y ++ Z = (X ++ [pred]) ++ nid :: Y ++ Z).
    { by rewrite <- !app_assoc. }
    assert (HnX' : nid ∉ X ++ [pred]).
    { intros Hin. apply HnXY. apply elem_of_app in Hin as [Hin|Hin]; apply elem_of_app;
        [by left|right]. apply list_elem_of_singleton in Hin as ->. left. }
    intros j j'. rewrite HL, HL'. rewrite Hre at 1. rewrite (index_split nid _ Z HnXY).
    rewrite Hre' at 1. rewrite (index_split nid _ _ HnX'). intros [= <-] [= <-].
    assert (Hback : ¬ (Z.of_nat (length (X ++ pred :: Y)) < Z.of_nat (length (X ++ [pred])))%Z).
    { rewrite !length_app. cbn [length]. lia. }
    split; [|intros [Hlt _]; by destruct Hback].
    split; [|intros _; by rewrite Hp]. intros _ [Hlt _]. by destruct Hback.
Qed.

(** An instance of [move_leaf_preorder]: the leaf [a] of the root moves
    under [b], to a later place that is not the last; the new tree lists
    as [1, b, a, c] and the cached list is [1, b, c, a]. *)
Lemma move_leaf_preorder_witness :
  reachable store_leaves ∧ _preorder store_leaves = tree_preorder store_leaves
  ∧ children (_nodes store_leaves !!! "a") = []
  ∧ _preorder (fst (move store_leaves "a" "b")) ≠ tree_preorder (fst (move store_leaves "a" "b"))
  ∧ ∃ A b B, tree_preorder (fst (move store_leaves "a" "b")) = A ++ "a" :: b :: B
             ∧ _preorder (fst (move store_leaves "a" "b")) = A ++ b :: "a" :: B.
Proof.
  assert (Hr : reachable store_leaves) by apply store_leaves_reachable.
  assert (Hc : _preorder store_leaves = tree_preorder store_leaves) by (vm_compute; reflexivity).
  assert (Hk : children (_nodes store_leaves !!! "a") = []) by (vm_compute; reflexivity).
  assert (Hm : move store_leaves "a" "b"
               = (fst (move store_leaves "a" "b"), snd (move store_leaves "a" "b"))).
  { by destruct (move store_leaves "a" "b"). }
  assert (Hj : index "a" (tree_preorder store_leaves) = Some 1%Z) by (vm_compute; reflexivity).
  assert (Hj' : index "a" (tree_preorder (fst (move store_leaves "a" "b"))) = Some 2%Z)
    by (vm_compute; reflexivity).
  assert (Hlen : length (tree_preorder (fst (move store_leaves "a" "b"))) = 4)
    by (vm_compute; reflexivity).
  split; [exact Hr|]. split; [exact Hc|]. split; [exact Hk|].
  destruct (proj2 (move_leaf_preorder store_leaves "a" "b" _ _ Hr Hc Hk Hm) 1%Z 2%Z Hj Hj')
    as [Hiff Hfar].
  rewrite Hlen in Hiff, Hfar. split.
  - intros Heq. apply Hiff in Heq. apply Heq. lia.
  - apply Hfar. lia.
Defined.

(** ** Queries by root on a right cached list *)

Lemma slice_app (P S Q : list string) :
  slice (P ++ S ++ Q) (Z.of_nat (length P)) (Z.of_nat (length P + length S)) = S.
Proof.
  unfold slice. rewrite !clamp_nat by (rewrite !length_app; lia).
  rewrite drop_app_length. replace (length P + length S - length P) with (length S) by lia.
  by rewrite take_app_length.
Qed.

(** The subtree of one root of a query, on a store whose cached list is
    the pre-order listing of the tree: the full walk from the root of the
    query, filtered by the depth window. *)
Lemma query_subtree_walk s x mn mx :
  wf s -> _preorder s = tree_preorder s -> x ∈ dom (_nodes s) ->
  query_subtree s mn mx (Some x)
  = Return (filter (fun y => depth_between (mn + Z.of_nat (depth (_nodes s) x))
                               (mx + Z.of_nat (depth (_nodes s) x)) (_nodes s !!! y) = true)
                   (preorder_walk (fuel_of (_nodes s)) (_nodes s) x)).
Proof.
  intros W Hc Hx. pose proof (wf_nodes _ W) as Wh.
  destruct (wf_root _ W (dom_nonempty _ x Hx)) as (r & Hroot & Hrd & Hrp).
  pose proof (tree_preorder_root s r (dom_nonempty _ x Hx) Hroot) as Htree.
  remember (fuel_of (_nodes s)) as n eqn:Hnn.
  assert (Hn : size (_nodes s) < n) by (rewrite Hnn; unfold fuel_of; lia).
  assert (Hsub : ∀ y, y ∈ preorder_walk n (_nodes s) x -> y ∈ dom (_nodes s)).
  { intros y Hy. apply (walk_desc _ Wh) in Hy; [|done|done]. by apply (wf_desc_dom _ Wh x). }
  unfold query_subtree. rewrite Hroot.
  destruct (String.eqb_spec x r) as [->|Hxr].
  { rewrite Hc, Htree. by apply select_filter. }
  destruct (walk_block _ n x r Wh Hn) as (P & Q & HPQ); [by apply (root_reaches s r x W)|done|].
  pose proof (walk_NoDup _ Wh n r Hrd Hn) as Hnd. rewrite HPQ in Hnd.
  rewrite Hc, Htree, HPQ.
  assert (Hwx : ∃ sub', preorder_walk n (_nodes s) x = x :: sub').
  { rewrite (walk_unfold _ Wh n x) by done. eauto. }
  destruct Hwx as (sub' & Hwx).
  assert (HxP : x ∉ P).
  { apply NoDup_app in Hnd as (_ & Hdis & _). intros Hin. apply (Hdis x Hin).
    apply elem_of_app. left. rewrite Hwx. left. }
  assert (H1 : index x (P ++ preorder_walk n (_nodes s) x ++ Q) = Some (Z.of_nat (length P))).
  { rewrite Hwx. simpl. by apply index_split. }
  rewrite H1.
  rewrite (last_preorder_child_last _ Wh) by (done || rewrite <- Hnn; lia).
  rewrite <- Hnn.
  destruct (last (preorder_walk n (_nodes s) x)) as [lc|] eqn:Hlast.
  2:{ apply last_None in Hlast. by rewrite Hwx in Hlast. }
  apply last_Some in Hlast as [S0 HS0].
  assert (H2 : index lc (P ++ preorder_walk n (_nodes s) x ++ Q)
               = Some (Z.of_nat (length (P ++ S0)))).
  { rewrite HS0, <- app_assoc. simpl. rewrite app_assoc. apply index_split.
    rewrite HS0, <- app_assoc in Hnd. simpl in Hnd. rewrite app_assoc in Hnd.
    apply NoDup_app in Hnd as (_ & Hdis & _). intros Hin. apply (Hdis lc Hin). left. }
  rewrite H2.
  replace (Z.of_nat (length (P ++ S0)) + 1)%Z
    with (Z.of_nat (length P + length (preorder_walk n (_nodes s) x)))
    by (rewrite HS0, !length_app; simpl; lia).
  rewrite slice_app. by apply select_filter.
Qed.

(** A query by one root.  On a reachable store whose cached list is the
    pre-order listing of its tree, a query with the single root [x], an
    id of the index, returns the nodes of the full walk from [x] whose
    depth below [x] is inside the window; without depth bounds it returns
    the whole subtree of [x] in pre-order. *)
Theorem query_root_subtree s x min_depth max_depth :
  reachable s -> _preorder s = tree_preorder s -> x ∈ dom (_nodes s) ->
  query s None None (Some [x]) min_depth max_depth
  = (if inverted min_depth max_depth then Return []
     else Return (filter (fun y => depth_between
                            (window_min min_depth + Z.of_nat (depth (_nodes s) x))
                            (window_max s max_depth + Z.of_nat (depth (_nodes s) x))
                            (_nodes s !!! y) = true)
                         (preorder_walk (fuel_of (_nodes s)) (_nodes s) x)))
  ∧ (truthy_int min_depth = false -> truthy_int max_depth = false ->
     query s None None (Some [x]) min_depth max_depth
     = Return (preorder_walk (fuel_of (_nodes s)) (_nodes s) x)).
Proof.
  intros Hr Hc Hx. pose proof (reachable_wf s Hr) as W. pose proof (wf_nodes _ W) as Wh.
  assert (Hq : query s None None (Some [x]) min_depth max_depth
    = (if inverted min_depth max_depth then Return []
       else Return (filter (fun y => depth_between
                              (window_min min_depth + Z.of_nat (depth (_nodes s) x))
                              (window_max s max_depth + Z.of_nat (depth (_nodes s) x))
                              (_nodes s !!! y) = true)
                           (preorder_walk (fuel_of (_nodes s)) (_nodes s) x)))).
  { unfold query, inverted, window_min, window_max.
    rewrite decide_False by (by apply (dom_nonempty _ x)).
    destruct (_ && _ && _); [done|].
    cbn [truthy_list default from_option id uniq]. rewrite filter_nil.
    rewrite filter_cons_True, filter_nil by done.
    cbn [fmap list_fmap query_roots].
    rewrite (query_subtree_walk s x _ _ W Hc Hx). done. }
  split; [exact Hq|].
  intros Hmn Hmx. rewrite Hq. unfold inverted, window_min, window_max.
  rewrite Hmn, Hmx. cbn [andb]. f_equal. apply filter_all.
  intros y Hy. unfold depth_between.
  apply (walk_desc _ Wh) in Hy; [|done|unfold fuel_of; lia].
  pose proof (wf_desc_depth _ Wh _ _ Hy) as Hge.
  pose proof (depth_lt_size _ Wh y (wf_desc_dom _ Wh x y Hx Hy)) as Hlt.
  destruct (consistent_index s W Hc) as (_ & _ & Hlen).
  unfold depth in *.
  apply andb_true_iff. split; [apply Z.leb_le|apply Z.leb_le]; lia.
Qed.

(** An instance of [query_root_subtree]: the subtree of [b]. *)
Lemma query_root_subtree_witness :
  reachable store_wide ∧ _preorder store_wide = tree_preorder store_wide
  ∧ "b" ∈ dom (_nodes store_wide)
  ∧ query store_wide None None (Some ["b"]) None None = Return ["b"; "c"].
Proof.
  assert (Hr : reachable store_wide).
  { unfold store_wide, store_chain, store_root.
    repeat (apply reachable_add_to; [|exists true; vm_compute; reflexivity]).
    apply reach_init. }
  assert (Hc : _preorder store_wide = tree_preorder store_wide) by (vm_compute; reflexivity).
  assert (Hb : "b" ∈ dom (_nodes store_wide)).
  { apply elem_of_dom. exists (_nodes store_wide !!! "b"). vm_compute. reflexivity. }
  split; [exact Hr|]. split; [exact Hc|]. split; [exact Hb|].
  rewrite (proj2 (query_root_subtree store_wide "b" None None Hr Hc Hb) eq_refl eq_refl).
  vm_compute. reflexivity.
Defined.

(** ** Queries by several roots on a right cached list *)

Lemma window_all s x min_depth max_depth :
  wf s -> _preorder s = tree_preorder s -> x ∈ dom (_nodes s) ->
  truthy_int min_depth = false -> truthy_int max_depth = false ->
  filter (fun y => depth_between (window_min min_depth + Z.of_nat (depth (_nodes s) x))
                     (window_max s max_depth + Z.of_nat (depth (_nodes s) x))
                     (_nodes s !!! y) = true)
         (preorder_walk (fuel_of (_nodes s)) (_nodes s) x)
  = preorder_walk (fuel_of (_nodes s)) (_nodes s) x.
Proof.
  intros W Hc Hx Hmn Hmx. pose proof (wf_nodes _ W) as Wh.
  unfold window_min, window_max. rewrite Hmn, Hmx. apply filter_all.
  intros y Hy. unfold depth_between.
  apply (walk_desc _ Wh) in Hy; [|done|unfold fuel_of; lia].
  pose proof (wf_desc_depth _ Wh _ _ Hy) as Hge.
  pose proof (depth_lt_size _ Wh y (wf_desc_dom _ Wh x y Hx Hy)) as Hlt.
  destruct (consistent_index s W Hc) as (_ & _ & Hlen).
  unfold depth in *.
  apply andb_true_iff. split; [apply Z.leb_le|apply Z.leb_le]; lia.
Qed.

Lemma query_roots_walk s mn mx (k : list string) :
  wf s -> _preorder s = tree_preorder s -> (∀ x, x ∈ k -> x ∈ dom (_nodes s)) ->
  ∀ acc, query_roots s mn mx (Some <$> k) acc
  = Return (acc ++ flat_map
      (fun x => filter (fun y => depth_between (mn + Z.of_nat (depth (_nodes s) x))
                                   (mx + Z.of_nat (depth (_nodes s) x)) (_nodes s !!! y) = true)
                       (preorder_walk (fuel_of (_nodes s)) (_nodes s) x)) k).
Proof.
  intros W Hc. induction k as [|x k IH]; intros Hk acc;
    cbn [fmap list_fmap query_roots flat_map]; [by rewrite app_nil_r|].
  rewrite (query_subtree_walk s x mn mx W Hc) by (apply Hk; left). cbn [obind].
  rewrite IH by (intros y Hy; apply Hk; by right). by rewrite app_assoc.
Qed.

(** A query by roots.  On a reachable store whose cached list is the
    pre-order listing of its tree, a query by a non-empty list of roots
    returns, for each root of the de-duplicated list that is in the index,
    in the order of the list, the full walk from that root filtered by the
    depth window relative to it, one after the other; without depth bounds
    it returns the full walks themselves, so a node that lies in the
    subtrees of two of the roots is listed once for each. *)
Theorem query_roots_subtrees s l min_depth max_depth :
  reachable s -> _preorder s = tree_preorder s -> l ≠ [] ->
  query s None None (Some l) min_depth max_depth
  = (if inverted min_depth max_depth then Return []
     else Return (flat_map
            (fun x => filter (fun y => depth_between
                                (window_min min_depth + Z.of_nat (depth (_nodes s) x))
                                (window_max s max_depth + Z.of_nat (depth (_nodes s) x))
                                (_nodes s !!! y) = true)
                             (preorder_walk (fuel_of (_nodes s)) (_nodes s) x))
            (filter (fun x => x ∈ dom (_nodes s)) (uniq l))))
  ∧ (truthy_int min_depth = false -> truthy_int max_depth = false ->
     query s None None (Some l) min_depth max_depth
     = Return (flat_map (preorder_walk (fuel_of (_nodes s)) (_nodes s))
                        (filter (fun x => x ∈ dom (_nodes s)) (uniq l)))).
Proof.
  intros Hr Hc Hl. pose proof (reachable_wf s Hr) as W.
  assert (Hq : query s None None (Some l) min_depth max_depth
    = (if inverted min_depth max_depth then Return []
       else Return (flat_map
              (fun x => filter (fun y => depth_between
                                  (window_min min_depth + Z.of_nat (depth (_nodes s) x))
                                  (window_max s max_depth + Z.of_nat (depth (_nodes s) x))
                                  (_nodes s !!! y) = true)
                               (preorder_walk (fuel_of (_nodes s)) (_nodes s) x))
              (filter (fun x => x ∈ dom (_nodes s)) (uniq l))))).
  { unfold query, inverted, window_min, window_max.
    destruct (decide (_nodes s = ∅)) as [He|Hne].
    { rewrite (filter_none (fun x => x ∈ dom (_nodes s))).
      - by destruct (_ && _ && _).
      - intros x _. rewrite He, dom_empty_L. by intros ?%elem_of_empty. }
    destruct (_ && _ && _); [done|].
    assert (truthy_list (Some l) = true) as -> by (by destruct l).
    cbn [truthy_list default from_option id].
    rewrite (query_roots_walk s _ _ _ W Hc); [done|].
    intros x Hx. by apply list_elem_of_filter in Hx as [? _]. }
  split; [exact Hq|].
  intros Hmn Hmx. rewrite Hq. unfold inverted. rewrite Hmn. cbn [andb]. f_equal.
  apply flat_map_ext_elem. intros x Hx. apply list_elem_of_filter in Hx as [Hx _].
  by apply window_all.
Qed.

(** An instance of [query_roots_subtrees]: the roots [1] and [b], and the
    id [zz], which is not in the index; [b] and [c] lie in both subtrees
    and are listed twice. *)
Lemma query_roots_subtrees_witness :
  reachable store_wide ∧ _preorder store_wide = tree_preorder store_wide
  ∧ ["1"; "zz"; "b"; "1"] ≠ []
  ∧ query store_wide None None (Some ["1"; "zz"; "b"; "1"]) None None
    = Return (["1"; "a"; "b"; "c"; "d"] ++ ["b"; "c"]).
Proof.
  assert (Hr : reachable store_wide).
  { unfold store_wide, store_chain, store_root.
    repeat (apply reachable_add_to; [|exists true; vm_compute; reflexivity]).
    apply reach_init. }
  assert (Hc : _preorder store_wide = tree_preorder store_wide) by (vm_compute; reflexivity).
  assert (Hl : ["1"; "zz"; "b"; "1"] ≠ []) by discriminate.
  split; [exact Hr|]. split; [exact Hc|]. split; [exact Hl|].
  rewrite (proj2 (query_roots_subtrees store_wide ["1"; "zz"; "b"; "1"] None None Hr Hc Hl)
             eq_refl eq_refl).
  vm_compute. reflexivity.
Defined.
